(** * web-toolkit: retry, timeout and cancellation of the fetch client

    A shallow embedding of [createFetchClient] (fetch-client.ts): the
    retry helpers [resolveRetry], [parseRetryAfter], [backoffDelay],
    [isAbortError], [sleep], [composeSignal], the orchestrator
    [requestWithRetry] and the response parser [parseResponse].

    Conventions of the embedding.
    - A JavaScript [number] is a rational ([Q]): arithmetic is exact, and
      NaN is the [None] of an [option Q].  Rounding of IEEE doubles and the
      infinities are not represented.
    - A JavaScript string is a [string] of code units below 256.
    - The host (timers, abort signals, the clock) is an explicit [World];
      the awaited collaborators (hooks, transport) are scripted by an
      [Env]: for each attempt, how long the call takes and how it settles. *)

From Stdlib Require Import ZArith QArith Qpower Qminmax Qround Lqa Lia.
From Stdlib Require Import List Sorted String Ascii Bool DecimalString.
Import ListNotations.

Local Open Scope Z_scope.

(** ** Strings *)

Module Js.

(** [String.prototype.toUpperCase] on code units: a-z go to A-Z. *)
Definition upper_ascii (c : ascii) : ascii :=
  let n := nat_of_ascii c in
  if (97 <=? n)%nat && (n <=? 122)%nat then ascii_of_nat (n - 32) else c.

Fixpoint toUpperCase (s : string) : string :=
  match s with
  | EmptyString => EmptyString
  | String c r => String (upper_ascii c) (toUpperCase r)
  end.

(** White space of [String.prototype.trim] among the code units below 256:
    TAB, LF, VT, FF, CR, SP and NBSP. *)
Definition is_space (c : ascii) : bool :=
  let n := nat_of_ascii c in
  ((9 <=? n)%nat && (n <=? 13)%nat) || (n =? 32)%nat || (n =? 160)%nat.

Fixpoint trimStart (s : string) : string :=
  match s with
  | EmptyString => EmptyString
  | String c r => if is_space c then trimStart r else s
  end.

(** [trimEnd] drops the trailing white space: a character is kept when it
    is not white space or when something is kept after it. *)
Fixpoint trimEnd (s : string) : string :=
  match s with
  | EmptyString => EmptyString
  | String c r =>
      match trimEnd r with
      | EmptyString => if is_space c then EmptyString else String c EmptyString
      | r' => String c r'
      end
  end.

Definition trim (s : string) : string := trimEnd (trimStart s).

(** [Array.prototype.includes] on strings and on integers. *)
Definition includes_str (l : list string) (x : string) : bool :=
  existsb (String.eqb x) l.

Definition includes_Z (l : list Z) (x : Z) : bool :=
  existsb (Z.eqb x) l.

(** Equality of two strings up to the case of a-z. *)
Definition eq_ignore_case (a b : string) : Prop :=
  toUpperCase a = toUpperCase b.

End Js.

(** ** Errors, responses and JSON values *)

(** A thrown value: only its [name] (and a message) matter to the client. *)
Record JsError := mkError { err_name : string; err_message : string }.

(** [new DOMException('Aborted', 'AbortError')] *)
Definition AbortedException : JsError := mkError "AbortError" "Aborted".

(** The reason an [AbortController] gets from [abort()] without argument. *)
Definition DefaultAbortReason : JsError :=
  mkError "AbortError" "This operation was aborted".

Inductive Completion (A : Type) : Type :=
| Normal (a : A)
| Throw (e : JsError).
Arguments Normal {A} a.
Arguments Throw {A} e.

#[local] Unset Elimination Schemes.
Inductive Json : Type :=
| JNull
| JBool (b : bool)
| JNum (q : Q)
| JStr (s : string)
| JArr (l : list Json)
| JObj (l : list (string * Json)).
#[local] Set Elimination Schemes.

(** What the client reads of a [Response]: the status, the value of
    [headers.get('retry-after')] and the body text. *)
Record Response := mkResponse {
  status : Z;
  retry_after : option string;
  body : string
}.

(** [Response.ok]: the status is in the range 200-299. *)
Definition ok (r : Response) : bool :=
  (200 <=? status r) && (status r <=? 299).

(** The built-ins the client calls and that are not part of it. *)
Record Platform := {
  (** [Number(s)]; [None] is NaN *)
  js_Number : string -> option Q;
  (** [new Date(s).getTime()]; [None] is NaN *)
  js_Date_getTime : string -> option Q;
  (** [JSON.parse(s)] *)
  js_JSON_parse : string -> Completion Json;
  (** the successive values of [Math.random()] *)
  js_random : nat -> Q
}.

(** ** Retry policy *)

Record RetryOptions := mkRetry {
  retries : Z;
  statusCodes : list Z;
  methods : list string;
  factor : Q;
  minDelay : Q;
  maxDelay : Q;
  jitter : Q;
  respectRetryAfterHeader : bool
}.

Definition DEFAULT_RETRY : RetryOptions := {|
  retries := 2;
  statusCodes := [408; 425; 429; 500; 502; 503; 504];
  methods := ["GET"%string; "HEAD"%string];
  factor := 2;
  minDelay := 300;
  maxDelay := 2000;
  jitter := 25 # 100;
  respectRetryAfterHeader := true
|}.

(** [Partial<RetryOptions>]: every field may be missing. *)
Record PartialRetry := mkPartial {
  p_retries : option Z;
  p_statusCodes : option (list Z);
  p_methods : option (list string);
  p_factor : option Q;
  p_minDelay : option Q;
  p_maxDelay : option Q;
  p_jitter : option Q;
  p_respectRetryAfterHeader : option bool
}.

Definition no_override : PartialRetry :=
  mkPartial None None None None None None None None.

(** [boolean | number | Partial<RetryOptions>] *)
Inductive RetrySetting :=
| RetryBool (b : bool)
| RetryNumber (n : Z)
| RetryPartial (p : PartialRetry).

Definition or_else {A} (o : option A) (d : A) : A :=
  match o with Some a => a | None => d end.

(** [{ ...base, ...source }] *)
Definition spread (base : RetryOptions) (source : PartialRetry) : RetryOptions := {|
  retries := or_else (p_retries source) (retries base);
  statusCodes := or_else (p_statusCodes source) (statusCodes base);
  methods := or_else (p_methods source) (methods base);
  factor := or_else (p_factor source) (factor base);
  minDelay := or_else (p_minDelay source) (minDelay base);
  maxDelay := or_else (p_maxDelay source) (maxDelay base);
  jitter := or_else (p_jitter source) (jitter base);
  respectRetryAfterHeader :=
    or_else (p_respectRetryAfterHeader source) (respectRetryAfterHeader base)
|}.

Definition with_retries (base : RetryOptions) (n : Z) : RetryOptions :=
  mkRetry n (statusCodes base) (methods base) (factor base) (minDelay base)
          (maxDelay base) (jitter base) (respectRetryAfterHeader base).

(** [m ? m.toUpperCase() : 'GET'] *)
Definition normalizeMethod (m : option string) : string :=
  match m with
  | None => "GET"
  | Some EmptyString => "GET"
  | Some s => Js.toUpperCase s
  end.

(** Truthiness of the retry setting: [false] and [0] are falsy. *)
Definition truthy (s : RetrySetting) : bool :=
  match s with
  | RetryBool b => b
  | RetryNumber n => negb (n =? 0)
  | RetryPartial _ => true
  end.

(** The [base] of [resolveRetry] once the setting is merged in. *)
Definition mergedPolicy (source : RetrySetting) : RetryOptions :=
  match source with
  | RetryNumber n => with_retries DEFAULT_RETRY n
  | RetryBool _ => DEFAULT_RETRY
  | RetryPartial p => spread DEFAULT_RETRY p
  end.

Definition resolveRetry (defaultRetry : option RetrySetting)
    (method : option string) (reqRetry : option RetrySetting)
  : option RetryOptions :=
  let source := match reqRetry with None => defaultRetry | Some _ => reqRetry end in
  match source with
  | None => None
  | Some src =>
      if negb (truthy src) then None
      else
        let base := mergedPolicy src in
        let finalMethod := normalizeMethod method in
        if negb (Nat.eqb (List.length (methods base)) 0)
           && negb (Js.includes_str (methods base) finalMethod)
        then None
        else Some base
  end.

(** ** Retry-After and backoff *)

Local Open Scope Q_scope.

(** [parseRetryAfter]; [now] is the value of [Date.now()]. *)
Definition parseRetryAfter (P : Platform) (now : Q) (response : Response)
  : option Q :=
  match retry_after response with
  | None => None
  | Some EmptyString => None
  | Some ra =>
      match js_Number P ra with
      | Some secs => Some (Qmax 0 (secs * 1000))
      | None =>
          match js_Date_getTime P ra with
          | Some date => Some (Qmax 0 (date - now))
          | None => None
          end
      end
  end.

(** The delay before jitter. *)
Definition rawDelay (attempt : Z) (retry : RetryOptions) : Q :=
  Qmin (maxDelay retry)
       (minDelay retry * Qpower (factor retry) (Z.max 0 (attempt - 1))).

(** [backoffDelay]; [rnd] is the value [Math.random()] returns when it is
    called, which happens only when [jitter] is not zero. *)
Definition backoffDelay (rnd : Q) (attempt : Z) (retry : RetryOptions) : Q :=
  let raw := rawDelay attempt retry in
  if Qeq_bool (jitter retry) 0 then raw
  else
    let jit := raw * jitter retry in
    let min := raw - jit in
    let max := raw + jit in
    inject_Z (Qfloor (min + rnd * (max - min))).

(** [(err as any)?.name === 'AbortError' || ...]: the second disjunct
    implies the first. *)
Definition isAbortError (err : JsError) : bool :=
  String.eqb (err_name err) "AbortError".

(** ** Response parsing *)

Inductive ResponseParser :=
| ParseJson
| ParseText
| ParseBlob
| ParseArrayBuffer
| ParseWith (f : Response -> Completion Json).

Inductive Payload :=
| Undefined
| Parsed (v : Json)
| Text (s : string)
| Blob (s : string)
| ArrayBuffer (s : string).

Definition parseResponse (P : Platform) (response : Response)
    (parser : option ResponseParser) : Completion Payload :=
  let noContent := (status response =? 204)%Z || (status response =? 205)%Z in
  let as_json :=
    if noContent then Normal Undefined
    else
      let raw := body response in
      if (Nat.eqb (String.length raw) 0)
         || (Nat.eqb (String.length (Js.trim raw)) 0)
      then Normal Undefined
      else match js_JSON_parse P raw with
           | Normal v => Normal (Parsed v)
           | Throw e => Throw e
           end in
  match parser with
  | None => as_json
  | Some ParseJson => as_json
  | Some ParseText => Normal (Text (body response))
  | Some ParseBlob => Normal (Blob (body response))
  | Some ParseArrayBuffer => Normal (ArrayBuffer (body response))
  | Some (ParseWith f) =>
      match f response with
      | Normal v => Normal (Parsed v)
      | Throw e => Throw e
      end
  end.

(** The parser each public operation passes to [fetcher] or [safe]. *)
Inductive Operation :=
| OpJson | OpText | OpBlob | OpArrayBuffer
| OpSafeJson | OpSafeText | OpSafeBlob | OpSafeArrayBuffer
| OpGet | OpPost | OpPut | OpPatch | OpDel.

Definition parser_of (op : Operation) : ResponseParser :=
  match op with
  | OpJson | OpSafeJson | OpGet | OpPost | OpPut | OpPatch | OpDel => ParseJson
  | OpText | OpSafeText => ParseText
  | OpBlob | OpSafeBlob => ParseBlob
  | OpArrayBuffer | OpSafeArrayBuffer => ParseArrayBuffer
  end.

(** [(parser ?? options?.parseAs)] in [fetcher] and [safe] *)
Definition chosen_parser (parser parseAs : option ResponseParser)
  : option ResponseParser :=
  match parser with Some p => Some p | None => parseAs end.

(** ** The host: clock, timers and abort signals *)

Inductive TimerCallback :=
| AbortController_abort   (** [() => controller.abort()] of [composeSignal] *)
| ResolveSleep.           (** [resolve] of the promise of [sleep] *)

Record Timer := mkTimer {
  timer_id : positive;
  due : Q;
  callback : TimerCallback
}.

Inductive Listener :=
| ComposeOnAbort                 (** [onAbort] of [composeSignal] *)
| SleepOnAbort (t : positive).   (** [onAbort] of [sleep], closed over its timer *)

(** An [AbortSignal]: when and why it was aborted, if it was, and its
    ['abort'] listeners in the order they were added. *)
Record Signal := mkSignal {
  aborted : option (Q * JsError);
  listeners : list Listener
}.

Definition fresh_signal : Signal := mkSignal None [].

(** The calls [requestWithRetry] makes, in the order it makes them. *)
Inductive Event :=
| SetTimeout (id : positive) (cb : TimerCallback) (at_ : Q)
| Attempt (attempt : Z)
| Before (attempt : Z)
| Fetch (attempt : Z) (signal : bool)
| After (attempt : Z)
| Sleep (attempt : Z) (start : Q) (ms : Q) (signal : bool)
| Cleanup.

Record World := mkWorld {
  now : Q;                               (** the clock, in ms *)
  next_timer : positive;
  timers : list Timer;                   (** pending timers, oldest first *)
  caller : Signal;                       (** the signal of the caller, [init.signal] *)
  caller_will_abort : option (Q * JsError); (** the caller's coming [abort(reason)] *)
  composed : Signal;                     (** [controller.signal] of [composeSignal] *)
  rejected : list positive;              (** sleeps rejected, by timer *)
  random_calls : nat;                    (** calls of [Math.random()] so far *)
  log : list Event                       (** newest first *)
}.

Definition set_now (t : Q) (w : World) : World :=
  mkWorld t (next_timer w) (timers w) (caller w) (caller_will_abort w)
          (composed w) (rejected w) (random_calls w) (log w).

Definition set_timers (next : positive) (l : list Timer) (w : World) : World :=
  mkWorld (now w) next l (caller w) (caller_will_abort w)
          (composed w) (rejected w) (random_calls w) (log w).

Definition set_caller (s : Signal) (plan : option (Q * JsError)) (w : World) : World :=
  mkWorld (now w) (next_timer w) (timers w) s plan
          (composed w) (rejected w) (random_calls w) (log w).

Definition set_composed (s : Signal) (w : World) : World :=
  mkWorld (now w) (next_timer w) (timers w) (caller w) (caller_will_abort w)
          s (rejected w) (random_calls w) (log w).

Definition set_rejected (l : list positive) (w : World) : World :=
  mkWorld (now w) (next_timer w) (timers w) (caller w) (caller_will_abort w)
          (composed w) l (random_calls w) (log w).

Definition set_random_calls (n : nat) (w : World) : World :=
  mkWorld (now w) (next_timer w) (timers w) (caller w) (caller_will_abort w)
          (composed w) (rejected w) n (log w).

Definition record (e : Event) (w : World) : World :=
  mkWorld (now w) (next_timer w) (timers w) (caller w) (caller_will_abort w)
          (composed w) (rejected w) (random_calls w) (e :: log w).

Definition is_aborted (s : Signal) : bool :=
  match aborted s with Some _ => true | None => false end.

(** [setTimeout(cb, ms)]: the timer runs [ms] later (at once when [ms] is
    negative). *)
Definition setTimeout (cb : TimerCallback) (ms : Q) (w : World) : positive * World :=
  let id := next_timer w in
  let at_ := now w + Qmax 0 ms in
  (id, record (SetTimeout id cb at_)
         (set_timers (Pos.succ id) (timers w ++ [mkTimer id at_ cb]) w)).

(** [clearTimeout(id)] *)
Definition clearTimeout (id : positive) (w : World) : World :=
  set_timers (next_timer w)
             (filter (fun t => negb (Pos.eqb (timer_id t) id)) (timers w)) w.

Definition listener_eqb (a b : Listener) : bool :=
  match a, b with
  | ComposeOnAbort, ComposeOnAbort => true
  | SleepOnAbort t, SleepOnAbort u => Pos.eqb t u
  | _, _ => false
  end.

(** [addEventListener('abort', l)]: a listener already there is not added
    again. *)
Definition add_listener (l : Listener) (s : Signal) : Signal :=
  if existsb (listener_eqb l) (listeners s) then s
  else mkSignal (aborted s) (listeners s ++ [l]).

(** [removeEventListener('abort', l)] *)
Definition remove_listener (l : Listener) (s : Signal) : Signal :=
  mkSignal (aborted s) (filter (fun x => negb (listener_eqb l x)) (listeners s)).

(** A listener run on the abort of the composed signal.  [onAbort] of
    [sleep] clears its timer and rejects its promise; it was added with
    [once: true], so it is gone afterwards (see [abort_composed]). *)
Definition run_on_composed (l : Listener) (w : World) : World :=
  match l with
  | SleepOnAbort t => set_rejected (t :: rejected w) (clearTimeout t w)
  | ComposeOnAbort => w   (* [controller.abort] on the aborted controller *)
  end.

(** [controller.abort(reason)]: nothing when already aborted; otherwise the
    signal takes the reason and its listeners run in order. *)
Definition abort_composed (reason : JsError) (w : World) : World :=
  match aborted (composed w) with
  | Some _ => w
  | None =>
      let ls := listeners (composed w) in
      let kept := filter (listener_eqb ComposeOnAbort) ls in
      let w1 := set_composed (mkSignal (Some (now w, reason)) kept) w in
      fold_left (fun w l => run_on_composed l w) ls w1
  end.

(** A listener run on the abort of the caller's signal with [reason]:
    [onAbort] of [composeSignal] is [controller.abort(baseSignal?.reason)]. *)
Definition run_on_caller (reason : JsError) (l : Listener) (w : World) : World :=
  match l with
  | ComposeOnAbort => abort_composed reason w
  | SleepOnAbort t => set_rejected (t :: rejected w) (clearTimeout t w)
  end.

(** The caller aborts its signal. *)
Definition abort_caller (reason : JsError) (w : World) : World :=
  match aborted (caller w) with
  | Some _ => set_caller (caller w) None w
  | None =>
      let ls := listeners (caller w) in
      let w1 := set_caller (mkSignal (Some (now w, reason)) ls) None w in
      fold_left (fun w l => run_on_caller reason l w) ls w1
  end.

(** *** The event loop *)

Inductive Pending :=
| DueTimer (t : Timer)
| DueCallerAbort (at_ : Q) (reason : JsError).

Definition pending_at (p : Pending) : Q :=
  match p with DueTimer t => due t | DueCallerAbort a _ => a end.

(** Insertion by time; among equal times the one inserted first runs first. *)
Fixpoint schedule (p : Pending) (l : list Pending) : list Pending :=
  match l with
  | [] => [p]
  | q :: l' =>
      if Qle_bool (pending_at q) (pending_at p) then q :: schedule p l'
      else p :: l
  end.

Definition agenda (w : World) : list Pending :=
  let ts := fold_left (fun acc t => schedule (DueTimer t) acc) (timers w) [] in
  match caller_will_abort w with
  | Some (a, r) => schedule (DueCallerAbort a r) ts
  | None => ts
  end.

Definition timer_pending (id : positive) (w : World) : bool :=
  existsb (fun t => Pos.eqb (timer_id t) id) (timers w).

(** One task of the event loop: the clock moves to the task's time and the
    task runs, unless it was cancelled in the meantime. *)
Definition fire (p : Pending) (w : World) : World :=
  match p with
  | DueTimer t =>
      if timer_pending (timer_id t) w then
        let w1 := clearTimeout (timer_id t) (set_now (Qmax (now w) (due t)) w) in
        match callback t with
        | AbortController_abort => abort_composed DefaultAbortReason w1
        | ResolveSleep => w1
        end
      else w
  | DueCallerAbort a r =>
      match caller_will_abort w with
      | Some _ => abort_caller r (set_now (Qmax (now w) a) w)
      | None => w
      end
  end.

Definition is_timer (id : positive) (p : Pending) : bool :=
  match p with
  | DueTimer t => Pos.eqb (timer_id t) id
  | DueCallerAbort _ _ => false
  end.

(** The tasks that run before timer [id]. *)
Fixpoint tasks_before (id : positive) (l : list Pending) : list Pending :=
  match l with
  | [] => []
  | p :: l' => if is_timer id p then [] else p :: tasks_before id l'
  end.

(** Awaiting something that settles [d] ms from now: the tasks due until
    then run, in order. *)
Definition elapse (d : Q) (w : World) : World :=
  let until := now w + Qmax 0 d in
  let tasks := filter (fun p => Qle_bool (pending_at p) until) (agenda w) in
  set_now until (fold_left (fun w p => fire p w) tasks w).

(** Awaiting the promise of [sleep] whose timer is [id]: the tasks before
    the timer run; the promise is rejected as soon as [onAbort] has run, and
    resolved by the timer otherwise. *)
Fixpoint wait_sleep (id : positive) (due_ : Q) (before : list Pending) (w : World)
  : bool * World :=
  match before with
  | [] => (true, clearTimeout id (set_now (Qmax (now w) due_) w))
  | p :: rest =>
      let w' := fire p w in
      if existsb (Pos.eqb id) (rejected w') then (false, w')
      else wait_sleep id due_ rest w'
  end.

(** ** The client *)

(** A computation of the client: it runs in a world and either completes
    normally or throws. *)
Definition M (A : Type) : Type := World -> Completion A * World.

Definition ret {A} (a : A) : M A := fun w => (Normal a, w).

Definition throw {A} (e : JsError) : M A := fun w => (Throw e, w).

Definition bind {A B} (m : M A) (k : A -> M B) : M B :=
  fun w =>
    match m w with
    | (Normal a, w') => k a w'
    | (Throw e, w') => (Throw e, w')
    end.

(** [try { m } catch (err) { handler err }] *)
Definition tryCatch {A} (m : M A) (handler : JsError -> M A) : M A :=
  fun w =>
    match m w with
    | (Normal a, w') => (Normal a, w')
    | (Throw e, w') => handler e w'
    end.

Definition effect (f : World -> World) : M unit := fun w => (Normal tt, f w).

Notation "x <- m ;; k" := (bind m (fun x => k))
  (at level 61, m at next level, right associativity).
Notation "m ;;; k" := (bind m (fun _ => k))
  (at level 61, right associativity).

(** How an awaited call of a collaborator goes: the time it takes and how
    it settles. *)
Record Settles (A : Type) := mkSettles {
  took : Q;
  outcome : Completion A
}.
Arguments mkSettles {A} took outcome.
Arguments took {A} s.
Arguments outcome {A} s.

Definition await {A} (s : Settles A) : M A :=
  fun w => (outcome s, elapse (took s) w).

(** The configuration [createFetchClient] closes over, with the behaviour
    of each collaborator at each attempt of the request. *)
Record Env := mkEnv {
  platform : Platform;
  fetchImplementation : option (Z -> Settles Response);
  globalFetch : option (Z -> Settles Response);
  beforeRequest : option (Z -> Settles unit);
  afterResponse : option (Z -> Settles unit);
  defaultTimeout : option Q;
  defaultRetry : option RetrySetting
}.

(** [sleep(ms, signal)]; [signal] tells whether a signal is passed, which
    is then the composed one. *)
Definition sleep (ms : Q) (signal : bool) : M unit :=
  fun w =>
    if signal && is_aborted (composed w) then (Throw AbortedException, w)
    else
      let (t, w1) := setTimeout ResolveSleep ms w in
      let w2 := if signal
                then set_composed (add_listener (SleepOnAbort t) (composed w1)) w1
                else w1 in
      let before := tasks_before t (agenda w2) in
      match wait_sleep t (now w + Qmax 0 ms) before w2 with
      | (true, w3) => (Normal tt, w3)
      | (false, w3) => (Throw AbortedException, w3)
      end.

(** The [cleanup] closure of [composeSignal]: what it closed over. *)
Record CleanupFn := mkCleanup {
  cl_baseSignal : bool;
  cl_timeoutId : option positive
}.

Record ComposedSignal := mkComposed {
  signal : bool;          (** [false] is [undefined] *)
  cleanup : CleanupFn
}.

(** The body of [cleanup]. *)
Definition release (c : CleanupFn) (w : World) : World :=
  let w1 := if cl_baseSignal c
            then set_caller (remove_listener ComposeOnAbort (caller w))
                            (caller_will_abort w) w
            else w in
  match cl_timeoutId c with
  | Some id => clearTimeout id w1
  | None => w1
  end.

Definition call_cleanup (c : CleanupFn) : M unit :=
  effect (fun w => release c (record Cleanup w)).

(** [!timeoutMs] *)
Definition no_timeout (timeoutMs : option Q) : bool :=
  match timeoutMs with
  | None => true
  | Some t => Qeq_bool t 0
  end.

Definition composeSignal (baseSignal : bool) (timeoutMs : option Q)
  : World -> ComposedSignal * World :=
  fun w =>
    if negb baseSignal && no_timeout timeoutMs
    then (mkComposed false (mkCleanup false None), w)
    else
      let w0 := set_composed fresh_signal w in
      let w1 := if baseSignal
                then set_caller (add_listener ComposeOnAbort (caller w0))
                                (caller_will_abort w0) w0
                else w0 in
      match timeoutMs with
      | Some t =>
          if negb (Qeq_bool t 0) && negb (Qle_bool t 0) then
            let (id, w2) := setTimeout AbortController_abort t w1 in
            (mkComposed true (mkCleanup baseSignal (Some id)), w2)
          else (mkComposed true (mkCleanup baseSignal None), w1)
      | None => (mkComposed true (mkCleanup baseSignal None), w1)
      end.

(** [backoffDelay(attempt, retryPolicy)] with the call of [Math.random()]
    a policy with jitter makes. *)
Definition backoff (P : Platform) (attempt : Z) (retry : RetryOptions) : M Q :=
  fun w =>
    let d := backoffDelay (js_random P (random_calls w)) attempt retry in
    if Qeq_bool (jitter retry) 0 then (Normal d, w)
    else (Normal d, set_random_calls (S (random_calls w)) w).

Definition totalAttempts (retryPolicy : option RetryOptions) : Z :=
  (match retryPolicy with Some p => retries p | None => 0 end + 1)%Z.

(** [await hook?.(...)] *)
Definition call_hook (hook : option (Z -> Settles unit)) (e : Event) (attempt : Z)
  : M unit :=
  match hook with
  | None => ret tt
  | Some h => effect (record e) ;;; await (h attempt)
  end.

(** How one turn of the loop ends: [return res], or on to the next turn
    with the [lastError] so far. *)
Inductive Flow :=
| Return (res : Response)
| Continue (lastError : option JsError).

Section Request.

Variable env : Env.
Variable fetchFn : Z -> Settles Response.
Variable sig : ComposedSignal.
Variable retryPolicy : option RetryOptions.

Definition wait_before_retry (attempt : Z) (delay : Q) : M unit :=
  fun w => (effect (record (Sleep attempt (now w) delay (signal sig))) ;;;
            sleep delay (signal sig)) w.

(** [retryAfter ?? backoffDelay(attempt, retryPolicy)] with [retryAfter]
    the parsed header when the policy respects it. *)
Definition retry_delay (policy : RetryOptions) (attempt : Z) (res : Response)
  : M Q :=
  fun w =>
    match (if respectRetryAfterHeader policy
           then parseRetryAfter (platform env) (now w) res
           else None) with
    | Some retryAfter => (Normal retryAfter, w)
    | None => backoff (platform env) attempt policy w
    end.

(** The [try] block of one attempt. *)
Definition try_attempt (attempt : Z) (lastError : option JsError) : M Flow :=
  call_hook (beforeRequest env) (Before attempt) attempt ;;;
  effect (record (Fetch attempt (signal sig))) ;;;
  res <- await (fetchFn attempt) ;;
  call_hook (afterResponse env) (After attempt) attempt ;;;
  match retryPolicy with
  | None => call_cleanup (cleanup sig) ;;; ret (Return res)
  | Some policy =>
      if negb (ok res)
         && (Js.includes_Z (statusCodes policy) (status res)
             && (attempt <? totalAttempts retryPolicy)%Z)
      then
        delay <- retry_delay policy attempt res ;;
        wait_before_retry attempt delay ;;;
        ret (Continue lastError)
      else call_cleanup (cleanup sig) ;;; ret (Return res)
  end.

(** The [catch] block. *)
Definition catch_attempt (attempt : Z) (err : JsError) : M Flow :=
  if isAbortError err then call_cleanup (cleanup sig) ;;; throw err
  else
    match retryPolicy with
    | None => call_cleanup (cleanup sig) ;;; throw err
    | Some policy =>
        if (totalAttempts retryPolicy <=? attempt)%Z
        then call_cleanup (cleanup sig) ;;; throw err
        else
          delay <- backoff (platform env) attempt policy ;;
          wait_before_retry attempt delay ;;;
          ret (Continue (Some err))
    end.

Definition attempt_body (attempt : Z) (lastError : option JsError) : M Flow :=
  effect (record (Attempt attempt)) ;;;
  tryCatch (try_attempt attempt lastError) (catch_attempt attempt).

(** The [for] loop with [n] turns left, then the code after it. *)
Fixpoint attempts (n : nat) (attempt : Z) (lastError : option JsError)
  : M Response :=
  match n with
  | O =>
      call_cleanup (cleanup sig) ;;;
      throw (or_else lastError (mkError "Error" "Request failed"))
  | S n' =>
      flow <- attempt_body attempt lastError ;;
      match flow with
      | Return res => ret res
      | Continue lastError' => attempts n' (attempt + 1)%Z lastError'
      end
  end.

End Request.

(** [fetchImplementation ?? fetch] *)
Definition fetch_of (env : Env) : option (Z -> Settles Response) :=
  match fetchImplementation env with
  | Some f => Some f
  | None => globalFetch env
  end.

(** [effectiveTimeout ?? defaultTimeout] *)
Definition timeout_of (env : Env) (effectiveTimeout : option Q) : option Q :=
  match effectiveTimeout with
  | Some t => Some t
  | None => defaultTimeout env
  end.

(** [requestWithRetry(url, init, effectiveTimeout, retryPolicy)];
    [userSignal] tells whether [init.signal] is there. *)
Definition requestWithRetry (env : Env) (userSignal : bool)
    (effectiveTimeout : option Q) (retryPolicy : option RetryOptions)
  : M Response :=
  match fetch_of env with
  | None =>
      throw (mkError "Error"
                     "No fetch implementation available in this environment.")
  | Some fetchFn =>
      fun w =>
        let (sig, w1) :=
          composeSignal userSignal (timeout_of env effectiveTimeout) w in
        attempts env fetchFn sig retryPolicy
                 (Z.to_nat (totalAttempts retryPolicy)) 1%Z None w1
  end.

(** What the caller does with the signal it passes, if it passes one. *)
Inductive CallerSignal :=
| NoSignal
| AlreadyAborted (reason : JsError)
| AbortsAt (at_ : Q) (reason : JsError)
| NeverAborts.

Definition userSignal_of (c : CallerSignal) : bool :=
  match c with NoSignal => false | _ => true end.

(** The world a request starts in, at time [t0]. *)
Definition start (t0 : Q) (c : CallerSignal) : World := {|
  now := t0;
  next_timer := 1%positive;
  timers := [];
  caller := mkSignal (match c with
                      | AlreadyAborted r => Some (t0, r)
                      | _ => None
                      end) [];
  caller_will_abort := match c with AbortsAt a r => Some (a, r) | _ => None end;
  composed := fresh_signal;
  rejected := [];
  random_calls := 0%nat;
  log := []
|}.

(** ** Vocabulary of the properties *)

(** Strings made of white space only (the empty one included). *)
Fixpoint whitespace_only (s : string) : bool :=
  match s with
  | EmptyString => true
  | String c r => Js.is_space c && whitespace_only r
  end.

(** Number of transport invocations in a log. *)
Fixpoint invocations (l : list Event) : nat :=
  match l with
  | [] => O
  | Fetch _ _ :: l' => S (invocations l')
  | _ :: l' => invocations l'
  end.

(** How [await hook?.(...)] completes at this attempt: normally when
    there is no hook. *)
Definition hook_outcome (hook : option (Z -> Settles unit)) (attempt : Z)
  : Completion unit :=
  match hook with
  | None => Normal tt
  | Some h => outcome (h attempt)
  end.

(** The signal [composeSignal] returns: none only without caller signal
    and without timeout. *)
Definition composed_present (userSignal : bool) (timeoutMs : option Q) : bool :=
  negb (negb userSignal && no_timeout timeoutMs).

(** ** Vocabulary of the proofs *)

(** Time only moves forward, and an abort of the composed signal is
    stamped with the time it happened. *)
Definition stamp_ok (w w' : World) : Prop :=
  now w <= now w' /\
  forall F r, aborted (composed w') = Some (F, r) ->
              aborted (composed w) = Some (F, r) \/ now w <= F.

(** The rejected sleeps stay rejected. *)
Definition rejected_grows (w w' : World) : Prop :=
  forall i, In i (rejected w) -> In i (rejected w').

(** A task either leaves the composed signal as it is or rejects the
    sleep that listens to it. *)
Definition untouched_or_rejected (id : positive) (w w' : World) : Prop :=
  composed w' = composed w \/ In id (rejected w').

(** [await hook?.(...)]: the world after it. *)
Definition hook_world (hook : option (Z -> Settles unit)) (e : Event)
    (attempt : Z) (w : World) : World :=
  match hook with
  | None => w
  | Some h => elapse (took (h attempt)) (record e w)
  end.

(** The world after [cleanup()]. *)
Definition cleaned (c : CleanupFn) (w : World) : World :=
  release c (record Cleanup w).

(** What the awaited [sleep] makes of a turn of the loop. *)
Definition after_sleep (rs : Completion unit) (lastError : option JsError)
  : Completion Flow :=
  match rs with
  | Normal _ => Normal (Continue lastError)
  | Throw e => Throw e
  end.

Section Paths.

Variable env : Env.
Variable fetchFn : Z -> Settles Response.
Variable sig : ComposedSignal.
Variable retryPolicy : option RetryOptions.

(** [shouldRetry && attempt < totalAttempts] for a response that is not ok,
    under a policy. *)
Definition should_retry (attempt : Z) (res : Response) : bool :=
  match retryPolicy with
  | None => false
  | Some policy =>
      negb (ok res)
      && (Js.includes_Z (statusCodes policy) (status res)
          && (attempt <? totalAttempts retryPolicy)%Z)
  end.

(** The world when the transport is invoked, and when it has settled. *)
Definition world_at_fetch (attempt : Z) (w : World) : World :=
  record (Fetch attempt (signal sig))
         (hook_world (beforeRequest env) (Before attempt) attempt w).

Definition world_after_fetch (attempt : Z) (w : World) : World :=
  elapse (took (fetchFn attempt)) (world_at_fetch attempt w).

Definition world_after_hooks (attempt : Z) (w : World) : World :=
  hook_world (afterResponse env) (After attempt) attempt
             (world_after_fetch attempt w).

(** The paths through the [try] block. *)
Inductive tried (attempt : Z) (lastError : option JsError) (w : World)
  : Completion Flow -> World -> Prop :=
| tried_before_throws e :
    hook_outcome (beforeRequest env) attempt = Throw e ->
    tried attempt lastError w (Throw e)
          (hook_world (beforeRequest env) (Before attempt) attempt w)
| tried_fetch_throws e :
    hook_outcome (beforeRequest env) attempt = Normal tt ->
    outcome (fetchFn attempt) = Throw e ->
    tried attempt lastError w (Throw e) (world_after_fetch attempt w)
| tried_after_throws res e :
    hook_outcome (beforeRequest env) attempt = Normal tt ->
    outcome (fetchFn attempt) = Normal res ->
    hook_outcome (afterResponse env) attempt = Throw e ->
    tried attempt lastError w (Throw e) (world_after_hooks attempt w)
| tried_return res :
    hook_outcome (beforeRequest env) attempt = Normal tt ->
    outcome (fetchFn attempt) = Normal res ->
    hook_outcome (afterResponse env) attempt = Normal tt ->
    should_retry attempt res = false ->
    tried attempt lastError w (Normal (Return res))
          (cleaned (cleanup sig) (world_after_hooks attempt w))
| tried_wait res policy delay w1 rs w' :
    hook_outcome (beforeRequest env) attempt = Normal tt ->
    outcome (fetchFn attempt) = Normal res ->
    hook_outcome (afterResponse env) attempt = Normal tt ->
    retryPolicy = Some policy ->
    should_retry attempt res = true ->
    retry_delay env policy attempt res (world_after_hooks attempt w)
      = (Normal delay, w1) ->
    sleep delay (signal sig)
          (record (Sleep attempt (now w1) delay (signal sig)) w1) = (rs, w') ->
    tried attempt lastError w (after_sleep rs lastError) w'.

(** The paths through the [catch] block. *)
Inductive caught (attempt : Z) (err : JsError) (w : World)
  : Completion Flow -> World -> Prop :=
| caught_final :
    isAbortError err = true \/ retryPolicy = None
    \/ (totalAttempts retryPolicy <= attempt)%Z ->
    caught attempt err w (Throw err) (cleaned (cleanup sig) w)
| caught_wait policy delay w1 rs w' :
    isAbortError err = false ->
    retryPolicy = Some policy ->
    (attempt < totalAttempts retryPolicy)%Z ->
    backoff (platform env) attempt policy w = (Normal delay, w1) ->
    sleep delay (signal sig)
          (record (Sleep attempt (now w1) delay (signal sig)) w1) = (rs, w') ->
    caught attempt err w (after_sleep rs (Some err)) w'.

(** The paths through one turn of the loop. *)
Inductive turned (attempt : Z) (lastError : option JsError) (w : World)
  : Completion Flow -> World -> Prop :=
| turned_try flow w' :
    tried attempt lastError (record (Attempt attempt) w) (Normal flow) w' ->
    turned attempt lastError w (Normal flow) w'
| turned_catch e w1 r w' :
    tried attempt lastError (record (Attempt attempt) w) (Throw e) w1 ->
    caught attempt e w1 r w' ->
    turned attempt lastError w r w'.

End Paths.

(** What a hook call adds to the log. *)
Definition hook_events (hook : option (Z -> Settles unit)) (e : Event)
  : list Event :=
  match hook with
  | None => []
  | Some _ => [e]
  end.

(** The attempt an event belongs to. *)
Definition attempt_of (e : Event) : option Z :=
  match e with
  | Attempt k | Before k | Fetch k _ | After k | Sleep k _ _ _ => Some k
  | SetTimeout _ _ _ | Cleanup => None
  end.

(** No attempt from [k] on has started in this log. *)
Definition attempts_below (k : Z) (l : list Event) : Prop :=
  forall e j, In e l -> attempt_of e = Some j -> (j < k)%Z.

(** The events of turn [k] of the loop, with signal [sg]. *)
Definition turn_event (k : Z) (sg : bool) (e : Event) : Prop :=
  match e with
  | Attempt j | Before j | After j => j = k
  | Fetch j s => j = k /\ s = sg
  | Sleep j _ _ s => j = k /\ s = sg
  | SetTimeout _ cb _ => cb = ResolveSleep
  | Cleanup => True
  end.

(** A property of the world that the loop keeps as long as it does not
    call [cleanup]. *)
Record stable (I : World -> Prop) : Prop := {
  stable_elapse : forall d w, I w -> I (elapse d w);
  stable_record : forall e w, I w -> I (record e w);
  stable_random : forall n w, I w -> I (set_random_calls n w);
  stable_sleep : forall ms sg w r w', I w -> sleep ms sg w = (r, w') -> I w'
}.

(** One logical request of a caller whose signal behaves as [c], started
    at time [t0]. *)
Definition logical_request (env : Env) (c : CallerSignal)
    (effectiveTimeout : option Q) (retryPolicy : option RetryOptions) (t0 : Q)
  : Completion Response * World :=
  requestWithRetry env (userSignal_of c) effectiveTimeout retryPolicy
                   (start t0 c).

Definition is_sleep (e : Event) : Prop :=
  match e with Sleep _ _ _ _ => True | _ => False end.

(** The events of a log belong to the attempts from [k0] up to [k],
    excluded. *)
Definition attempts_within (k0 k : Z) (l : list Event) : Prop :=
  forall e j, In e l -> attempt_of e = Some j -> (k0 <= j < k)%Z.

(** The [try] block of attempt [k] throws [e] before any wait: the
    pre-attempt hook throws, or the transport does, or the post-response
    hook does. *)
Definition before_fails (env : Env) (k : Z) (e : JsError) : Prop :=
  hook_outcome (beforeRequest env) k = Throw e.

Definition transport_fails (env : Env) (fetchFn : Z -> Settles Response)
    (k : Z) (e : JsError) : Prop :=
  hook_outcome (beforeRequest env) k = Normal tt /\
  outcome (fetchFn k) = Throw e.

Definition after_fails (env : Env) (fetchFn : Z -> Settles Response)
    (k : Z) (e : JsError) : Prop :=
  hook_outcome (beforeRequest env) k = Normal tt /\
  (exists res, outcome (fetchFn k) = Normal res) /\
  hook_outcome (afterResponse env) k = Throw e.

Definition attempt_fails (env : Env) (fetchFn : Z -> Settles Response)
    (k : Z) (e : JsError) : Prop :=
  before_fails env k e \/ transport_fails env fetchFn k e
  \/ after_fails env fetchFn k e.

(** A failure the [catch] block rethrows: an abort, or no policy, or no
    attempt left. *)
Definition final_failure (retryPolicy : option RetryOptions) (k : Z)
    (e : JsError) : Prop :=
  isAbortError e = true \/ retryPolicy = None
  \/ (totalAttempts retryPolicy <= k)%Z.

(** Attempt [k] gets a response the policy retries, with a parseable
    Retry-After header the policy respects. *)
Definition hinted_retry (env : Env) (fetchFn : Z -> Settles Response)
    (policy : RetryOptions) (k : Z) (res : Response) : Prop :=
  hook_outcome (beforeRequest env) k = Normal tt /\
  outcome (fetchFn k) = Normal res /\
  hook_outcome (afterResponse env) k = Normal tt /\
  ok res = false /\
  Js.includes_Z (statusCodes policy) (status res) = true /\
  (k < retries policy + 1)%Z /\
  respectRetryAfterHeader policy = true /\
  (exists t h, parseRetryAfter (platform env) t res = Some h).

(** The waits logged so far have ended, none after an abort of the
    composed signal. *)
Definition waits_ended (w : World) : Prop :=
  forall N at_ ms,
    In (Sleep N at_ ms true) (log w) ->
    at_ + Qmax 0 ms <= now w /\
    forall F r, aborted (composed w) = Some (F, r) -> at_ + Qmax 0 ms <= F.


(** Order of the tasks of the event loop. *)
Definition task_le (a b : Pending) : Prop := pending_at a <= pending_at b.

(** The timer of the timeout, [tid], is due at [D]: it is pending as long
    as the composed signal is not aborted, no other timer has its
    identifier, and no listener but [onAbort] of [composeSignal] is on the
    caller's signal. *)
Definition timeout_timer (tid : positive) (D : Q) : Timer :=
  mkTimer tid D AbortController_abort.

Record timeout_armed (tid : positive) (D : Q) (w : World) : Prop := {
  armed_fresh : (tid < next_timer w)%positive;
  armed_ids : forall t, In t (timers w) -> (timer_id t < next_timer w)%positive;
  armed_unique : forall t, In t (timers w) -> timer_id t = tid ->
                           t = timeout_timer tid D;
  armed_sleepers : forall i, In (SleepOnAbort i) (listeners (composed w)) ->
                             i <> tid;
  armed_caller : forall l, In l (listeners (caller w)) -> l = ComposeOnAbort;
  armed_pending : aborted (composed w) = None ->
                  In (timeout_timer tid D) (timers w)
}.

(** A task that, if it is the timer [tid], is the timer of the timeout. *)
Definition task_ok (tid : positive) (D : Q) (p : Pending) : Prop :=
  forall t, p = DueTimer t -> timer_id t = tid -> t = timeout_timer tid D.

(** A step of the host that only removes timers and listeners, and never
    undoes an abort of the composed signal. *)
Record shrinks (w w' : World) : Prop := {
  shrinks_next : next_timer w' = next_timer w;
  shrinks_timers : incl (timers w') (timers w);
  shrinks_composed : incl (listeners (composed w')) (listeners (composed w));
  shrinks_caller : listeners (caller w') = listeners (caller w);
  shrinks_aborted : forall x, aborted (composed w) = Some x ->
                              aborted (composed w') = Some x
}.

(** An event of some turn of the loop: an attempt event carrying the
    signal [sg], the timer of a sleep, or a cleanup. *)
Definition loop_event (sg : bool) (e : Event) : Prop :=
  exists j, turn_event j sg e.

(** What [composeSignal] logs for a request started at [t0]: the timer of
    the timeout, when there is one. *)
Definition timeout_events (t0 : Q) (timeoutMs : option Q) : list Event :=
  match timeoutMs with
  | Some t =>
      if negb (Qeq_bool t 0) && negb (Qle_bool t 0)
      then [SetTimeout 1%positive AbortController_abort (t0 + Qmax 0 t)]
      else []
  | None => []
  end.

(** Number of calls of [cleanup] in a log. *)
Fixpoint cleanups (l : list Event) : nat :=
  match l with
  | [] => O
  | Cleanup :: l' => S (cleanups l')
  | _ :: l' => cleanups l'
  end.

(** ** The request as the public operations issue it *)

(** [request] and [fetcher]: the policy is resolved once, from the method
    of the request, and handed to [requestWithRetry]. *)
Definition request (env : Env) (c : CallerSignal) (method : option string)
    (retry : option RetrySetting) (timeout : option Q) (t0 : Q)
  : Completion Response * World :=
  logical_request env c timeout
                  (resolveRetry (defaultRetry env) method retry) t0.

Definition outcome_of (run : Completion Response * World)
  : Completion Response := fst run.

Definition world_of (run : Completion Response * World) : World := snd run.

Definition log_of (run : Completion Response * World) : list Event :=
  log (snd run).

(** ** Scenarios *)

Module Scenario.

(** A platform whose [Number] reads two numerals, whose [Date] parses
    nothing, whose [JSON.parse] always throws and whose [Math.random()] is
    always 0. *)
Definition platform : Platform := {|
  js_Number := fun s =>
    if String.eqb s "2" then Some 2
    else if String.eqb s "0.2" then Some (2 # 10)
    else None;
  js_Date_getTime := fun _ => None;
  js_JSON_parse := fun _ => Throw (mkError "SyntaxError" "Unexpected token");
  js_random := fun _ => 0
|}.

Definition ok200 : Response := mkResponse 200 None "{}".
Definition unavailable : Response := mkResponse 503 None "service unavailable".
Definition unavailable_hint : Response := mkResponse 503 (Some "0.2"%string) "".

Definition network_error : JsError := mkError "TypeError" "fetch failed".
Definition hook_error : JsError := mkError "Error" "no token".
Definition caller_reason : JsError := mkError "AbortError" "navigated away".

Definition env_with (transport : Z -> Settles Response)
    (before : option (Z -> Settles unit)) : Env :=
  mkEnv platform (Some transport) None before None None None.

(** The transport of the test suite: 503, then 200. *)
Definition flaky : Env :=
  env_with (fun k => if (k =? 1)%Z then mkSettles 3 (Normal unavailable)
                     else mkSettles 3 (Normal ok200)) None.

(** A healthy transport behind a pre-attempt hook that throws at the first
    attempt only. *)
Definition hook_fails_once : Env :=
  env_with (fun _ => mkSettles 3 (Normal ok200))
           (Some (fun k => if (k =? 1)%Z then mkSettles 1 (Throw hook_error)
                           else mkSettles 1 (Normal tt))).

(** A transport that fails at every attempt. *)
Definition network_down : Env :=
  env_with (fun _ => mkSettles 5 (Throw network_error)) None.

(** A transport that is aborted after 5 ms. *)
Definition aborted_transport : Env :=
  env_with (fun _ => mkSettles 5 (Throw AbortedException)) None.

(** A server that answers 503 with [Retry-After: 0.2]. *)
Definition busy_server : Env :=
  env_with (fun _ => mkSettles 1 (Normal unavailable_hint)) None.

(** A server that answers 503 without a hint. *)
Definition down_server : Env :=
  env_with (fun _ => mkSettles 1 (Normal unavailable)) None.

(** The policy of the test suite. *)
Definition retry_once : RetryOptions :=
  mkRetry 1 [503%Z] ["GET"%string] 1 1 1 0 false.

Definition no_retries : RetryOptions :=
  mkRetry 0 [503%Z] ["GET"%string] 2 300 2000 0 true.

Definition three_retries : RetryOptions :=
  mkRetry 3 [503%Z] ["GET"%string] 2 200 2000 0 true.

(** A per-request setting that empties the method list. *)
Definition any_method : RetrySetting :=
  RetryPartial (mkPartial None None (Some []) None None None None None).

End Scenario.

(** ** Further vocabulary for the orchestrator *)

(** Number of backoff waits in a log. *)
Fixpoint waits (l : list Event) : nat :=
  match l with
  | [] => O
  | Sleep _ _ _ _ :: l' => S (waits l')
  | _ :: l' => waits l'
  end.

(** What the [cleanup] closure [c] is able to release: every pending
    timer is the one it closed over, and every listener on the caller's
    signal is [onAbort] of [composeSignal], there only when a caller's
    signal was passed. *)
Definition tidy (c : CleanupFn) (w : World) : Prop :=
  (forall t, In t (timers w) -> cl_timeoutId c = Some (timer_id t)) /\
  (forall l, In l (listeners (caller w)) ->
             l = ComposeOnAbort /\ cl_baseSignal c = true).

(** A property of the world kept by what a turn of the loop does when no
    wait is rejected. *)
Record kept (J : World -> Prop) : Prop := {
  kept_elapse : forall d w, J w -> J (elapse d w);
  kept_record : forall e w, J w -> J (record e w);
  kept_random : forall n w, J w -> J (set_random_calls n w);
  kept_sleep : forall ms sg w w', J w -> sleep ms sg w = (Normal tt, w') -> J w'
}.

(** A request that ends without the rejection of a wait: it returns a
    response, or fails with an error that is not an abort error. *)
Definition settled_without_abort (r : Completion Response) : Prop :=
  match r with
  | Normal _ => True
  | Throw e => isAbortError e = false
  end.

(** Further scenarios. *)
Module Case.

(** A transport that answers 200 after 3 ms at every attempt. *)
Definition healthy : Env :=
  Scenario.env_with (fun _ => mkSettles 3 (Normal Scenario.ok200)) None.

(** A per-request setting whose method list is in lower case. *)
Definition lowercase_methods : RetrySetting :=
  RetryPartial (mkPartial None None (Some ["get"%string]) None None None None
                          None).

End Case.

(** * The rest of the client

    The helpers around the orchestrator ([toSearchParams], [resolveUrl],
    [mergeHeaders], [sanitizeRequestInit], [mergeRequestInit],
    [parseErrorPayload]) and the public operations built on them
    ([fetcher], [request], [safe], the verbs and [withConfig]).

    Further conventions.
    - A JavaScript object used as a record is the list of its own
      properties in property order (see [Obj]).
    - [URL], [URLSearchParams] and [Headers] are classes of the platform:
      the list of pairs of a [URLSearchParams] and the header list of a
      [Headers] are modelled, with the operations the client calls on
      them; parsing and serialising a URL are left to the platform.
    - The body of a response is in memory and unread when the client gets
      the response: reading it takes no time and does not fail. *)

(** ** Query parameters and the URL *)

(** [SearchParamValue] *)
Inductive SearchParamValue :=
| SearchString (s : string)
| SearchNumber (n : Q)
| SearchBoolean (b : bool)
| SearchNull
| SearchUndefined.

(** [SearchParamValue | SearchParamValue[]] *)
Inductive SearchParamEntry :=
| Single (v : SearchParamValue)
| Several (l : list SearchParamValue).

(** [SearchParams]: what [Object.entries(params)] gives. *)
Definition SearchParams := list (string * SearchParamEntry).

(** [URLSearchParams]: a list of name-value pairs. *)
Definition URLSearchParams := list (string * string).

(** A [URL]: its search parameters, and the rest of it. *)
Record URL := mkURL {
  url_location : string;
  searchParams : URLSearchParams
}.

(** The built-ins of the platform these helpers call. *)
Record WebPlatform := {
  (** [String(n)] for a number [n] *)
  js_String : Q -> string;
  (** [new URL(input, base)], which throws on what is not a URL *)
  js_URL : string -> option string -> Completion URL;
  (** [url.toString()] *)
  js_URL_toString : URL -> string;
  (** [JSON.stringify(value)] for plain data *)
  js_JSON_stringify : Json -> string
}.

(** [String(value)] *)
Definition stringOf (W : WebPlatform) (value : SearchParamValue) : string :=
  match value with
  | SearchString s => s
  | SearchNumber n => js_String W n
  | SearchBoolean true => "true"
  | SearchBoolean false => "false"
  | SearchNull => "null"
  | SearchUndefined => "undefined"
  end.

Definition nullish (value : SearchParamValue) : bool :=
  match value with
  | SearchNull | SearchUndefined => true
  | _ => false
  end.

(** [appendValue] of [toSearchParams], on the parameters built so far. *)
Definition appendValue (W : WebPlatform) (key : string)
    (value : SearchParamValue) (searchParams : URLSearchParams)
  : URLSearchParams :=
  if nullish value then searchParams
  else searchParams ++ [(key, stringOf W value)].

Definition toSearchParams (W : WebPlatform) (params : option SearchParams)
  : option URLSearchParams :=
  match params with
  | None => None
  | Some entries =>
      Some (fold_left
              (fun sp '(key, value) =>
                 match value with
                 | Several items =>
                     fold_left (fun sp item => appendValue W key item sp) items sp
                 | Single v => appendValue W key v sp
                 end)
              entries [])
  end.

(** [URLSearchParams.prototype.has] *)
Definition has_param (sp : URLSearchParams) (key : string) : bool :=
  existsb (fun p => String.eqb (fst p) key) sp.

Definition resolveUrl (W : WebPlatform) (input : string)
    (baseUrl : option string) (query defaultQuery : option SearchParams)
  : Completion string :=
  match js_URL W input baseUrl with
  | Throw e => Throw e
  | Normal url =>
      let sp1 :=
        match toSearchParams W defaultQuery with
        | Some finalDefault =>
            fold_left (fun sp '(key, value) =>
                         if negb (has_param sp key) then sp ++ [(key, value)]
                         else sp)
                      finalDefault (searchParams url)
        | None => searchParams url
        end in
      let sp2 :=
        match toSearchParams W query with
        | Some finalQuery =>
            fold_left (fun sp '(key, value) => sp ++ [(key, value)])
                      finalQuery sp1
        | None => sp1
        end in
      Normal (js_URL_toString W (mkURL (url_location url) sp2))
  end.

(** The pairs [toSearchParams] gives, none when there are no parameters. *)
Definition query_pairs (W : WebPlatform) (params : option SearchParams)
  : URLSearchParams :=
  or_else (toSearchParams W params) [].

(** The first value of [key] in a list of pairs. *)
Fixpoint first_value (key : string) (sp : URLSearchParams) : option string :=
  match sp with
  | [] => None
  | (k, v) :: rest => if String.eqb k key then Some v else first_value key rest
  end.

(** The values of an entry, in order. *)
Definition entry_values (e : SearchParamEntry) : list SearchParamValue :=
  match e with
  | Single v => [v]
  | Several l => l
  end.

(** The defaults [resolveUrl] adds to the parameters [sp]: those whose key
    is not there yet. *)
Fixpoint added_defaults (sp defaults : URLSearchParams) : URLSearchParams :=
  match defaults with
  | [] => []
  | (k, v) :: rest =>
      if has_param sp k then added_defaults sp rest
      else (k, v) :: added_defaults (sp ++ [(k, v)]) rest
  end.

(** ** Objects *)

(** An object as the list of its own properties, in the order
    [Object.entries] and the spread syntax go through them: first the keys
    that are array indices, in ascending order, then the other keys, in the
    order they were created. *)
Module Obj.

Definition digit (c : ascii) : option N :=
  let n := N_of_ascii c in
  if (48 <=? n)%N && (n <=? 57)%N then Some (n - 48)%N else None.

Fixpoint digits (s : string) (acc : N) : option N :=
  match s with
  | EmptyString => Some acc
  | String c r =>
      match digit c with
      | Some d => digits r (acc * 10 + d)%N
      | None => None
      end
  end.

(** The array index a key stands for: a canonical numeral below
    [2^32 - 1]. *)
Definition array_index (k : string) : option N :=
  match k with
  | EmptyString => None
  | String c r =>
      if Ascii.eqb c "0" && negb (String.eqb r EmptyString) then None
      else match digits k 0 with
           | Some n => if (n <? 4294967295)%N then Some n else None
           | None => None
           end
  end.

Section Properties.

Variable V : Type.

Definition t : Type := list (string * V).

Fixpoint lookup (k : string) (o : t) : option V :=
  match o with
  | [] => None
  | (k', v) :: r => if String.eqb k' k then Some v else lookup k r
  end.

Definition has (k : string) (o : t) : bool :=
  existsb (fun p => String.eqb (fst p) k) o.

(** The value of an existing property changes in place. *)
Definition replace (k : string) (v : V) (o : t) : t :=
  map (fun p => if String.eqb (fst p) k then (k, v) else p) o.

(** A new array index goes before the first key that is a greater index
    or no index. *)
Fixpoint insert_index (n : N) (k : string) (v : V) (o : t) : t :=
  match o with
  | [] => [(k, v)]
  | (k', v') :: r =>
      match array_index k' with
      | Some m =>
          if (m <? n)%N then (k', v') :: insert_index n k v r
          else (k, v) :: o
      | None => (k, v) :: o
      end
  end.

(** Defining the property [k] with the value [v]. *)
Definition set (k : string) (v : V) (o : t) : t :=
  if has k o then replace k v o
  else match array_index k with
       | Some n => insert_index n k v o
       | None => o ++ [(k, v)]
       end.

(** [{ ...target, ...source }] *)
Definition spread (target source : t) : t :=
  fold_left (fun o '(k, v) => set k v o) source target.

Definition keys (o : t) : list string := map fst o.

End Properties.

Arguments lookup {V} k o.
Arguments has {V} k o.
Arguments replace {V} k v o.
Arguments insert_index {V} n k v o.
Arguments set {V} k v o.
Arguments spread {V} target source.
Arguments keys {V} o.

End Obj.

(** ** Headers *)

(** The [Headers] class of the platform, on its header list. *)
Module Headers.

Definition lower_ascii (c : ascii) : ascii :=
  let n := nat_of_ascii c in
  if (65 <=? n)%nat && (n <=? 90)%nat then ascii_of_nat (n + 32) else c.

(** Byte-lowercase. *)
Fixpoint lowercase (s : string) : string :=
  match s with
  | EmptyString => EmptyString
  | String c r => String (lower_ascii c) (lowercase r)
  end.

Fixpoint all_chars (f : ascii -> bool) (s : string) : bool :=
  match s with
  | EmptyString => true
  | String c r => f c && all_chars f r
  end.

(** The characters of an HTTP token. *)
Definition is_token_char (c : ascii) : bool :=
  let n := nat_of_ascii c in
  ((48 <=? n)%nat && (n <=? 57)%nat)
  || ((65 <=? n)%nat && (n <=? 90)%nat)
  || ((97 <=? n)%nat && (n <=? 122)%nat)
  || existsb (Nat.eqb n)
       [33; 35; 36; 37; 38; 39; 42; 43; 45; 46; 94; 95; 96; 124; 126]%nat.

(** A header name: a token. *)
Definition is_name (s : string) : bool :=
  negb (String.eqb s EmptyString) && all_chars is_token_char s.

(** HTTP white space: TAB, LF, CR and SP. *)
Definition is_whitespace (c : ascii) : bool :=
  existsb (Nat.eqb (nat_of_ascii c)) [9; 10; 13; 32]%nat.

Fixpoint strip_start (s : string) : string :=
  match s with
  | EmptyString => EmptyString
  | String c r => if is_whitespace c then strip_start r else s
  end.

Fixpoint strip_end (s : string) : string :=
  match s with
  | EmptyString => EmptyString
  | String c r =>
      match strip_end r with
      | EmptyString => if is_whitespace c then EmptyString
                       else String c EmptyString
      | r' => String c r'
      end
  end.

(** A value is normalized before it is stored: the white space around it
    goes. *)
Definition normalize (v : string) : string := strip_end (strip_start v).

(** A normalized value is a header value when it has no NUL, LF or CR. *)
Definition is_value (v : string) : bool :=
  all_chars (fun c => negb (existsb (Nat.eqb (nat_of_ascii c)) [0; 10; 13]%nat))
            v.

Definition invalid : JsError := mkError "TypeError" "Invalid header".

(** The header list: names are kept as given and compared without
    regard to case. *)
Definition t : Type := list (string * string).

Definition same_name (name : string) (p : string * string) : bool :=
  String.eqb (lowercase (fst p)) (lowercase name).

Definition contains (name : string) (h : t) : bool :=
  existsb (same_name name) h.

Definition values (name : string) (h : t) : list string :=
  map snd (filter (same_name name) h).

(** Values of one name are combined with a comma and a space. *)
Fixpoint join (l : list string) : string :=
  match l with
  | [] => EmptyString
  | [v] => v
  | v :: r => (v ++ ", " ++ join r)%string
  end.

(** Getting a name from a header list. *)
Definition combined (name : string) (h : t) : option string :=
  if contains name h then Some (join (values name h)) else None.

(** [headers.get(name)] *)
Definition get (name : string) (h : t) : Completion (option string) :=
  if is_name name then Normal (combined name h) else Throw invalid.

(** [headers.has(name)] *)
Definition has (name : string) (h : t) : Completion bool :=
  if is_name name then Normal (contains name h) else Throw invalid.

(** [headers.append(name, value)] *)
Definition append (name value : string) (h : t) : Completion t :=
  let v := normalize value in
  if is_name name && is_value v then Normal (h ++ [(name, v)])
  else Throw invalid.

(** Setting a name in a header list: the first header of that name takes
    the value and the others go. *)
Fixpoint set_in (name v : string) (h : t) : t :=
  match h with
  | [] => []
  | p :: r =>
      if same_name name p
      then (fst p, v) :: filter (fun q => negb (same_name name q)) r
      else p :: set_in name v r
  end.

(** [headers.set(name, value)] *)
Definition set (name value : string) (h : t) : Completion t :=
  let v := normalize value in
  if is_name name && is_value v
  then Normal (if contains name h then set_in name v h else h ++ [(name, v)])
  else Throw invalid.

Fixpoint insert_sorted (n : string) (l : list string) : list string :=
  match l with
  | [] => [n]
  | m :: r => if String.leb n m then n :: l else m :: insert_sorted n r
  end.

(** The names of a header list in lower case, without duplicates, sorted. *)
Definition names (h : t) : list string :=
  fold_right insert_sorted []
             (nodup string_dec (map (fun p => lowercase (fst p)) h)).

(** What the iteration of a [Headers] goes through ([forEach], and the
    copy [new Headers(headers)]): the names sorted, each with its combined
    value, but [set-cookie], which comes once per value. *)
Definition entries (h : t) : list (string * string) :=
  flat_map (fun n =>
              if String.eqb n "set-cookie"
              then map (fun v => (n, v)) (values n h)
              else [(n, join (values n h))])
           (names h).

(** Appending the pairs of [init] to a header list. *)
Fixpoint fill (init : list (string * string)) (h : t) : Completion t :=
  match init with
  | [] => Normal h
  | (name, value) :: r =>
      match append name value h with
      | Normal h' => fill r h'
      | Throw e => Throw e
      end
  end.

(** [new Headers(init)] *)
Definition create (init : list (string * string)) : Completion t :=
  fill init [].

(** [other.forEach((value, key) => { headers.set(key, value) })] *)
Fixpoint set_all (pairs : list (string * string)) (h : t) : Completion t :=
  match pairs with
  | [] => Normal h
  | (key, value) :: r =>
      match set key value h with
      | Normal h' => set_all r h'
      | Throw e => Throw e
      end
  end.

End Headers.

(** [HeadersInit] given as a record or as an array of pairs: the pairs in
    order.  (A [Headers] object is given by its [Headers.entries].) *)
Definition HeadersInit := list (string * string).

(** ** Request options *)

(** [Validator<T>]: a function, or a schema with a [parse] method; both
    may throw. *)
Inductive Validator :=
| ValidatorFunction (f : Payload -> Completion Payload)
| SchemaLike (parse : Payload -> Completion Payload).

(** The values of the members of a [RequestInit]. *)
Inductive InitValue :=
| IUndefined
| INull
| IString (s : string)
| IHeadersInit (h : HeadersInit)
| IHeaders (h : Headers.t)
| ISignal                       (** the caller's [AbortSignal] *)
| IValidator (v : Validator)
| IOther (tag : nat).           (** any other value *)

Definition RequestInit := Obj.t InitValue.

(** [FetchRequestOptions]: the members the client reads for itself, and
    the other own properties, those of [RequestInit]. *)
Record FetchRequestOptions := mkOptions {
  o_query : option SearchParams;
  o_parseAs : option ResponseParser;
  o_throwOnHttpError : option bool;
  o_timeout : option Q;
  o_retry : option RetrySetting;
  o_json : option Json;
  o_validate : option Validator;
  o_init : RequestInit
}.

(** [{}] *)
Definition no_options : FetchRequestOptions :=
  mkOptions None None None None None None None [].

(** [options?.member] *)
Definition member {A} (f : FetchRequestOptions -> option A)
    (options : option FetchRequestOptions) : option A :=
  match options with
  | Some o => f o
  | None => None
  end.

(** [{ ...options, method }] *)
Definition with_method (options : option FetchRequestOptions) (m : InitValue)
  : FetchRequestOptions :=
  let o := or_else options no_options in
  mkOptions (o_query o) (o_parseAs o) (o_throwOnHttpError o) (o_timeout o)
            (o_retry o) (o_json o) (o_validate o)
            (Obj.set "method" m (o_init o)).

(** [{ ...options, throwOnHttpError: false }] *)
Definition without_throw (options : option FetchRequestOptions)
  : FetchRequestOptions :=
  let o := or_else options no_options in
  mkOptions (o_query o) (o_parseAs o) (Some false) (o_timeout o)
            (o_retry o) (o_json o) (o_validate o) (o_init o).

(** A member read as [HeadersInit | undefined]. *)
Definition headers_member (init : option RequestInit) : option HeadersInit :=
  match init with
  | None => None
  | Some o =>
      match Obj.lookup "headers" o with
      | Some (IHeadersInit h) => Some h
      | Some (IHeaders h) => Some (Headers.entries h)
      | _ => None
      end
  end.

(** [init.method], a string when it is there. *)
Definition method_member (init : RequestInit) : option string :=
  match Obj.lookup "method" init with
  | Some (IString s) => Some s
  | _ => None
  end.

(** [init.signal ?? undefined]: whether there is a signal. *)
Definition signal_member (init : RequestInit) : bool :=
  match Obj.lookup "signal" init with
  | Some ISignal => true
  | _ => false
  end.

(** The rest of the destructuring of [sanitizeRequestInit]: every own
    property but [query], [parseAs], [throwOnHttpError], [timeout], [retry]
    and [json]; [validate] is not taken out. *)
Definition sanitizeRequestInit (requestOptions : option FetchRequestOptions)
  : RequestInit :=
  match requestOptions with
  | None => []
  | Some o =>
      match o_validate o with
      | Some v => Obj.set "validate" (IValidator v) (o_init o)
      | None => o_init o
      end
  end.

Definition mergeRequestInit (defaultOptions : option RequestInit)
    (requestOptions : option FetchRequestOptions) (headers : option Headers.t)
  : RequestInit :=
  Obj.set "headers"
          (match headers with Some h => IHeaders h | None => IUndefined end)
          (Obj.spread (Obj.spread [] (or_else defaultOptions []))
                      (sanitizeRequestInit requestOptions)).

(** ** Merging the headers *)

(** [baseHeaders]: headers, or a function that gives them, maybe later. *)
Inductive BaseHeaders :=
| HeadersValue (init : HeadersInit)
| HeadersFunction (call : Settles HeadersInit).

(** A computation that does not touch the world. *)
Definition lift {A} (c : Completion A) : M A := fun w => (c, w).

(** [new Headers(other).forEach((value, key) => headers.set(key, value))] *)
Definition set_from (other : HeadersInit) (headers : Headers.t)
  : Completion Headers.t :=
  match Headers.create other with
  | Normal o => Headers.set_all (Headers.entries o) headers
  | Throw e => Throw e
  end.

Definition mergeHeaders (baseHeaders : option BaseHeaders)
    (defaultHeaders requestHeaders : option HeadersInit)
  : M (option Headers.t) :=
  initial <- match baseHeaders with
             | Some (HeadersFunction call) => i <- await call ;; ret (Some i)
             | Some (HeadersValue i) => ret (Some i)
             | None => ret None
             end ;;
  match initial, defaultHeaders, requestHeaders with
  | None, None, None => ret None
  | _, _, _ =>
      headers <- lift (Headers.create (or_else initial [])) ;;
      headers <- lift (match defaultHeaders with
                       | Some d => set_from d headers
                       | None => Normal headers
                       end) ;;
      headers <- lift (match requestHeaders with
                       | Some r => set_from r headers
                       | None => Normal headers
                       end) ;;
      ret (Some headers)
  end.

(** ** Error payloads *)

(** [String.prototype.includes] *)
Fixpoint string_includes (sub s : string) : bool :=
  String.prefix sub s
  || match s with
     | EmptyString => false
     | String _ r => string_includes sub r
     end.

(** What else the client reads of a [Response]: [statusText] and
    [headers.get('content-type')]. *)
Record ResponseView := {
  statusText : Response -> string;
  contentType : Response -> option string
}.

(** [parseErrorPayload]: the body of a clone of the response, as JSON
    when the content type says so, as text otherwise; [undefined] when
    reading it fails. *)
Definition parseErrorPayload (P : Platform) (V : ResponseView)
    (response : Response) : Payload :=
  let contentType := or_else (contentType V response) EmptyString in
  if string_includes "application/json" contentType then
    match js_JSON_parse P (body response) with
    | Normal v => Parsed v
    | Throw _ => Undefined
    end
  else Text (body response).

(** [`${n}`] for an integer. *)
Definition decimal (n : Z) : string := NilZero.string_of_int (Z.to_int n).

(** [new FetchClientError(`Request failed with status ${response.status}
    (${response.statusText})`, response, payload)]: its name and its
    message.  (A [JsError] does not hold the [response] and the [data] of
    the error.) *)
Definition FetchClientError (V : ResponseView) (response : Response) : JsError :=
  mkError "FetchClientError"
          ("Request failed with status " ++ decimal (status response)
           ++ " (" ++ statusText V response ++ ")").

(** [FetchResult<T>]: [{ ok: true, data, response }], or
    [{ ok: false, error, response }] with a [FetchClientError] that holds
    the error payload as its [data], or [{ ok: false, error }]. *)
Inductive FetchResult :=
| ResultOk (data : Payload) (response : Response)
| ResultHttpError (error : JsError) (data : Payload) (response : Response)
| ResultError (error : JsError).

(** ** The client *)

(** [FetchClientConfig], with the transport and the pre-attempt hook as
    they go when called with a URL and an init, and the platform. *)
Record FetchClientConfig := mkConfig {
  cfg_platform : Platform;
  cfg_web : WebPlatform;
  cfg_view : ResponseView;
  cfg_globalFetch : option (string -> RequestInit -> Z -> Settles Response);
  cfg_baseUrl : option string;
  cfg_baseHeaders : option BaseHeaders;
  cfg_defaultQuery : option SearchParams;
  cfg_defaultOptions : option RequestInit;
  cfg_fetchImplementation :
    option (string -> RequestInit -> Z -> Settles Response);
  cfg_throwOnHttpError : option bool;
  cfg_timeout : option Q;
  cfg_retry : option RetrySetting;
  cfg_beforeRequest : option (string -> RequestInit -> Z -> Settles unit);
  cfg_afterResponse : option (Z -> Settles unit)
}.

(** What [requestWithRetry] closes over, for a request to [url] with
    [init]. *)
Definition env_of (config : FetchClientConfig) (url : string)
    (init : RequestInit) : Env := {|
  platform := cfg_platform config;
  fetchImplementation :=
    option_map (fun f => f url init) (cfg_fetchImplementation config);
  globalFetch := option_map (fun f => f url init) (cfg_globalFetch config);
  beforeRequest := option_map (fun f => f url init) (cfg_beforeRequest config);
  afterResponse := cfg_afterResponse config;
  defaultTimeout := cfg_timeout config;
  defaultRetry := cfg_retry config
|}.

Module Client.

(** The block [if (typeof options?.json !== 'undefined') { ... }] of
    [fetcher] and [request]. *)
Definition json_body (W : WebPlatform) (json : option Json)
    (headers : option Headers.t) (finalInit : RequestInit)
  : Completion RequestInit :=
  match json with
  | None => Normal finalInit
  | Some j =>
      match Headers.create
              (match headers with
               | Some h => Headers.entries h
               | None => []
               end) with
      | Throw e => Throw e
      | Normal h =>
          match Headers.has "content-type" h with
          | Throw e => Throw e
          | Normal present =>
              match (if negb present
                     then Headers.set "content-type" "application/json" h
                     else Normal h) with
              | Throw e => Throw e
              | Normal h' =>
                  let init1 := Obj.set "headers" (IHeaders h') finalInit in
                  let init2 :=
                    Obj.set "body" (IString (js_JSON_stringify W j)) init1 in
                  Normal
                    (Obj.set "method"
                       (match Obj.lookup "method" init2 with
                        | None | Some IUndefined | Some INull => IString "POST"
                        | Some m => m
                        end)
                       init2)
              end
          end
      end
  end.

(** What [fetcher] and [request] hand to [requestWithRetry]. *)
Record Prepared := mkPrepared {
  p_url : string;
  p_init : RequestInit;
  p_policy : option RetryOptions
}.

(** The first lines of [fetcher] and of [request], which are the same:
    the URL, the headers, the init and the retry policy. *)
Definition prepare (config : FetchClientConfig) (input : string)
    (options : option FetchRequestOptions) : M Prepared :=
  url <- lift (resolveUrl (cfg_web config) input (cfg_baseUrl config)
                          (member o_query options) (cfg_defaultQuery config)) ;;
  headers <- mergeHeaders (cfg_baseHeaders config)
                          (headers_member (cfg_defaultOptions config))
                          (headers_member (option_map o_init options)) ;;
  finalInit <- lift (json_body (cfg_web config) (member o_json options) headers
                       (mergeRequestInit (cfg_defaultOptions config) options
                                         headers)) ;;
  ret (mkPrepared url finalInit
         (resolveRetry (cfg_retry config) (method_member finalInit)
                       (member o_retry options))).

(** [await requestWithRetry(url, finalInit, options?.timeout, retryPolicy)] *)
Definition send (config : FetchClientConfig)
    (options : option FetchRequestOptions) (p : Prepared) : M Response :=
  requestWithRetry (env_of config (p_url p) (p_init p))
                   (signal_member (p_init p))
                   (member o_timeout options) (p_policy p).

(** [options?.throwOnHttpError ?? throwOnHttpError], the latter [true]
    by default. *)
Definition shouldThrow (config : FetchClientConfig)
    (options : option FetchRequestOptions) : bool :=
  match member o_throwOnHttpError options with
  | Some b => b
  | None => or_else (cfg_throwOnHttpError config) true
  end.

(** The validation of the parsed payload, when there is a validator. *)
Definition validated (options : option FetchRequestOptions) (parsed : Payload)
  : Completion Payload :=
  match member o_validate options with
  | None => Normal parsed
  | Some (ValidatorFunction f) => f parsed
  | Some (SchemaLike parse) => parse parsed
  end.

Definition fetcher (config : FetchClientConfig) (input : string)
    (options : option FetchRequestOptions) (parser : option ResponseParser)
  : M Payload :=
  p <- prepare config input options ;;
  response <- send config options p ;;
  if shouldThrow config options && negb (ok response)
  then
    let payload :=
      parseErrorPayload (cfg_platform config) (cfg_view config) response in
    throw (FetchClientError (cfg_view config) response)
  else
    parsed <- lift (parseResponse (cfg_platform config) response
                      (chosen_parser parser (member o_parseAs options))) ;;
    lift (validated options parsed).

Definition request (config : FetchClientConfig) (input : string)
    (options : option FetchRequestOptions) : M Response :=
  p <- prepare config input options ;;
  response <- send config options p ;;
  if shouldThrow config options && negb (ok response)
  then
    let payload :=
      parseErrorPayload (cfg_platform config) (cfg_view config) response in
    throw (FetchClientError (cfg_view config) response)
  else ret response.

Definition safe (config : FetchClientConfig) (input : string)
    (options : option FetchRequestOptions) (parser : option ResponseParser)
  : M FetchResult :=
  tryCatch
    (res <- request config input (Some (without_throw options)) ;;
     if negb (ok res)
     then
       let payload :=
         parseErrorPayload (cfg_platform config) (cfg_view config) res in
       ret (ResultHttpError (FetchClientError (cfg_view config) res) payload res)
     else
       parsed <- lift (parseResponse (cfg_platform config) res
                         (chosen_parser parser (member o_parseAs options))) ;;
       data <- lift (validated options parsed) ;;
       ret (ResultOk data res))
    (fun err => ret (ResultError err)).

(** [options?.method ?? 'POST'] *)
Definition method_or_post (options : option FetchRequestOptions) : InitValue :=
  match options with
  | None => IString "POST"
  | Some o =>
      match Obj.lookup "method" (o_init o) with
      | None | Some IUndefined | Some INull => IString "POST"
      | Some m => m
      end
  end.

(** The operations of the client. *)

Definition json (config : FetchClientConfig) (input : string)
    (options : option FetchRequestOptions) : M Payload :=
  fetcher config input options (Some ParseJson).

Definition text (config : FetchClientConfig) (input : string)
    (options : option FetchRequestOptions) : M Payload :=
  fetcher config input options (Some ParseText).

Definition blob (config : FetchClientConfig) (input : string)
    (options : option FetchRequestOptions) : M Payload :=
  fetcher config input options (Some ParseBlob).

Definition arrayBuffer (config : FetchClientConfig) (input : string)
    (options : option FetchRequestOptions) : M Payload :=
  fetcher config input options (Some ParseArrayBuffer).

Definition safeJson (config : FetchClientConfig) (input : string)
    (options : option FetchRequestOptions) : M FetchResult :=
  safe config input options (Some ParseJson).

Definition safeText (config : FetchClientConfig) (input : string)
    (options : option FetchRequestOptions) : M FetchResult :=
  safe config input options (Some ParseText).

Definition safeBlob (config : FetchClientConfig) (input : string)
    (options : option FetchRequestOptions) : M FetchResult :=
  safe config input options (Some ParseBlob).

Definition safeArrayBuffer (config : FetchClientConfig) (input : string)
    (options : option FetchRequestOptions) : M FetchResult :=
  safe config input options (Some ParseArrayBuffer).

Definition get (config : FetchClientConfig) (input : string)
    (options : option FetchRequestOptions) : M Payload :=
  fetcher config input (Some (with_method options (IString "GET")))
          (Some ParseJson).

Definition post (config : FetchClientConfig) (input : string)
    (options : option FetchRequestOptions) : M Payload :=
  fetcher config input (Some (with_method options (method_or_post options)))
          (Some ParseJson).

Definition put (config : FetchClientConfig) (input : string)
    (options : option FetchRequestOptions) : M Payload :=
  fetcher config input (Some (with_method options (IString "PUT")))
          (Some ParseJson).

Definition patch (config : FetchClientConfig) (input : string)
    (options : option FetchRequestOptions) : M Payload :=
  fetcher config input (Some (with_method options (IString "PATCH")))
          (Some ParseJson).

Definition del (config : FetchClientConfig) (input : string)
    (options : option FetchRequestOptions) : M Payload :=
  fetcher config input (Some (with_method options (IString "DELETE")))
          (Some ParseJson).

End Client.

(** [createJsonFetcher(config)]: the [json] operation of a client. *)
Definition createJsonFetcher (config : FetchClientConfig) (input : string)
    (options : option FetchRequestOptions) : M Payload :=
  Client.json config input options.

(** ** Derived clients *)

(** A member of [Partial<FetchClientConfig>]: not there, or there with a
    value that may be [undefined]. *)
Inductive Field (A : Type) : Type :=
| Absent
| Present (v : option A).
Arguments Absent {A}.
Arguments Present {A} v.

Record Overrides := mkOverrides {
  ov_baseUrl : Field string;
  ov_baseHeaders : Field BaseHeaders;
  ov_defaultQuery : Field SearchParams;
  ov_defaultOptions : Field RequestInit;
  ov_fetchImplementation :
    Field (string -> RequestInit -> Z -> Settles Response);
  ov_throwOnHttpError : Field bool;
  ov_timeout : Field Q;
  ov_retry : Field RetrySetting;
  ov_beforeRequest : Field (string -> RequestInit -> Z -> Settles unit);
  ov_afterResponse : Field (Z -> Settles unit)
}.

(** [{}] *)
Definition no_overrides : Overrides :=
  mkOverrides Absent Absent Absent Absent Absent Absent Absent Absent Absent
              Absent.

(** A member of [{ ...config, ...overrides }]. *)
Definition overridden {A} (base : option A) (f : Field A) : option A :=
  match f with
  | Absent => base
  | Present v => v
  end.

(** [overrides?.member ?? {}] and [config.member ?? {}] *)
Definition field_value {A} (f : Field A) : option A :=
  match f with
  | Absent => None
  | Present v => v
  end.

(** The configuration of [client.withConfig(overrides)]. *)
Definition withConfig (config : FetchClientConfig) (overrides : Overrides)
  : FetchClientConfig := {|
  cfg_platform := cfg_platform config;
  cfg_web := cfg_web config;
  cfg_view := cfg_view config;
  cfg_globalFetch := cfg_globalFetch config;
  cfg_baseUrl := overridden (cfg_baseUrl config) (ov_baseUrl overrides);
  cfg_baseHeaders :=
    overridden (cfg_baseHeaders config) (ov_baseHeaders overrides);
  cfg_defaultQuery :=
    Some (Obj.spread
            (Obj.spread [] (or_else (cfg_defaultQuery config) []))
            (or_else (field_value (ov_defaultQuery overrides)) []));
  cfg_defaultOptions :=
    Some (Obj.spread
            (Obj.spread [] (or_else (cfg_defaultOptions config) []))
            (or_else (field_value (ov_defaultOptions overrides)) []));
  cfg_fetchImplementation :=
    overridden (cfg_fetchImplementation config)
               (ov_fetchImplementation overrides);
  cfg_throwOnHttpError :=
    overridden (cfg_throwOnHttpError config) (ov_throwOnHttpError overrides);
  cfg_timeout := overridden (cfg_timeout config) (ov_timeout overrides);
  cfg_retry := overridden (cfg_retry config) (ov_retry overrides);
  cfg_beforeRequest :=
    overridden (cfg_beforeRequest config) (ov_beforeRequest overrides);
  cfg_afterResponse :=
    overridden (cfg_afterResponse config) (ov_afterResponse overrides)
|}.

(** ** Vocabulary of the properties of the client *)

(** The value the iteration of a header list gives last for a name: the
    combined value, or the last value for [set-cookie]. *)
Definition iterated_value (name : string) (h : Headers.t) : option string :=
  if Headers.contains name h
  then Some (if String.eqb (Headers.lowercase name) "set-cookie"
             then last (Headers.values name h) EmptyString
             else Headers.join (Headers.values name h))
  else None.

(** The value of the last pair of a list that has a name. *)
Fixpoint last_set (name : string) (pairs : list (string * string))
  : option string :=
  match pairs with
  | [] => None
  | p :: r =>
      match last_set name r with
      | Some v => Some v
      | None => if Headers.same_name name p then Some (snd p) else None
      end
  end.

(** What [baseHeaders] gives: itself, or what the function returns. *)
Definition initial_headers (baseHeaders : option BaseHeaders)
  : Completion (option HeadersInit) :=
  match baseHeaders with
  | Some (HeadersFunction call) =>
      match outcome call with
      | Normal i => Normal (Some i)
      | Throw e => Throw e
      end
  | Some (HeadersValue i) => Normal (Some i)
  | None => Normal None
  end.

(** The [Headers] object built from headers that may be missing. *)
Definition built_from (init : option HeadersInit) (h : Headers.t) : Prop :=
  Headers.create (or_else init []) = Normal h.

(** The own properties of the request options that belong to the init. *)
Definition request_init (options : option FetchRequestOptions) : RequestInit :=
  or_else (option_map o_init options) [].

(** The method the options give: the one of the request options when
    they have the key, the one of the default options otherwise. *)
Definition given_method (defaultOptions : option RequestInit)
    (options : option FetchRequestOptions) : option InitValue :=
  match Obj.lookup "method" (request_init options) with
  | Some v => Some v
  | None => Obj.lookup "method" (or_else defaultOptions [])
  end.

(** The setting the policy of a request is resolved from. *)
Definition retry_source (config : FetchClientConfig)
    (options : option FetchRequestOptions) : option RetrySetting :=
  match member o_retry options with
  | None => cfg_retry config
  | Some r => Some r
  end.

(** Keys in property order: the array indices first, ascending, then the
    other keys. *)
Fixpoint in_property_order (ks : list string) : bool :=
  match ks with
  | [] => true
  | k :: r =>
      in_property_order r
      && match Obj.array_index k with
         | Some n =>
             forallb (fun k' => match Obj.array_index k' with
                                | Some m => (n <? m)%N
                                | None => true
                                end) r
         | None =>
             forallb (fun k' => match Obj.array_index k' with
                                | Some _ => false
                                | None => true
                                end) r
         end
  end.

(** An object as JavaScript holds it: one property per key, in property
    order. *)
Definition well_formed {V} (o : Obj.t V) : Prop :=
  NoDup (Obj.keys o) /\ in_property_order (Obj.keys o) = true.

(** Sample values. *)
Module Sample.

Definition defaults : RequestInit :=
  [("method"%string, IString "POST"); ("cache"%string, IOther 0)].

(** [{ method: undefined }] *)
Definition undefined_method : FetchRequestOptions :=
  mkOptions None None None None None None None
            [("method"%string, IUndefined)].

(** Base, default and request headers that all name [X-Trace]. *)
Definition base_headers : BaseHeaders :=
  HeadersValue [("Accept"%string, "application/json"%string);
                ("X-Trace"%string, "base"%string)].

Definition default_headers : HeadersInit :=
  [("x-trace"%string, "default"%string);
   ("Cache-Control"%string, "no-cache"%string)].

Definition request_headers : HeadersInit :=
  [("X-TRACE"%string, " request  "%string)].

Definition merged_headers : Headers.t :=
  [("Accept"%string, "application/json"%string);
   ("X-Trace"%string, "request"%string);
   ("cache-control"%string, "no-cache"%string)].

(** [name=value] pairs joined with [&]. *)
Fixpoint query_string (sp : URLSearchParams) : string :=
  match sp with
  | [] => EmptyString
  | [(k, v)] => (k ++ "=" ++ v)%string
  | (k, v) :: r => (k ++ "=" ++ v ++ "&" ++ query_string r)%string
  end.

(** A platform for the samples: the input of [new URL] is taken as it is,
    without parameters, and every value is stringified the same. *)
Definition web : WebPlatform := {|
  js_String := fun _ => "1"%string;
  js_URL := fun input _ => Normal (mkURL input []);
  js_URL_toString := fun u =>
    match searchParams u with
    | [] => url_location u
    | sp => (url_location u ++ "?" ++ query_string sp)%string
    end;
  js_JSON_stringify := fun _ => "null"%string
|}.

(** A platform whose [JSON.parse] reads one text. *)
Definition platform : Platform := {|
  js_Number := fun _ => None;
  js_Date_getTime := fun _ => None;
  js_JSON_parse := fun s =>
    if String.eqb s "[1]" then Normal (JArr [JNum 1])
    else Throw (mkError "SyntaxError" "Unexpected token");
  js_random := fun _ => 0
|}.

Definition bad_request : Response := mkResponse 400 None "[1]".
Definition found : Response := mkResponse 200 None "[1]".

(** A validator function that accepts arrays only. *)
Definition is_array : Validator :=
  ValidatorFunction (fun d => match d with
                              | Parsed (JArr _) => Normal d
                              | _ => Throw (mkError "Error" "invalid")
                              end).

(** [{ validate }] *)
Definition validating : FetchRequestOptions :=
  mkOptions None None None None None None (Some is_array) [].

(** The init of a request with a [json] option and the merged headers
    above. *)
Definition json_init : RequestInit :=
  [("cache"%string, IOther 0);
   ("headers"%string,
    IHeaders [("accept"%string, "application/json"%string);
              ("cache-control"%string, "no-cache"%string);
              ("x-trace"%string, "request"%string);
              ("content-type"%string, "application/json"%string)]);
   ("body"%string, IString "null");
   ("method"%string, IString "POST")].

Definition view : ResponseView := {|
  statusText := fun r =>
    if (status r =? 503)%Z then "Service Unavailable"%string
    else if (status r =? 400)%Z then "Bad Request"%string
    else "OK"%string;
  contentType := fun _ => Some "application/json"%string
|}.

(** The client of the test suite: a base URL and a transport. *)
Definition client (transport : Z -> Settles Response) : FetchClientConfig := {|
  cfg_platform := platform;
  cfg_web := web;
  cfg_view := view;
  cfg_globalFetch := None;
  cfg_baseUrl := Some "http://localhost"%string;
  cfg_baseHeaders := None;
  cfg_defaultQuery := None;
  cfg_defaultOptions := None;
  cfg_fetchImplementation := Some (fun _ _ => transport);
  cfg_throwOnHttpError := None;
  cfg_timeout := None;
  cfg_retry := None;
  cfg_beforeRequest := None;
  cfg_afterResponse := None
|}.

(** A client with a base URL, base headers, default options and
    [retry: true], whose transport always answers 503. *)
Definition config : FetchClientConfig := {|
  cfg_platform := Scenario.platform;
  cfg_web := web;
  cfg_view := view;
  cfg_globalFetch := None;
  cfg_baseUrl := Some "https://example.test"%string;
  cfg_baseHeaders := Some base_headers;
  cfg_defaultQuery := None;
  cfg_defaultOptions := Some defaults;
  cfg_fetchImplementation :=
    Some (fun _ _ _ => mkSettles 1 (Normal Scenario.unavailable));
  cfg_throwOnHttpError := None;
  cfg_timeout := None;
  cfg_retry := Some (RetryBool true);
  cfg_beforeRequest := None;
  cfg_afterResponse := None
|}.

(** Overrides that replace the default method, add a default query and
    take the timeout and [throwOnHttpError] back to their defaults. *)
Definition overrides : Overrides :=
  mkOverrides Absent Absent
              (Present (Some [("page"%string, Single (SearchNumber 1))]))
              (Present (Some [("method"%string, IString "PUT")]))
              Absent (Present None) (Present None) Absent Absent Absent.

End Sample.

(** * Properties *)

(** ** The test suite of the repository, on the embedding *)

(** "returns undefined for 204 with json parser" *)
Example test_no_content :
  parseResponse Scenario.platform (mkResponse 204 None "") (Some ParseJson)
  = Normal Undefined.
Proof. reflexivity. Qed.

(** "retries on configured status codes and eventually succeeds" *)
Example test_retry_then_success :
  let run := logical_request Scenario.flaky NoSignal None
               (Some Scenario.retry_once) 0 in
  outcome_of run = Normal Scenario.ok200 /\ invocations (log_of run) = 2%nat.
Proof. vm_compute. split; reflexivity. Qed.

(** "aborts on timeout": the transport rejects when the timeout of 5 ms
    aborts the signal it was given, and [retry: false] gives no policy. *)
Example test_abort_on_timeout :
  let run := request Scenario.aborted_transport NoSignal None
               (Some (RetryBool false)) (Some 5) 0 in
  outcome_of run = Throw AbortedException /\
  aborted (composed (world_of run)) = Some (5, DefaultAbortReason).
Proof. vm_compute. split; reflexivity. Qed.

(** ** Response parsing *)

Lemma trimStart_whitespace_only (s : string) :
  whitespace_only s = true -> Js.trimStart s = EmptyString.
Proof.
  induction s as [|c r IH]; simpl; [reflexivity|].
  intros H. apply andb_true_iff in H as [Hc Hr].
  rewrite Hc. now apply IH.
Qed.

Lemma trim_whitespace_only (s : string) :
  whitespace_only s = true -> Js.trim s = EmptyString.
Proof.
  intros H. unfold Js.trim. now rewrite trimStart_whitespace_only.
Qed.

(** ** Method gating *)

Lemma upper_ascii_idem (c : ascii) :
  Js.upper_ascii (Js.upper_ascii c) = Js.upper_ascii c.
Proof.
  destruct c as [[] [] [] [] [] [] [] []]; reflexivity.
Qed.

Lemma toUpperCase_idem (s : string) :
  Js.toUpperCase (Js.toUpperCase s) = Js.toUpperCase s.
Proof.
  induction s as [|c r IH]; simpl; [reflexivity|].
  now rewrite upper_ascii_idem, IH.
Qed.

Lemma normalizeMethod_upper (m : option string) :
  Js.toUpperCase (normalizeMethod m) = normalizeMethod m.
Proof.
  destruct m as [[|c r]|]; try reflexivity.
  unfold normalizeMethod. apply toUpperCase_idem.
Qed.

Lemma includes_str_In (l : list string) (x : string) :
  Js.includes_str l x = true <-> In x l.
Proof.
  unfold Js.includes_str. rewrite existsb_exists. split.
  - intros [y [Hy E]]. apply String.eqb_eq in E. now subst.
  - intros H. exists x. split; [assumption | apply String.eqb_refl].
Qed.

(** What [resolveRetry] lets through: a policy whose method list is empty
    or holds the upper-cased method. *)
Lemma resolveRetry_Some (dflt : option RetrySetting) (method : option string)
    (req : option RetrySetting) (policy : RetryOptions) :
  resolveRetry dflt method req = Some policy ->
  methods policy = [] \/ In (normalizeMethod method) (methods policy).
Proof.
  unfold resolveRetry.
  destruct (match req with None => dflt | Some _ => req end) as [src|];
    [|discriminate].
  destruct (negb (truthy src)); [discriminate|].
  destruct (methods (mergedPolicy src)) as [|m ms] eqn:Em.
  - simpl. intros H. injection H as <-. now left.
  - destruct (Js.includes_str (m :: ms) (normalizeMethod method)) eqn:Ei.
    + cbn [List.length Nat.eqb negb andb]. intros H. injection H as <-.
      right. rewrite Em. now apply includes_str_In.
    + cbn [List.length Nat.eqb negb andb]. discriminate.
Qed.

(** ** The host: what the event loop preserves *)

Lemma fold_left_keeps {A B C} (f : A -> B -> A) (proj : A -> C) :
  (forall a b, proj (f a b) = proj a) ->
  forall l a, proj (fold_left f l a) = proj a.
Proof.
  intros Hf l. induction l as [|b l IH]; intros a; simpl; [reflexivity|].
  now rewrite IH, Hf.
Qed.

Lemma fold_left_related {A B} (f : A -> B -> A) (R : A -> A -> Prop) :
  (forall a, R a a) -> (forall a b c, R a b -> R b c -> R a c) ->
  (forall a b, R a (f a b)) ->
  forall l a, R a (fold_left f l a).
Proof.
  intros Hrefl Htrans Hf l. induction l as [|b l IH]; intros a; simpl.
  - apply Hrefl.
  - eapply Htrans; [apply Hf | apply IH].
Qed.

Lemma In_existsb_pos (id : positive) (l : list positive) :
  existsb (Pos.eqb id) l = true <-> In id l.
Proof.
  rewrite existsb_exists. split.
  - intros [x [Hx E]]. apply Pos.eqb_eq in E. now subst.
  - intros H. exists id. split; [assumption | apply Pos.eqb_refl].
Qed.

(** *** The log is written by the client only *)

Lemma log_run_on_composed l w : log (run_on_composed l w) = log w.
Proof. destruct l; reflexivity. Qed.

Lemma log_abort_composed r w : log (abort_composed r w) = log w.
Proof.
  unfold abort_composed. destruct (aborted (composed w)); [reflexivity|].
  now rewrite (fold_left_keeps _ log) by (intros; apply log_run_on_composed).
Qed.

Lemma log_run_on_caller r l w : log (run_on_caller r l w) = log w.
Proof. destruct l; [apply log_abort_composed | reflexivity]. Qed.

Lemma log_abort_caller r w : log (abort_caller r w) = log w.
Proof.
  unfold abort_caller. destruct (aborted (caller w)); [reflexivity|].
  now rewrite (fold_left_keeps _ log) by (intros; apply log_run_on_caller).
Qed.

Lemma log_fire p w : log (fire p w) = log w.
Proof.
  destruct p as [t|a r]; simpl.
  - destruct (timer_pending (timer_id t) w); [|reflexivity].
    destruct (callback t); [now rewrite log_abort_composed | reflexivity].
  - destruct (caller_will_abort w); [|reflexivity].
    now rewrite log_abort_caller.
Qed.

Lemma log_elapse d w : log (elapse d w) = log w.
Proof.
  unfold elapse. simpl.
  now rewrite (fold_left_keeps _ log) by (intros; apply log_fire).
Qed.

Lemma log_wait_sleep id d before :
  forall w, log (snd (wait_sleep id d before w)) = log w.
Proof.
  induction before as [|p rest IH]; intros w; simpl; [reflexivity|].
  destruct (existsb (Pos.eqb id) (rejected (fire p w))); simpl.
  - apply log_fire.
  - now rewrite IH, log_fire.
Qed.

Lemma log_release c w : log (release c w) = log w.
Proof.
  unfold release. destruct (cl_baseSignal c), (cl_timeoutId c); reflexivity.
Qed.

(** [sleep] logs at most the timer it sets. *)
Lemma log_sleep ms sg w r w' :
  sleep ms sg w = (r, w') ->
  (r = Throw AbortedException /\ w' = w) \/
  log w' = SetTimeout (next_timer w) ResolveSleep (now w + Qmax 0 ms) :: log w.
Proof.
  unfold sleep.
  destruct (sg && is_aborted (composed w)).
  - intros H. injection H as <- <-. now left.
  - cbn [setTimeout].
    match goal with
    | |- context [wait_sleep ?i ?d ?b ?x] =>
        pose proof (log_wait_sleep i d b x) as L;
        destruct (wait_sleep i d b x) as [[] w3]
    end; simpl in L; intros H; injection H as <- <-; right;
      rewrite L; destruct sg; reflexivity.
Qed.

(** *** Time only moves forward, and an abort is stamped with its time *)


Lemma stamp_ok_refl w : stamp_ok w w.
Proof. split; [apply Qle_refl | intros F r H; now left]. Qed.

Lemma stamp_ok_trans a b c : stamp_ok a b -> stamp_ok b c -> stamp_ok a c.
Proof.
  intros [Hab Sab] [Hbc Sbc]. split; [eapply Qle_trans; eassumption|].
  intros F r H. destruct (Sbc F r H) as [H'|H'].
  - apply (Sab F r H').
  - right. eapply Qle_trans; eassumption.
Qed.

Lemma stamp_ok_same w w' :
  now w <= now w' -> aborted (composed w') = aborted (composed w) ->
  stamp_ok w w'.
Proof.
  intros Hn Hc. split; [assumption|]. intros F r H. left. now rewrite <- Hc.
Qed.

Lemma now_run_on_composed l w : now (run_on_composed l w) = now w.
Proof. destruct l; reflexivity. Qed.

Lemma composed_run_on_composed l w :
  composed (run_on_composed l w) = composed w.
Proof. destruct l; reflexivity. Qed.

Lemma now_abort_composed r w : now (abort_composed r w) = now w.
Proof.
  unfold abort_composed. destruct (aborted (composed w)); [reflexivity|].
  now rewrite (fold_left_keeps _ now) by (intros; apply now_run_on_composed).
Qed.

Lemma stamp_ok_abort_composed r w : stamp_ok w (abort_composed r w).
Proof.
  split; [rewrite now_abort_composed; apply Qle_refl|].
  unfold abort_composed. destruct (aborted (composed w)) eqn:E.
  - intros F r' H. left. congruence.
  - rewrite (fold_left_keeps _ composed)
      by (intros; apply composed_run_on_composed).
    simpl. intros F r' H. injection H as <- <-. right. apply Qle_refl.
Qed.

Lemma stamp_ok_run_on_caller r l w : stamp_ok w (run_on_caller r l w).
Proof.
  destruct l; simpl.
  - apply stamp_ok_abort_composed.
  - apply stamp_ok_same; [apply Qle_refl | reflexivity].
Qed.

Lemma stamp_ok_abort_caller r w : stamp_ok w (abort_caller r w).
Proof.
  unfold abort_caller. destruct (aborted (caller w)).
  - apply stamp_ok_same; [apply Qle_refl | reflexivity].
  - eapply stamp_ok_trans;
      [| apply (fold_left_related _ stamp_ok stamp_ok_refl stamp_ok_trans);
         intros; apply stamp_ok_run_on_caller].
    apply stamp_ok_same; [apply Qle_refl | reflexivity].
Qed.

Lemma stamp_ok_fire p w : stamp_ok w (fire p w).
Proof.
  destruct p as [t|a r]; simpl.
  - destruct (timer_pending (timer_id t) w); [|apply stamp_ok_refl].
    assert (S1 : stamp_ok w (clearTimeout (timer_id t)
                               (set_now (Qmax (now w) (due t)) w))).
    { apply stamp_ok_same; [apply Q.le_max_l | reflexivity]. }
    destruct (callback t); [|assumption].
    eapply stamp_ok_trans; [exact S1 | apply stamp_ok_abort_composed].
  - destruct (caller_will_abort w); [|apply stamp_ok_refl].
    eapply stamp_ok_trans; [|apply stamp_ok_abort_caller].
    apply stamp_ok_same; [apply Q.le_max_l | reflexivity].
Qed.

Lemma stamp_ok_fold_fire tasks w :
  stamp_ok w (fold_left (fun w p => fire p w) tasks w).
Proof.
  apply (fold_left_related _ stamp_ok stamp_ok_refl stamp_ok_trans).
  intros. apply stamp_ok_fire.
Qed.

Lemma stamp_ok_elapse d w : stamp_ok w (elapse d w).
Proof.
  unfold elapse.
  set (tasks := filter _ _).
  pose proof (stamp_ok_fold_fire tasks w) as [Hn Hs].
  set (w1 := fold_left _ tasks w) in *.
  split.
  - simpl. assert (0 <= Qmax 0 d) by apply Q.le_max_l. lra.
  - simpl. exact Hs.
Qed.

Lemma stamp_ok_release c w : stamp_ok w (release c w).
Proof.
  apply stamp_ok_same.
  - unfold release. destruct (cl_baseSignal c), (cl_timeoutId c);
      apply Qle_refl.
  - unfold release. destruct (cl_baseSignal c), (cl_timeoutId c); reflexivity.
Qed.

(** *** A pending [sleep] and the abort of its signal *)


Lemma rejected_grows_refl w : rejected_grows w w.
Proof. intros i H. exact H. Qed.

Lemma rejected_grows_trans a b c :
  rejected_grows a b -> rejected_grows b c -> rejected_grows a c.
Proof. intros H1 H2 i H. auto. Qed.

Lemma rejected_grows_run_on_composed l w :
  rejected_grows w (run_on_composed l w).
Proof. destruct l; intros i H; simpl; auto. Qed.

Lemma rejected_grows_fold_composed ls w :
  rejected_grows w (fold_left (fun w l => run_on_composed l w) ls w).
Proof.
  apply (fold_left_related _ rejected_grows rejected_grows_refl
                           rejected_grows_trans).
  intros. apply rejected_grows_run_on_composed.
Qed.

Lemma rejected_grows_abort_composed r w :
  rejected_grows w (abort_composed r w).
Proof.
  unfold abort_composed. destruct (aborted (composed w)).
  - apply rejected_grows_refl.
  - eapply rejected_grows_trans; [|apply rejected_grows_fold_composed].
    intros i H. exact H.
Qed.

Lemma rejected_grows_run_on_caller r l w :
  rejected_grows w (run_on_caller r l w).
Proof.
  destruct l; simpl.
  - apply rejected_grows_abort_composed.
  - intros i H. simpl. auto.
Qed.

(** Every listener of the composed signal runs when it is aborted. *)
Lemma fold_composed_rejects id ls :
  In (SleepOnAbort id) ls ->
  forall w, In id (rejected (fold_left (fun w l => run_on_composed l w) ls w)).
Proof.
  induction ls as [|l ls IH]; intros Hin w; [contradiction|].
  simpl. destruct Hin as [->|Hin].
  - apply rejected_grows_fold_composed. simpl. now left.
  - now apply IH.
Qed.

Lemma abort_composed_rejects id r w :
  aborted (composed w) = None ->
  In (SleepOnAbort id) (listeners (composed w)) ->
  In id (rejected (abort_composed r w)).
Proof.
  intros Ha Hin. unfold abort_composed. rewrite Ha.
  now apply fold_composed_rejects.
Qed.


Lemma abort_composed_touch id r w :
  In (SleepOnAbort id) (listeners (composed w)) ->
  untouched_or_rejected id w (abort_composed r w).
Proof.
  intros Hin. destruct (aborted (composed w)) eqn:Ha.
  - left. unfold abort_composed. now rewrite Ha.
  - right. now apply abort_composed_rejects.
Qed.

Lemma fold_caller_touch id r ls :
  forall w w0,
    In (SleepOnAbort id) (listeners (composed w0)) ->
    untouched_or_rejected id w0 w ->
    untouched_or_rejected id w0
      (fold_left (fun w l => run_on_caller r l w) ls w).
Proof.
  induction ls as [|l ls IH]; intros w w0 Hin H; simpl; [exact H|].
  apply IH; [assumption|].
  destruct H as [Hc|Hr].
  - destruct l; simpl.
    + destruct (abort_composed_touch id r w) as [Hc'|Hr'].
      * now rewrite Hc.
      * left. congruence.
      * now right.
    + left. exact Hc.
  - right. now apply rejected_grows_run_on_caller.
Qed.

Lemma fire_touch id p w :
  In (SleepOnAbort id) (listeners (composed w)) ->
  untouched_or_rejected id w (fire p w).
Proof.
  intros Hin. destruct p as [t|a r]; simpl.
  - destruct (timer_pending (timer_id t) w); [|now left].
    destruct (callback t); [|now left].
    destruct (abort_composed_touch id DefaultAbortReason
                (clearTimeout (timer_id t) (set_now (Qmax (now w) (due t)) w)))
      as [Hc|Hr]; [exact Hin | left; exact Hc | now right].
  - destruct (caller_will_abort w); [|now left].
    unfold abort_caller. cbn [caller set_now].
    destruct (aborted (caller w)); [now left|].
    apply fold_caller_touch; [exact Hin | now left].
Qed.

(** A wait that ends by its timer ends at the timer's time, with the
    signal it listens to not aborted. *)
Lemma wait_sleep_resolved id d before :
  forall w w',
    aborted (composed w) = None ->
    In (SleepOnAbort id) (listeners (composed w)) ->
    wait_sleep id d before w = (true, w') ->
    aborted (composed w') = None /\ d <= now w'.
Proof.
  induction before as [|p rest IH]; intros w w' Ha Hin; simpl.
  - intros H. injection H as <-. simpl. split; [assumption | apply Q.le_max_r].
  - destruct (existsb (Pos.eqb id) (rejected (fire p w))) eqn:E;
      [discriminate|].
    intros H. destruct (fire_touch id p w Hin) as [Hc|Hr].
    + apply (IH (fire p w)); [now rewrite Hc | now rewrite Hc | exact H].
    + apply In_existsb_pos in Hr. congruence.
Qed.

Lemma stamp_ok_wait_sleep id d before :
  forall w, stamp_ok w (snd (wait_sleep id d before w)).
Proof.
  induction before as [|p rest IH]; intros w; simpl.
  - apply stamp_ok_same; [apply Q.le_max_l | reflexivity].
  - destruct (existsb (Pos.eqb id) (rejected (fire p w))); simpl.
    + apply stamp_ok_fire.
    + eapply stamp_ok_trans; [apply stamp_ok_fire | apply IH].
Qed.

Lemma In_add_listener l s : In l (listeners (add_listener l s)).
Proof.
  unfold add_listener. destruct (existsb (listener_eqb l) (listeners s)) eqn:E.
  - apply existsb_exists in E as [x [Hx E]].
    destruct l, x; simpl in E; try discriminate; [assumption|].
    apply Pos.eqb_eq in E. now subst.
  - simpl. apply in_or_app. right. now left.
Qed.

Lemma stamp_ok_sleep ms sg w r w' :
  sleep ms sg w = (r, w') -> stamp_ok w w'.
Proof.
  unfold sleep. destruct (sg && is_aborted (composed w)).
  - intros H. injection H as <- <-. apply stamp_ok_refl.
  - cbn [setTimeout].
    match goal with
    | |- context [wait_sleep ?i ?d ?b ?x] =>
        pose proof (stamp_ok_wait_sleep i d b x) as L;
        destruct (wait_sleep i d b x) as [[] w3]
    end; simpl in L; intros H; injection H as <- <-;
      (eapply stamp_ok_trans; [|exact L]);
      (apply stamp_ok_same; [destruct sg; apply Qle_refl|]);
      destruct sg; try reflexivity;
      simpl; unfold add_listener; destruct (existsb _ _); reflexivity.
Qed.

(** A [sleep] that resolves does so no earlier than after [ms], with its
    signal not aborted. *)
Lemma sleep_resolved ms w w' :
  sleep ms true w = (Normal tt, w') ->
  aborted (composed w') = None /\ now w + Qmax 0 ms <= now w'.
Proof.
  unfold sleep. cbn [andb]. unfold is_aborted.
  destruct (aborted (composed w)) eqn:Ha; [discriminate|].
  cbn [setTimeout].
  match goal with
  | |- context [wait_sleep ?i ?d ?b ?x] =>
      pose proof (wait_sleep_resolved i d b x) as L;
      destruct (wait_sleep i d b x) as [[] w3]
  end; [|discriminate].
  intros H. injection H as <-. apply L; [| |reflexivity].
  - simpl. unfold add_listener. destruct (existsb _ _); simpl; assumption.
  - cbn [composed set_composed]. apply In_add_listener.
Qed.


(** ** One turn of the loop *)

Section Turn.

Variable env : Env.
Variable fetchFn : Z -> Settles Response.
Variable sig : ComposedSignal.
Variable retryPolicy : option RetryOptions.

Lemma call_hook_run hook e k w :
  call_hook hook e k w = (hook_outcome hook k, hook_world hook e k w).
Proof. destruct hook; reflexivity. Qed.

Lemma try_attempt_tried k le w r w' :
  try_attempt env fetchFn sig retryPolicy k le w = (r, w') ->
  tried env fetchFn sig retryPolicy k le w r w'.
Proof.
  unfold try_attempt, bind at 1. rewrite call_hook_run.
  destruct (hook_outcome (beforeRequest env) k) as [[]|e] eqn:Hb.
  2:{ intros H. injection H as <- <-. now constructor. }
  unfold bind at 1, effect at 1. unfold bind at 1, await at 1.
  fold (world_at_fetch env sig k w). fold (world_after_fetch env fetchFn sig k w).
  destruct (outcome (fetchFn k)) as [res|e] eqn:Hf.
  2:{ intros H. injection H as <- <-. now constructor. }
  unfold bind at 1. rewrite call_hook_run.
  fold (world_after_hooks env fetchFn sig k w).
  destruct (hook_outcome (afterResponse env) k) as [[]|e] eqn:Ha.
  2:{ intros H. injection H as <- <-. eapply tried_after_throws; eassumption. }
  destruct retryPolicy as [policy|] eqn:Hp.
  - destruct (should_retry (Some policy) k res) eqn:Hs.
    + unfold should_retry in Hs. rewrite Hs.
      unfold bind at 1.
      destruct (retry_delay env policy k res
                  (world_after_hooks env fetchFn sig k w)) as [rd w1] eqn:Hd.
      assert (exists d, rd = Normal d) as [d ->].
      { unfold retry_delay, backoff in Hd.
        destruct (if respectRetryAfterHeader policy then _ else _);
          [injection Hd as <- _; eauto|].
        destruct (Qeq_bool (jitter policy) 0); injection Hd as <- _; eauto. }
      unfold bind at 1, wait_before_retry, bind at 1, effect.
      destruct (sleep d (signal sig) _) as [rs w2] eqn:Hsl.
      intros H.
      assert (r = after_sleep rs le /\ w' = w2) as [-> ->].
      { destruct rs as [[]|e]; injection H as <- <-; now split. }
      eapply tried_wait; try eassumption; try reflexivity.
    + unfold should_retry in Hs. rewrite Hs.
      intros H. injection H as <- <-.
      apply tried_return; try assumption.
  - intros H. injection H as <- <-. now apply tried_return.
Qed.

Lemma catch_attempt_caught k e w r w' :
  catch_attempt env sig retryPolicy k e w = (r, w') ->
  caught env sig retryPolicy k e w r w'.
Proof.
  unfold catch_attempt.
  destruct (isAbortError e) eqn:Hab.
  { intros H. injection H as <- <-. constructor. now left. }
  destruct retryPolicy as [policy|] eqn:Hp.
  2:{ intros H. injection H as <- <-. constructor. right. now left. }
  destruct (totalAttempts (Some policy) <=? k)%Z eqn:Ht.
  { intros H. injection H as <- <-. constructor. right. right.
    now apply Z.leb_le. }
  unfold bind at 1.
  destruct (backoff (platform env) k policy w) as [rd w1] eqn:Hd.
  assert (exists d, rd = Normal d) as [d ->].
  { unfold backoff in Hd.
    destruct (Qeq_bool (jitter policy) 0); injection Hd as <- _; eauto. }
  unfold bind at 1, wait_before_retry, bind at 1, effect.
  destruct (sleep d (signal sig) _) as [rs w2] eqn:Hsl.
  intros H.
  assert (r = after_sleep rs (Some e) /\ w' = w2) as [-> ->].
  { destruct rs as [[]|e']; injection H as <- <-; now split. }
  eapply caught_wait; try eassumption; try reflexivity.
  now apply Z.leb_gt.
Qed.

Lemma attempt_body_turned k le w r w' :
  attempt_body env fetchFn sig retryPolicy k le w = (r, w') ->
  turned env fetchFn sig retryPolicy k le w r w'.
Proof.
  unfold attempt_body, bind, effect, tryCatch.
  destruct (try_attempt env fetchFn sig retryPolicy k le
              (record (Attempt k) w)) as [[flow|e] w1] eqn:Ht.
  - intros H. injection H as <- <-. apply turned_try.
    now apply try_attempt_tried.
  - intros H. eapply turned_catch.
    + apply try_attempt_tried. exact Ht.
    + now apply catch_attempt_caught.
Qed.

End Turn.

(** ** What one turn of the loop logs *)

Lemma invocations_app l1 l2 :
  invocations (l1 ++ l2) = (invocations l1 + invocations l2)%nat.
Proof.
  induction l1 as [|e l1 IH]; simpl; [reflexivity|].
  destruct e; simpl; now rewrite IH.
Qed.

Lemma log_hook_world hook e k w :
  log (hook_world hook e k w) = hook_events hook e ++ log w.
Proof.
  destruct hook; unfold hook_world, hook_events;
    [now rewrite log_elapse | reflexivity].
Qed.

Lemma log_cleaned c w : log (cleaned c w) = Cleanup :: log w.
Proof. unfold cleaned. now rewrite log_release. Qed.

Lemma backoff_world P k policy w d w1 :
  backoff P k policy w = (Normal d, w1) ->
  (w1 = w \/ exists n, w1 = set_random_calls n w) /\
  d = backoffDelay (js_random P (random_calls w)) k policy.
Proof.
  unfold backoff. destruct (Qeq_bool (jitter policy) 0);
    intros H; injection H as <- <-; split; eauto.
Qed.

Lemma retry_delay_world env policy k res w d w1 :
  retry_delay env policy k res w = (Normal d, w1) ->
  (w1 = w \/ exists n, w1 = set_random_calls n w) /\
  (forall h, respectRetryAfterHeader policy = true ->
             parseRetryAfter (platform env) (now w) res = Some h -> d = h).
Proof.
  unfold retry_delay.
  destruct (respectRetryAfterHeader policy).
  - destruct (parseRetryAfter (platform env) (now w) res) as [h|].
    + intros H. injection H as <- <-. split; [now left|].
      intros h' _ E. now injection E.
    + intros H. apply backoff_world in H as [H _]. split; [exact H|].
      intros h' _ E. discriminate.
  - intros H. apply backoff_world in H as [H _]. split; [exact H|].
    intros h' E. discriminate.
Qed.

Lemma sleep_outcome ms sg w r w' :
  sleep ms sg w = (r, w') -> r = Normal tt \/ r = Throw AbortedException.
Proof.
  unfold sleep. destruct (sg && is_aborted (composed w)).
  - intros H. injection H as <- _. now right.
  - cbn [setTimeout].
    match goal with
    | |- context [wait_sleep ?i ?d ?b ?x] =>
        destruct (wait_sleep i d b x) as [[] w3]
    end; intros H; injection H as <- _; auto.
Qed.

Section TurnLog.

Variable env : Env.
Variable fetchFn : Z -> Settles Response.
Variable sig : ComposedSignal.
Variable retryPolicy : option RetryOptions.

Lemma log_world_at_fetch k w :
  log (world_at_fetch env sig k w) =
  Fetch k (signal sig) :: hook_events (beforeRequest env) (Before k) ++ log w.
Proof.
  unfold world_at_fetch. cbn [log record]. now rewrite log_hook_world.
Qed.

Lemma log_world_after_fetch k w :
  log (world_after_fetch env fetchFn sig k w) =
  Fetch k (signal sig) :: hook_events (beforeRequest env) (Before k) ++ log w.
Proof.
  unfold world_after_fetch. now rewrite log_elapse, log_world_at_fetch.
Qed.

Lemma log_world_after_hooks k w :
  log (world_after_hooks env fetchFn sig k w) =
  hook_events (afterResponse env) (After k)
    ++ Fetch k (signal sig)
    :: hook_events (beforeRequest env) (Before k) ++ log w.
Proof.
  unfold world_after_hooks. now rewrite log_hook_world, log_world_after_fetch.
Qed.

(** The [sleep] of turn [k], from the world [w1] it is called in. *)
Lemma log_wait k d w1 rs w' :
  sleep d (signal sig) (record (Sleep k (now w1) d (signal sig)) w1) = (rs, w') ->
  exists timer,
    log w' = timer ++ Sleep k (now w1) d (signal sig) :: log w1 /\
    Forall (turn_event k (signal sig)) timer /\
    invocations timer = 0%nat /\
    (forall e, In e timer -> attempt_of e = None).
Proof.
  intros H. apply log_sleep in H as [[_ ->]|H].
  - exists []. simpl. split; [reflexivity|]. split; [constructor|].
    split; [reflexivity|]. intros e [].
  - exists [SetTimeout (next_timer w1) ResolveSleep (now w1 + Qmax 0 d)].
    simpl in H. rewrite H. simpl. split; [reflexivity|].
    split; [repeat constructor|]. split; [reflexivity|].
    intros e [<-|[]]. reflexivity.
Qed.

Lemma delay_log policy k res w d w1 :
  retry_delay env policy k res w = (Normal d, w1) -> log w1 = log w.
Proof.
  intros H. apply retry_delay_world in H as [[->|[n ->]] _]; reflexivity.
Qed.

Lemma backoff_log P k policy w d w1 :
  backoff P k policy w = (Normal d, w1) -> log w1 = log w.
Proof.
  intros H. apply backoff_world in H as [[->|[n ->]] _]; reflexivity.
Qed.

(** The log of the [try] block: the hooks and the transport call, then the
    cleanup or the wait. *)
Lemma tried_log k le w r w' :
  tried env fetchFn sig retryPolicy k le w r w' ->
  exists delta,
    log w' = delta ++ log w /\
    Forall (turn_event k (signal sig)) delta /\
    (invocations delta <= 1)%nat /\
    (hook_outcome (beforeRequest env) k = Normal tt -> invocations delta = 1%nat) /\
    (hook_outcome (beforeRequest env) k <> Normal tt -> invocations delta = 0%nat).
Proof.
  assert (Hb : invocations (hook_events (beforeRequest env) (Before k)) = 0%nat)
    by (destruct (beforeRequest env); reflexivity).
  assert (Ha : invocations (hook_events (afterResponse env) (After k)) = 0%nat)
    by (destruct (afterResponse env); reflexivity).
  assert (Fb : Forall (turn_event k (signal sig))
                      (hook_events (beforeRequest env) (Before k)))
    by (destruct (beforeRequest env); repeat constructor).
  assert (Fa : Forall (turn_event k (signal sig))
                      (hook_events (afterResponse env) (After k)))
    by (destruct (afterResponse env); repeat constructor).
  assert (Ff : Forall (turn_event k (signal sig))
                 (hook_events (afterResponse env) (After k)
                    ++ Fetch k (signal sig)
                    :: hook_events (beforeRequest env) (Before k))).
  { apply Forall_app. split; [assumption|]. constructor; [now split|assumption]. }
  assert (Nf : invocations (hook_events (afterResponse env) (After k)
                    ++ Fetch k (signal sig)
                    :: hook_events (beforeRequest env) (Before k)) = 1%nat).
  { rewrite invocations_app. simpl. rewrite Ha, Hb. reflexivity. }
  intros H. destruct H as [e He|e He Hf|res e He Hf Hh|res He Hf Hh Hs
                          |res policy d w1 rs w' He Hf Hh Hp Hs Hd Hsl].
  - exists (hook_events (beforeRequest env) (Before k)).
    rewrite log_hook_world. split; [reflexivity|]. split; [assumption|].
    rewrite Hb. split; [lia|]. split; [intros E; congruence | reflexivity].
  - exists (Fetch k (signal sig) :: hook_events (beforeRequest env) (Before k)).
    rewrite log_world_after_fetch. split; [reflexivity|].
    split; [constructor; [now split|assumption]|].
    simpl. rewrite Hb. split; [lia|]. split; [reflexivity | congruence].
  - exists (hook_events (afterResponse env) (After k)
              ++ Fetch k (signal sig)
              :: hook_events (beforeRequest env) (Before k)).
    rewrite log_world_after_hooks.
    split; [now rewrite <- app_assoc|].
    split; [assumption|]. rewrite Nf. split; [lia|].
    split; [reflexivity | congruence].
  - exists (Cleanup :: hook_events (afterResponse env) (After k)
              ++ Fetch k (signal sig)
              :: hook_events (beforeRequest env) (Before k)).
    rewrite log_cleaned, log_world_after_hooks.
    split; [simpl; now rewrite <- app_assoc|].
    split; [constructor; [exact I|assumption]|].
    simpl. rewrite Nf. split; [lia|]. split; [reflexivity | congruence].
  - apply log_wait in Hsl as [timer [L [Ft [Nt _]]]].
    apply delay_log in Hd. rewrite Hd, log_world_after_hooks in L.
    exists (timer ++ Sleep k (now w1) d (signal sig)
              :: hook_events (afterResponse env) (After k)
              ++ Fetch k (signal sig)
              :: hook_events (beforeRequest env) (Before k)).
    split.
    { rewrite L. rewrite <- app_assoc. simpl. f_equal. f_equal.
      now rewrite <- app_assoc. }
    split.
    { apply Forall_app. split; [assumption|]. constructor; [now split|assumption]. }
    rewrite invocations_app. simpl. rewrite Nt, Nf. split; [lia|].
    split; [reflexivity | congruence].
Qed.

Lemma caught_log k e w r w' :
  caught env sig retryPolicy k e w r w' ->
  exists delta,
    log w' = delta ++ log w /\
    Forall (turn_event k (signal sig)) delta /\
    invocations delta = 0%nat.
Proof.
  intros H. destruct H as [Hfin|policy d w1 rs w' Hab Hp Hlt Hd Hsl].
  - exists [Cleanup]. rewrite log_cleaned. repeat split. repeat constructor.
  - apply log_wait in Hsl as [timer [L [Ft [Nt _]]]].
    apply backoff_log in Hd. rewrite Hd in L.
    exists (timer ++ [Sleep k (now w1) d (signal sig)]).
    split; [rewrite L, <- app_assoc; reflexivity|].
    split.
    { apply Forall_app. split; [assumption|]. repeat constructor. }
    rewrite invocations_app, Nt. reflexivity.
Qed.

Lemma turned_log k le w r w' :
  turned env fetchFn sig retryPolicy k le w r w' ->
  exists delta,
    log w' = delta ++ log w /\
    Forall (turn_event k (signal sig)) delta /\
    In (Attempt k) delta /\
    (invocations delta <= 1)%nat /\
    (hook_outcome (beforeRequest env) k = Normal tt -> invocations delta = 1%nat) /\
    (hook_outcome (beforeRequest env) k <> Normal tt -> invocations delta = 0%nat).
Proof.
  intros H. destruct H as [flow w' Ht|e w1 r w' Ht Hc].
  - apply tried_log in Ht as [delta [L [F [N1 [N2 N3]]]]].
    exists (delta ++ [Attempt k]). rewrite L. simpl.
    split; [now rewrite <- app_assoc|].
    split; [apply Forall_app; split; [assumption|repeat constructor]|].
    split; [apply in_or_app; right; now left|].
    rewrite invocations_app. simpl. split; [lia|].
    split; intros E; [rewrite N2 | rewrite N3]; auto.
  - apply tried_log in Ht as [delta [L [F [N1 [N2 N3]]]]].
    apply caught_log in Hc as [delta' [L' [F' N']]].
    exists (delta' ++ delta ++ [Attempt k]). rewrite L', L. simpl.
    split; [now rewrite <- !app_assoc|].
    split; [repeat (apply Forall_app; split); try assumption; repeat constructor|].
    split; [apply in_or_app; right; apply in_or_app; right; now left|].
    rewrite !invocations_app. simpl. rewrite N'. split; [lia|].
    split; intros E; [rewrite N2 | rewrite N3]; auto.
Qed.

End TurnLog.

(** ** The loop *)

Section Loop.

Variable env : Env.
Variable fetchFn : Z -> Settles Response.
Variable sig : ComposedSignal.
Variable retryPolicy : option RetryOptions.

Lemma after_sleep_continue rs le le' :
  after_sleep rs le = Normal (Continue le') -> rs = Normal tt /\ le' = le.
Proof.
  destruct rs as [[]|e]; simpl; intros H; [|discriminate].
  injection H as <-. now split.
Qed.

(** The loop goes on only while attempts remain. *)
Lemma turned_continue_lt k le w le' w' :
  turned env fetchFn sig retryPolicy k le w (Normal (Continue le')) w' ->
  (k < totalAttempts retryPolicy)%Z.
Proof.
  intros H. inversion H as [flow w0 Ht|e w1 r w0 Ht Hc]; subst.
  - inversion Ht as [| | | |res policy d w1 rs w2 He Hf Hh Hp Hs Hd Hsl]; subst.
    unfold should_retry in Hs.
    apply andb_true_iff in Hs as [_ Hs]. apply andb_true_iff in Hs as [_ Hs].
    now apply Z.ltb_lt.
  - inversion Hc; subst. assumption.
Qed.

(** The rule of the loop: what holds before each turn ([I]) and what
    holds when the request settles ([Q]). *)
Lemma attempts_rule (I : Z -> World -> Prop)
    (Q : Completion Response -> World -> Prop) :
  (forall k le w le' w',
      (k <= totalAttempts retryPolicy)%Z -> I k w ->
      turned env fetchFn sig retryPolicy k le w (Normal (Continue le')) w' ->
      I (k + 1)%Z w') ->
  (forall k le w res w',
      (k <= totalAttempts retryPolicy)%Z -> I k w ->
      turned env fetchFn sig retryPolicy k le w (Normal (Return res)) w' ->
      Q (Normal res) w') ->
  (forall k le w e w',
      (k <= totalAttempts retryPolicy)%Z -> I k w ->
      turned env fetchFn sig retryPolicy k le w (Throw e) w' ->
      Q (Throw e) w') ->
  forall n k le w,
    (0 < n)%nat -> (k + Z.of_nat n = totalAttempts retryPolicy + 1)%Z ->
    I k w ->
    Q (fst (attempts env fetchFn sig retryPolicy n k le w))
      (snd (attempts env fetchFn sig retryPolicy n k le w)).
Proof.
  intros Hstep Hret Hthrow n.
  induction n as [|n IH]; intros k le w Hn Hk HI; [lia|].
  assert (Hle : (k <= totalAttempts retryPolicy)%Z) by lia.
  cbn [attempts]. unfold bind.
  destruct (attempt_body env fetchFn sig retryPolicy k le w)
    as [[[res|le']|e] w'] eqn:Hb;
    apply attempt_body_turned in Hb.
  - simpl. eapply Hret; eassumption.
  - pose proof (turned_continue_lt _ _ _ _ _ Hb) as Hlt.
    apply IH; [lia | lia | eapply Hstep; eassumption].
  - simpl. eapply Hthrow; eassumption.
Qed.

(** With no turn to make, the request fails after a cleanup. *)
Lemma attempts_none k le w :
  attempts env fetchFn sig retryPolicy 0 k le w =
  (Throw (or_else le (mkError "Error" "Request failed")),
   cleaned (cleanup sig) w).
Proof. reflexivity. Qed.

(** At most one transport invocation per turn. *)
Lemma attempts_invocations n k le w :
  (k + Z.of_nat n = totalAttempts retryPolicy + 1)%Z ->
  (invocations (log (snd (attempts env fetchFn sig retryPolicy n k le w)))
   <= invocations (log w) + n)%nat.
Proof.
  intros Hk. destruct n as [|n].
  { rewrite attempts_none. simpl. rewrite log_cleaned. simpl. lia. }
  apply (attempts_rule
           (fun j w1 => (Z.of_nat (invocations (log w1))
                         <= Z.of_nat (invocations (log w)) + (j - k))%Z)
           (fun _ w1 => (invocations (log w1) <= invocations (log w) + S n)%nat));
    try (lia || assumption).
  - intros j le0 w0 le' w' Hj HI Ht.
    apply turned_log in Ht as [delta [L [_ [_ [N _]]]]].
    rewrite L, invocations_app. lia.
  - intros j le0 w0 res w' Hj HI Ht.
    apply turned_log in Ht as [delta [L [_ [_ [N _]]]]].
    rewrite L, invocations_app. lia.
  - intros j le0 w0 e w' Hj HI Ht.
    apply turned_log in Ht as [delta [L [_ [_ [N _]]]]].
    rewrite L, invocations_app. lia.
Qed.

(** A single turn with a passing pre-attempt hook invokes the transport
    exactly once. *)
Lemma attempts_single le w :
  hook_outcome (beforeRequest env) 1 = Normal tt ->
  invocations (log (snd (attempts env fetchFn sig retryPolicy 1 1 le w)))
  = S (invocations (log w)).
Proof.
  intros Hb. cbn [attempts]. unfold bind.
  destruct (attempt_body env fetchFn sig retryPolicy 1 le w)
    as [[[res|le']|e] w'] eqn:Hbody;
    pose proof (attempt_body_turned _ _ _ _ _ _ _ _ _ Hbody) as Ht;
    pose proof (turned_log _ _ _ _ _ _ _ _ _ Ht) as [delta [L [_ [_ [_ [N _]]]]]].
  - simpl. rewrite L, invocations_app, (N Hb). lia.
  - unfold call_cleanup, effect, throw. cbn [snd]. rewrite log_release. simpl. rewrite L, invocations_app, (N Hb). lia.
  - simpl. rewrite L, invocations_app, (N Hb). lia.
Qed.

(** A single turn whose pre-attempt hook throws does not invoke the
    transport. *)
Lemma attempts_single_blocked le w :
  hook_outcome (beforeRequest env) 1 <> Normal tt ->
  invocations (log (snd (attempts env fetchFn sig retryPolicy 1 1 le w)))
  = invocations (log w).
Proof.
  intros Hb. cbn [attempts]. unfold bind.
  destruct (attempt_body env fetchFn sig retryPolicy 1 le w)
    as [[[res|le']|e] w'] eqn:Hbody;
    pose proof (attempt_body_turned _ _ _ _ _ _ _ _ _ Hbody) as Ht;
    pose proof (turned_log _ _ _ _ _ _ _ _ _ Ht) as [delta [L [_ [_ [_ [_ N]]]]]].
  - simpl. rewrite L, invocations_app, (N Hb). lia.
  - unfold call_cleanup, effect, throw. cbn [snd]. rewrite log_release.
    simpl. rewrite L, invocations_app, (N Hb). lia.
  - simpl. rewrite L, invocations_app, (N Hb). lia.
Qed.

(** Without a policy, a response that the hooks let through is returned,
    whatever its status. *)
Lemma attempts_single_returns le w res :
  retryPolicy = None ->
  hook_outcome (beforeRequest env) 1 = Normal tt ->
  outcome (fetchFn 1) = Normal res ->
  hook_outcome (afterResponse env) 1 = Normal tt ->
  fst (attempts env fetchFn sig retryPolicy 1 1 le w) = Normal res.
Proof.
  intros Hp Hb Hf Ha. cbn [attempts]. unfold bind.
  destruct (attempt_body env fetchFn sig retryPolicy 1 le w)
    as [r w'] eqn:Hbody.
  apply attempt_body_turned in Hbody.
  inversion Hbody as [flow w0 Htry|e wt r0 w0 Htry Hc]; subst.
  - inversion Htry as [| | |res' He Hf' Hh Hs
                      |res' policy d w1 rs w2 He Hf' Hh Hp' Hs Hd Hsl]; subst.
    + simpl. congruence.
    + discriminate.
  - exfalso.
    inversion Htry as [e1 He|e1 He Hf'|res' e1 He Hf' Hh|
                      |res' policy d w1 rs w2 He Hf' Hh Hp' Hs Hd Hsl];
      subst; congruence.
Qed.

End Loop.

(** ** The request *)

Lemma requestWithRetry_no_fetch env us timeout policy w :
  fetch_of env = None ->
  requestWithRetry env us timeout policy w =
  (Throw (mkError "Error" "No fetch implementation available in this environment."), w).
Proof.
  unfold requestWithRetry. intros ->. reflexivity.
Qed.

Lemma requestWithRetry_fetch env us timeout policy w fetchFn :
  fetch_of env = Some fetchFn ->
  requestWithRetry env us timeout policy w =
  attempts env fetchFn (fst (composeSignal us (timeout_of env timeout) w)) policy
           (Z.to_nat (totalAttempts policy)) 1 None
           (snd (composeSignal us (timeout_of env timeout) w)).
Proof.
  unfold requestWithRetry. intros ->.
  now destruct (composeSignal us _ w).
Qed.

(** [composeSignal] logs at most the timer of the timeout. *)
Lemma log_composeSignal us tm w :
  log (snd (composeSignal us tm w)) = log w \/
  exists t,
    tm = Some t /\ 0 < t /\
    log (snd (composeSignal us tm w))
    = SetTimeout (next_timer w) AbortController_abort (now w + Qmax 0 t)
        :: log w.
Proof.
  unfold composeSignal.
  destruct (negb us && no_timeout tm); [now left|].
  destruct tm as [t|]; [|destruct us; now left].
  destruct (negb (Qeq_bool t 0) && negb (Qle_bool t 0)) eqn:E;
    [|destruct us; now left].
  right. apply andb_true_iff in E as [_ E]. apply negb_true_iff in E.
  assert (Hpos : 0 < t).
  { apply Qnot_le_lt. intros H. apply Qle_bool_iff in H. congruence. }
  exists t. split; [reflexivity|]. split; [assumption|].
  destruct us; reflexivity.
Qed.

Lemma signal_composeSignal us tm w :
  signal (fst (composeSignal us tm w)) = composed_present us tm.
Proof.
  unfold composeSignal, composed_present.
  destruct (negb us && no_timeout tm); [reflexivity|].
  destruct tm as [t|]; [|reflexivity].
  destruct (negb (Qeq_bool t 0) && negb (Qle_bool t 0)); reflexivity.
Qed.

Lemma invocations_composeSignal us tm w :
  invocations (log (snd (composeSignal us tm w))) = invocations (log w).
Proof.
  destruct (log_composeSignal us tm w) as [->|[t [_ [_ ->]]]]; reflexivity.
Qed.

(** The number of transport invocations of a request is bounded by the
    total number of attempts. *)
Lemma invocations_bounded env us timeout policy w :
  (1 <= totalAttempts policy)%Z ->
  (Z.of_nat (invocations (log (snd (requestWithRetry env us timeout policy w))))
   <= Z.of_nat (invocations (log w)) + totalAttempts policy)%Z.
Proof.
  intros Htot. destruct (fetch_of env) as [fetchFn|] eqn:Hf.
  - rewrite (requestWithRetry_fetch _ _ _ _ _ _ Hf).
    match goal with
    | |- context [attempts ?e ?f ?s ?p ?n ?k ?le ?x] =>
        pose proof (attempts_invocations e f s p n k le x) as H
    end.
    rewrite invocations_composeSignal in H. lia.
  - rewrite (requestWithRetry_no_fetch _ _ _ _ _ Hf). simpl. lia.
Qed.

(** With a single attempt and a passing pre-attempt hook, exactly one. *)
Lemma invocations_single env us timeout policy w :
  totalAttempts policy = 1%Z ->
  fetch_of env <> None ->
  hook_outcome (beforeRequest env) 1 = Normal tt ->
  invocations (log (snd (requestWithRetry env us timeout policy w)))
  = S (invocations (log w)).
Proof.
  intros Htot Hf Hb. destruct (fetch_of env) as [fetchFn|] eqn:E;
    [|congruence].
  rewrite (requestWithRetry_fetch _ _ _ _ _ _ E), Htot.
  change (Z.to_nat 1) with 1%nat.
  rewrite attempts_single by assumption.
  now rewrite invocations_composeSignal.
Qed.

(** With a single attempt and a pre-attempt hook that throws, none. *)
Lemma invocations_blocked env us timeout policy w :
  totalAttempts policy = 1%Z ->
  hook_outcome (beforeRequest env) 1 <> Normal tt ->
  invocations (log (snd (requestWithRetry env us timeout policy w)))
  = invocations (log w).
Proof.
  intros Htot Hb. destruct (fetch_of env) as [fetchFn|] eqn:E.
  - rewrite (requestWithRetry_fetch _ _ _ _ _ _ E), Htot.
    change (Z.to_nat 1) with 1%nat.
    rewrite attempts_single_blocked by assumption.
    now rewrite invocations_composeSignal.
  - now rewrite (requestWithRetry_no_fetch _ _ _ _ _ E).
Qed.

(** ** The waits of a turn *)

Lemma turn_event_attempt k sg e j :
  turn_event k sg e -> attempt_of e = Some j -> j = k.
Proof.
  destruct e; simpl; intros H E; try discriminate; injection E as <-;
    try tauto; try (symmetry; exact H).
Qed.

Lemma attempts_below_app k delta l sg :
  Forall (turn_event k sg) delta -> attempts_below k l ->
  attempts_below (k + 1) (delta ++ l).
Proof.
  intros F B e j Hin E. apply in_app_or in Hin as [Hin|Hin].
  - rewrite Forall_forall in F. pose proof (turn_event_attempt _ _ _ _ (F e Hin) E).
    lia.
  - pose proof (B e j Hin E). lia.
Qed.

Lemma stable_hook_world (J : World -> Prop) hook e k w :
  stable J -> J w -> J (hook_world hook e k w).
Proof.
  intros S H. destruct hook; simpl; [|assumption].
  apply (stable_elapse J S), (stable_record J S), H.
Qed.

Lemma In_hook_events hook e x : In x (hook_events hook e) -> x = e.
Proof. destruct hook; simpl; [intros [<-|[]]; reflexivity | intros []]. Qed.

Section Waits.

Variable env : Env.
Variable fetchFn : Z -> Settles Response.
Variable sig : ComposedSignal.
Variable retryPolicy : option RetryOptions.
Variable J : World -> Prop.
Hypothesis J_stable : stable J.

Lemma stable_world_after_hooks k w :
  J w -> J (world_after_hooks env fetchFn sig k w).
Proof.
  intros H. unfold world_after_hooks, world_after_fetch, world_at_fetch.
  apply stable_hook_world; [assumption|].
  apply (stable_elapse J J_stable), (stable_record J J_stable).
  now apply stable_hook_world.
Qed.

Lemma stamp_ok_hook_world hook e k w : stamp_ok w (hook_world hook e k w).
Proof.
  destruct hook; simpl; [|apply stamp_ok_refl].
  eapply stamp_ok_trans; [|apply stamp_ok_elapse].
  apply stamp_ok_same; [apply Qle_refl | reflexivity].
Qed.

Lemma stamp_ok_record e w : stamp_ok w (record e w).
Proof. apply stamp_ok_same; [apply Qle_refl | reflexivity]. Qed.

Lemma stamp_ok_world_after_fetch k w :
  stamp_ok w (world_after_fetch env fetchFn sig k w).
Proof.
  unfold world_after_fetch, world_at_fetch.
  eapply stamp_ok_trans; [apply stamp_ok_hook_world|].
  eapply stamp_ok_trans; [apply stamp_ok_record | apply stamp_ok_elapse].
Qed.

Lemma stamp_ok_world_after_hooks k w :
  stamp_ok w (world_after_hooks env fetchFn sig k w).
Proof.
  unfold world_after_hooks.
  eapply stamp_ok_trans; [apply stamp_ok_world_after_fetch|].
  apply stamp_ok_hook_world.
Qed.

Lemma stamp_ok_random w w1 :
  w1 = w \/ (exists n, w1 = set_random_calls n w) -> stamp_ok w w1.
Proof.
  intros [->|[n ->]]; [apply stamp_ok_refl|].
  apply stamp_ok_same; [apply Qle_refl | reflexivity].
Qed.

Lemma stable_random_world w w1 :
  w1 = w \/ (exists n, w1 = set_random_calls n w) -> J w -> J w1.
Proof.
  intros [->|[n ->]] H; [assumption|]. now apply (stable_random J J_stable).
Qed.

Lemma stamp_ok_cleaned c w : stamp_ok w (cleaned c w).
Proof.
  unfold cleaned. eapply stamp_ok_trans;
    [apply stamp_ok_record | apply stamp_ok_release].
Qed.



Lemma sleep_in_hook_world hook e k w x :
  is_sleep x -> ~ is_sleep e ->
  In x (log (hook_world hook e k w)) -> In x (log w).
Proof.
  intros Hx He H. rewrite log_hook_world in H.
  apply in_app_or in H as [H|H]; [|assumption].
  apply In_hook_events in H. subst. contradiction.
Qed.

Lemma sleep_in_after_fetch k w x :
  is_sleep x ->
  In x (log (world_after_fetch env fetchFn sig k w)) -> In x (log w).
Proof.
  intros Hx H. rewrite log_world_after_fetch in H.
  apply in_inv in H as [<-|H]; [contradiction|].
  apply in_app_or in H as [H|H]; [|assumption].
  apply In_hook_events in H. subst. contradiction.
Qed.

Lemma sleep_in_after_hooks k w x :
  is_sleep x ->
  In x (log (world_after_hooks env fetchFn sig k w)) -> In x (log w).
Proof.
  intros Hx H. unfold world_after_hooks in H.
  apply sleep_in_hook_world in H; [|assumption|exact (fun f => f)].
  now apply sleep_in_after_fetch in H.
Qed.

(** The [Sleep] event a wait logs is the only one it adds. *)
Lemma wait_found k at_ ms s w1 d rs w2 :
  sleep d (signal sig) (record (Sleep k (now w1) d (signal sig)) w1) = (rs, w2) ->
  In (Sleep k at_ ms s) (log w2) ->
  ~ In (Sleep k at_ ms s) (log w1) ->
  at_ = now w1 /\ ms = d /\ s = signal sig.
Proof.
  intros Hsl Hin Hold. apply log_wait in Hsl as [timer [L [_ [_ Ft]]]].
  rewrite L in Hin. apply in_app_or in Hin as [Hin|Hin].
  - apply Ft in Hin. discriminate.
  - apply in_inv in Hin as [Hin|Hin]; [|contradiction].
    injection Hin as <- <- <-. repeat split.
Qed.

(** How the [try] block throws: before any wait, or by the rejection of
    its wait. *)
Lemma tried_throw k le w e wt :
  tried env fetchFn sig retryPolicy k le w (Throw e) wt ->
  J w ->
  (J wt /\ stamp_ok w wt /\
   forall x, is_sleep x -> In x (log wt) -> In x (log w)) \/
  (exists w1 d,
      J w1 /\ stamp_ok w w1 /\
      (forall x, is_sleep x -> In x (log w1) -> In x (log w)) /\
      sleep d (signal sig) (record (Sleep k (now w1) d (signal sig)) w1)
      = (Throw AbortedException, wt) /\
      e = AbortedException).
Proof.
  intros Ht HJ.
  inversion Ht as [e0 He|e0 He Hf|res e0 He Hf Hh|
                  |res policy d w1 rs w2 He Hf Hh Hp Hs Hd Hsl]; subst.
  - left. split; [now apply stable_hook_world|].
    split; [apply stamp_ok_hook_world|].
    intros x Hx H. eapply sleep_in_hook_world; [exact Hx| |exact H].
    exact (fun f => f).
  - left. split.
    { unfold world_after_fetch, world_at_fetch.
      apply (stable_elapse J J_stable), (stable_record J J_stable).
      now apply stable_hook_world. }
    split; [apply stamp_ok_world_after_fetch|].
    intros x Hx H. eapply sleep_in_after_fetch; eassumption.
  - left. split; [now apply stable_world_after_hooks|].
    split; [apply stamp_ok_world_after_hooks|].
    intros x Hx H. eapply sleep_in_after_hooks; eassumption.
  - right. destruct rs as [[]|e0]; [discriminate|].
    match goal with H : after_sleep _ _ = Throw _ |- _ =>
      simpl in H; injection H as -> end.
    pose proof (sleep_outcome _ _ _ _ _ Hsl) as [E|E]; [discriminate|].
    injection E as ->.
    pose proof (retry_delay_world _ _ _ _ _ _ _ Hd) as [Hw1 _].
    exists w1, d. split.
    { apply (stable_random_world _ _ Hw1). now apply stable_world_after_hooks. }
    split.
    { eapply stamp_ok_trans; [apply stamp_ok_world_after_hooks|].
      apply stamp_ok_random; exact Hw1. }
    split; [|split; [assumption|reflexivity]].
    intros x Hx H. rewrite (delay_log _ _ _ _ _ _ _ Hd) in H.
    eapply sleep_in_after_hooks; eassumption.
Qed.

(** A [Sleep] event of turn [k] is the one wait of that turn: it starts
    in a world [w1] the turn has reached, and the turn goes on exactly
    when it resolves. *)
Lemma turned_wait k le w r w' at_ ms s :
  turned env fetchFn sig retryPolicy k le w r w' ->
  J w -> attempts_below k (log w) ->
  In (Sleep k at_ ms s) (log w') ->
  exists w1 rs w2,
    J w1 /\ stamp_ok w w1 /\ at_ = now w1 /\ s = signal sig /\
    sleep ms s (record (Sleep k at_ ms s) w1) = (rs, w2) /\
    ((rs = Normal tt /\ w' = w2 /\ exists le', r = Normal (Continue le')) \/
     (rs = Throw AbortedException /\ r = Throw AbortedException /\
      (w' = w2 \/ w' = cleaned (cleanup sig) w2))).
Proof.
  intros Ht HJ Hbelow Hin.
  assert (Hold : ~ In (Sleep k at_ ms s) (log (record (Attempt k) w))).
  { intros [H|H]; [discriminate|]. specialize (Hbelow _ k H eq_refl). lia. }
  assert (HJ0 : J (record (Attempt k) w))
    by now apply (stable_record J J_stable).
  assert (S0 : stamp_ok w (record (Attempt k) w)) by apply stamp_ok_record.
  inversion Ht as [flow w0 Htry|e wt r0 w0 Htry Hc]; subst.
  - (* the [try] block completes *)
    inversion Htry as [| | |res He Hf Hh Hs
                      |res policy d w1 rs w2 He Hf Hh Hp Hs Hd Hsl]; subst.
    + rewrite log_cleaned in Hin. apply in_inv in Hin as [Hin|Hin];
        [discriminate|].
      apply sleep_in_after_hooks in Hin; [contradiction|exact I].
    + pose proof (retry_delay_world _ _ _ _ _ _ _ Hd) as [Hw1 _].
      destruct (wait_found _ _ _ _ _ _ _ _ Hsl Hin) as [-> [-> ->]].
      { rewrite (delay_log _ _ _ _ _ _ _ Hd). intros Hmem.
        apply sleep_in_after_hooks in Hmem; [contradiction|exact I]. }
      destruct rs as [[]|e]; [|discriminate].
      exists w1, (Normal tt), w'.
      split.
      { apply (stable_random_world _ _ Hw1).
        now apply stable_world_after_hooks. }
      split.
      { eapply stamp_ok_trans; [exact S0|].
        eapply stamp_ok_trans; [apply stamp_ok_world_after_hooks|].
        apply stamp_ok_random; exact Hw1. }
      repeat split; try assumption.
      left. split; [reflexivity|]. split; [reflexivity|]. eexists. reflexivity.
  - (* the [try] block throws *)
    destruct (tried_throw _ _ _ _ _ Htry HJ0)
      as [[HJt [St Hnew]]|[w1 [d [HJ1 [S1 [Hnew [Hsl ->]]]]]]].
    + inversion Hc as [Hfin|policy d w1 rs w2 Hab Hp Hlt Hd Hsl]; subst.
      * rewrite log_cleaned in Hin. apply in_inv in Hin as [Hin|Hin];
          [discriminate|].
        apply Hnew in Hin; [contradiction|exact I].
      * pose proof (backoff_world _ _ _ _ _ _ Hd) as [Hw1 _].
        destruct (wait_found _ _ _ _ _ _ _ _ Hsl Hin) as [-> [-> ->]].
        { rewrite (backoff_log _ _ _ _ _ _ Hd). intros Hmem.
          apply Hnew in Hmem; [contradiction|exact I]. }
        exists w1, rs, w'.
        split; [now apply (stable_random_world _ _ Hw1)|].
        split.
        { eapply stamp_ok_trans; [exact S0|].
          eapply stamp_ok_trans; [exact St|]. apply stamp_ok_random; exact Hw1. }
        repeat split; try assumption.
        destruct (sleep_outcome _ _ _ _ _ Hsl) as [-> | ->].
        -- left. split; [reflexivity|]. split; [reflexivity|].
           eexists. reflexivity.
        -- right. split; [reflexivity|]. split; [reflexivity|]. now left.
    + inversion Hc as [Hfin|policy d' w1' rs w2 Hab Hp Hlt Hd Hsl']; subst;
        [|discriminate].
      rewrite log_cleaned in Hin. apply in_inv in Hin as [Hin|Hin];
        [discriminate|].
      destruct (wait_found _ _ _ _ _ _ _ _ Hsl Hin) as [-> [-> ->]].
      { intros Hmem. apply Hnew in Hmem; [contradiction|exact I]. }
      exists w1, (Throw AbortedException), wt.
      split; [assumption|].
      split; [eapply stamp_ok_trans; [exact S0|exact S1]|].
      repeat split; try assumption.
      right. split; [reflexivity|]. split; [reflexivity|]. now right.
Qed.

(** A turn after which the loop goes on keeps what the waits keep. *)
Lemma turned_continue_stable k le w le' w' :
  turned env fetchFn sig retryPolicy k le w (Normal (Continue le')) w' ->
  J w -> J w'.
Proof.
  intros Ht HJ.
  assert (HJ0 : J (record (Attempt k) w))
    by now apply (stable_record J J_stable).
  inversion Ht as [flow w0 Htry|e wt r0 w0 Htry Hc]; subst.
  - inversion Htry as [| | | |res policy d w1 rs w2 He Hf Hh Hp Hs Hd Hsl];
      subst.
    pose proof (retry_delay_world _ _ _ _ _ _ _ Hd) as [Hw1 _].
    eapply (stable_sleep J J_stable); [|exact Hsl].
    apply (stable_record J J_stable), (stable_random_world _ _ Hw1).
    now apply stable_world_after_hooks.
  - destruct (tried_throw _ _ _ _ _ Htry HJ0)
      as [[HJt _]|[w1 [d [_ [_ [_ [_ ->]]]]]]].
    + inversion Hc as [|policy d w1 rs w2 Hab Hp Hlt Hd Hsl]; subst.
      pose proof (backoff_world _ _ _ _ _ _ Hd) as [Hw1 _].
      eapply (stable_sleep J J_stable); [|exact Hsl].
      apply (stable_record J J_stable), (stable_random_world _ _ Hw1), HJt.
    + inversion Hc as [|policy d' w1' rs w2 Hab Hp Hlt Hd Hsl']; subst.
      discriminate.
Qed.

End Waits.

(** ** Properties of the turn an event belongs to *)

Section Generic.

Variable env : Env.
Variable fetchFn : Z -> Settles Response.
Variable sig : ComposedSignal.
Variable retryPolicy : option RetryOptions.

Lemma attempts_within_turn k0 k delta l :
  (k0 <= k)%Z ->
  Forall (turn_event k (signal sig)) delta -> attempts_within k0 k l ->
  attempts_within k0 (k + 1) (delta ++ l).
Proof.
  intros Hk F B e j Hin E. apply in_app_or in Hin as [Hin|Hin].
  - rewrite Forall_forall in F.
    pose proof (turn_event_attempt _ _ _ _ (F e Hin) E). lia.
  - pose proof (B e j Hin E). lia.
Qed.

Lemma attempts_within_below k0 k l :
  attempts_within k0 k l -> attempts_below k l.
Proof. intros H e j Hin E. apply (H e j Hin E). Qed.

(** An event of attempt [N] in the log after turn [k] is old or [N = k]. *)
Lemma turn_event_old_or_new k0 k delta l e N :
  Forall (turn_event k (signal sig)) delta -> attempts_within k0 k l ->
  In e (delta ++ l) -> attempt_of e = Some N ->
  (In e l /\ (N < k)%Z) \/ N = k.
Proof.
  intros F B Hin E. apply in_app_or in Hin as [Hin|Hin].
  - right. rewrite Forall_forall in F.
    exact (turn_event_attempt _ _ _ _ (F e Hin) E).
  - left. split; [assumption|]. apply (B e N Hin E).
Qed.

(** If a condition on attempt [N] makes its turn the last one, the
    request settles as that turn does, and no later attempt starts. *)
Lemma attempts_last_turn (cond : Z -> Prop)
    (R : Z -> Completion Response -> Prop) :
  (forall k le w le' w',
      turned env fetchFn sig retryPolicy k le w (Normal (Continue le')) w' ->
      ~ cond k) ->
  (forall k le w res w',
      turned env fetchFn sig retryPolicy k le w (Normal (Return res)) w' ->
      cond k -> R k (Normal res)) ->
  (forall k le w e w',
      turned env fetchFn sig retryPolicy k le w (Throw e) w' ->
      cond k -> R k (Throw e)) ->
  forall n k0 le w,
    (n = 0%nat \/ k0 + Z.of_nat n = totalAttempts retryPolicy + 1)%Z ->
    attempts_within k0 k0 (log w) ->
    forall N,
      In (Attempt N) (log (snd (attempts env fetchFn sig retryPolicy n k0 le w))) ->
      cond N ->
      R N (fst (attempts env fetchFn sig retryPolicy n k0 le w)) /\
      attempts_below (N + 1)
        (log (snd (attempts env fetchFn sig retryPolicy n k0 le w))).
Proof.
  intros Hgo Hret Hthrow n k0 le w Hk H0.
  destruct n as [|n].
  { rewrite attempts_none. cbn [fst snd]. rewrite log_cleaned.
    intros N [Hin|Hin] _; [discriminate|].
    specialize (H0 _ N Hin eq_refl). lia. }
  apply (attempts_rule env fetchFn sig retryPolicy
           (fun k w1 => (k0 <= k)%Z /\ attempts_within k0 k (log w1) /\
                        forall N, In (Attempt N) (log w1) -> ~ cond N)
           (fun r w1 => forall N, In (Attempt N) (log w1) -> cond N ->
                                  R N r /\ attempts_below (N + 1) (log w1)));
    try (lia || assumption).
  - intros k le0 w0 le' w' _ [Hk0 [Hw Hold]] Ht.
    pose proof (turned_log _ _ _ _ _ _ _ _ _ Ht) as [delta [L [F _]]].
    split; [lia|]. split; [rewrite L; now apply attempts_within_turn|].
    intros N Hin. rewrite L in Hin.
    destruct (turn_event_old_or_new _ _ _ _ _ N F Hw Hin eq_refl)
      as [[Hin' _]| ->]; [now apply Hold | eapply Hgo; exact Ht].
  - intros k le0 w0 res w' _ [Hk0 [Hw Hold]] Ht N Hin Hc.
    pose proof (turned_log _ _ _ _ _ _ _ _ _ Ht) as [delta [L [F _]]].
    rewrite L in Hin.
    destruct (turn_event_old_or_new _ _ _ _ _ N F Hw Hin eq_refl)
      as [[Hin' _]| ->]; [now apply Hold in Hin'|].
    split; [eapply Hret; eassumption|].
    rewrite L. eapply attempts_below_app; [exact F|].
    now apply attempts_within_below with (k0 := k0).
  - intros k le0 w0 e w' _ [Hk0 [Hw Hold]] Ht N Hin Hc.
    pose proof (turned_log _ _ _ _ _ _ _ _ _ Ht) as [delta [L [F _]]].
    rewrite L in Hin.
    destruct (turn_event_old_or_new _ _ _ _ _ N F Hw Hin eq_refl)
      as [[Hin' _]| ->]; [now apply Hold in Hin'|].
    split; [eapply Hthrow; eassumption|].
    rewrite L. eapply attempts_below_app; [exact F|].
    now apply attempts_within_below with (k0 := k0).
  - split; [lia|]. split; [assumption|].
    intros N Hin. specialize (H0 _ N Hin eq_refl). lia.
Qed.

(** If a condition on attempt [N] makes its turn log an event, the event
    is in the log of the request. *)
Lemma attempts_event (cond : Z -> Prop) (E : Z -> Event -> Prop) :
  (forall k le w r w',
      turned env fetchFn sig retryPolicy k le w r w' ->
      cond k -> exists ev, In ev (log w') /\ E k ev) ->
  forall n k0 le w,
    (n = 0%nat \/ k0 + Z.of_nat n = totalAttempts retryPolicy + 1)%Z ->
    attempts_within k0 k0 (log w) ->
    forall N,
      In (Attempt N) (log (snd (attempts env fetchFn sig retryPolicy n k0 le w))) ->
      cond N ->
      exists ev,
        In ev (log (snd (attempts env fetchFn sig retryPolicy n k0 le w))) /\
        E N ev.
Proof.
  intros Hturn n k0 le w Hk H0.
  destruct n as [|n].
  { rewrite attempts_none. cbn [fst snd]. rewrite log_cleaned.
    intros N [Hin|Hin] _; [discriminate|].
    specialize (H0 _ N Hin eq_refl). lia. }
  assert (Hany : forall k le0 w0 r w',
             (k0 <= k)%Z /\ attempts_within k0 k (log w0) /\
             (forall N, In (Attempt N) (log w0) -> cond N ->
                        exists ev, In ev (log w0) /\ E N ev) ->
             turned env fetchFn sig retryPolicy k le0 w0 r w' ->
             (k0 <= k + 1)%Z /\ attempts_within k0 (k + 1) (log w') /\
             (forall N, In (Attempt N) (log w') -> cond N ->
                        exists ev, In ev (log w') /\ E N ev)).
  { intros k le0 w0 r w' [Hk0 [Hw Hold]] Ht.
    pose proof (turned_log _ _ _ _ _ _ _ _ _ Ht) as [delta [L [F _]]].
    split; [lia|]. split; [rewrite L; now apply attempts_within_turn|].
    intros N Hin Hc. pose proof Hin as Hin0. rewrite L in Hin.
    destruct (turn_event_old_or_new _ _ _ _ _ N F Hw Hin eq_refl)
      as [[Hin' _]| ->].
    - destruct (Hold N Hin' Hc) as [ev [Hev HE]]. exists ev.
      split; [|assumption]. rewrite L. apply in_or_app. now right.
    - eapply Hturn; eassumption. }
  apply (attempts_rule env fetchFn sig retryPolicy
           (fun k w1 => (k0 <= k)%Z /\ attempts_within k0 k (log w1) /\
                        forall N, In (Attempt N) (log w1) -> cond N ->
                                  exists ev, In ev (log w1) /\ E N ev)
           (fun r w1 => forall N, In (Attempt N) (log w1) -> cond N ->
                                  exists ev, In ev (log w1) /\ E N ev));
    try (lia || assumption).
  - intros k le0 w0 le' w' _ HI Ht. exact (Hany _ _ _ _ _ HI Ht).
  - intros k le0 w0 res w' _ HI Ht. exact (proj2 (proj2 (Hany _ _ _ _ _ HI Ht))).
  - intros k le0 w0 e w' _ HI Ht. exact (proj2 (proj2 (Hany _ _ _ _ _ HI Ht))).
  - split; [lia|]. split; [assumption|].
    intros N Hin. specialize (H0 _ N Hin eq_refl). lia.
Qed.

End Generic.

(** ** Failures and hints within a turn *)

Lemma parseRetryAfter_any_time P t t' res h :
  parseRetryAfter P t res = Some h ->
  exists h', parseRetryAfter P t' res = Some h'.
Proof.
  unfold parseRetryAfter.
  destruct (retry_after res) as [[|c ra]|]; try discriminate.
  destruct (js_Number P (String c ra)); [eauto|].
  destruct (js_Date_getTime P (String c ra)); [eauto|discriminate].
Qed.

Section TurnProps.

Variable env : Env.
Variable fetchFn : Z -> Settles Response.
Variable sig : ComposedSignal.
Variable retryPolicy : option RetryOptions.

(** A failure before the wait: rethrown when final, followed by a backoff
    wait otherwise. *)
Lemma turned_fails k le w r w' e :
  turned env fetchFn sig retryPolicy k le w r w' ->
  attempt_fails env fetchFn k e ->
  (final_failure retryPolicy k e -> r = Throw e) /\
  (forall policy,
      isAbortError e = false -> retryPolicy = Some policy ->
      (k < totalAttempts retryPolicy)%Z ->
      exists at_ n,
        In (Sleep k at_ (backoffDelay (js_random (platform env) n) k policy)
                  (signal sig)) (log w')).
Proof.
  intros Ht Hfail.
  assert (Hno : forall res,
             hook_outcome (beforeRequest env) k = Normal tt ->
             outcome (fetchFn k) = Normal res ->
             hook_outcome (afterResponse env) k = Normal tt -> False).
  { intros res Hb Hf Ha.
    destruct Hfail as [H|[[_ H]|[_ [_ H]]]];
      unfold before_fails in *; congruence. }
  inversion Ht as [flow w0 Htry|e0 wt r0 w0 Htry Hc]; subst.
  - exfalso.
    inversion Htry as [| | |res He Hf Hh Hs
                      |res policy d w1 rs w2 He Hf Hh Hp Hs Hd Hsl]; subst;
      eapply Hno; eassumption.
  - assert (e0 = e) as ->.
    { inversion Htry as [e1 He|e1 He Hf|res e1 He Hf Hh|
                        |res policy d w1 rs w2 He Hf Hh Hp Hs Hd Hsl]; subst.
      - destruct Hfail as [H|[[H _]|[H _]]];
          unfold before_fails in *; congruence.
      - destruct Hfail as [H|[[_ H]|[_ [[res H] _]]]];
          unfold before_fails in *; congruence.
      - destruct Hfail as [H|[[_ H]|[_ [_ H]]]];
          unfold before_fails in *; congruence.
      - exfalso. eapply Hno; eassumption. }
    inversion Hc as [Hfin|policy d w1 rs w2 Hab Hp Hlt Hd Hsl]; subst.
    + split; [reflexivity|].
      intros policy Hab Hp Hlt.
      destruct Hfin as [H|[H|H]]; [congruence|congruence|lia].
    + split.
      { intros [H|[H|H]]; [congruence|congruence|lia]. }
      intros policy' _ Hp' _. injection Hp' as <-.
      pose proof (backoff_world _ _ _ _ _ _ Hd) as [_ ->].
      apply log_wait in Hsl as [timer [L _]].
      exists (now w1), (random_calls wt). rewrite L.
      apply in_or_app. right. now left.
Qed.

(** A retried response with a respected, parseable Retry-After header:
    the wait lasts what the header says. *)
Lemma turned_hint k le w r w' policy res :
  turned env fetchFn sig retryPolicy k le w r w' ->
  retryPolicy = Some policy ->
  hinted_retry env fetchFn policy k res ->
  exists ev,
    In ev (log w') /\
    exists at_ ms,
      ev = Sleep k at_ ms (signal sig) /\
      parseRetryAfter (platform env) at_ res = Some ms.
Proof.
  intros Ht Hp [Hb [Hf [Ha [Hok [Hst [Hlt [Hresp [t [h Hparse]]]]]]]]].
  assert (Hs : should_retry retryPolicy k res = true).
  { unfold should_retry. rewrite Hp, Hok, Hst. simpl.
    apply Z.ltb_lt. unfold totalAttempts. exact Hlt. }
  assert (Hwait : forall d w1 rs w2 res',
             outcome (fetchFn k) = Normal res' ->
             retry_delay env policy k res'
               (world_after_hooks env fetchFn sig k (record (Attempt k) w))
             = (Normal d, w1) ->
             sleep d (signal sig) (record (Sleep k (now w1) d (signal sig)) w1)
             = (rs, w2) ->
             In (Sleep k (now w1) d (signal sig)) (log w2) /\
             parseRetryAfter (platform env) (now w1) res = Some d).
  { intros d w1 rs w2 res' Hf' Hd Hsl.
    assert (res' = res) as -> by congruence.
    apply log_wait in Hsl as [timer [L _]].
    split; [rewrite L; apply in_or_app; right; now left|].
    unfold retry_delay in Hd. rewrite Hresp in Hd.
    destruct (parseRetryAfter_any_time _ _
                (now (world_after_hooks env fetchFn sig k (record (Attempt k) w)))
                _ _ Hparse) as [h' Hh'].
    rewrite Hh' in Hd. injection Hd as <- <-. exact Hh'. }
  inversion Ht as [flow w0 Htry|e0 wt r0 w0 Htry Hc]; subst.
  - inversion Htry as [| | |res' He Hf' Hh Hs'
                      |res' policy' d w1 rs w2 He Hf' Hh Hp' Hs' Hd Hsl]; subst.
    + assert (res' = res) as -> by congruence. congruence.
    + injection Hp' as <-.
      destruct (Hwait _ _ _ _ _ Hf' Hd Hsl) as [Hin Hpar].
      eexists. split; [exact Hin|]. eauto.
  - inversion Htry as [e1 He|e1 He Hf'|res' e1 He Hf' Hh|
                      |res' policy' d w1 rs w2 He Hf' Hh Hp' Hs' Hd Hsl];
      subst; try congruence.
    injection Hp' as <-.
    destruct (Hwait _ _ _ _ _ Hf' Hd Hsl) as [Hin Hpar].
    assert (Hkeep : In (Sleep k (now w1) d (signal sig)) (log w')).
    { inversion Hc as [Hfin|policy' d' w1' rs' w2' Hab Hp' Hlt' Hd' Hsl'];
        subst.
      - rewrite log_cleaned. now right.
      - apply log_wait in Hsl' as [timer [L _]].
        rewrite L, (backoff_log _ _ _ _ _ _ Hd').
        apply in_or_app. right. now right. }
    eexists. split; [exact Hkeep|]. eauto.
Qed.

End TurnProps.

(** ** An abort before the end of a wait *)

Lemma stable_True : stable (fun _ => True).
Proof. split; intros; exact I. Qed.

Section Abort.

Variable env : Env.
Variable fetchFn : Z -> Settles Response.
Variable sig : ComposedSignal.
Variable retryPolicy : option RetryOptions.

Lemma tried_stamp_ok k le w r w' :
  tried env fetchFn sig retryPolicy k le w r w' -> stamp_ok w w'.
Proof.
  intros Ht.
  inversion Ht as [e0 He|e0 He Hf|res e0 He Hf Hh|res He Hf Hh Hs
                  |res policy d w1 rs w2 He Hf Hh Hp Hs Hd Hsl]; subst.
  - apply stamp_ok_hook_world.
  - apply stamp_ok_world_after_fetch.
  - apply stamp_ok_world_after_hooks.
  - eapply stamp_ok_trans; [apply stamp_ok_world_after_hooks|].
    apply stamp_ok_cleaned.
  - pose proof (retry_delay_world _ _ _ _ _ _ _ Hd) as [Hw1 _].
    eapply stamp_ok_trans; [apply stamp_ok_world_after_hooks|].
    eapply stamp_ok_trans; [apply stamp_ok_random; exact Hw1|].
    eapply stamp_ok_trans; [apply stamp_ok_record|].
    eapply stamp_ok_sleep; exact Hsl.
Qed.

Lemma caught_stamp_ok k e w r w' :
  caught env sig retryPolicy k e w r w' -> stamp_ok w w'.
Proof.
  intros Hc. inversion Hc as [Hfin|policy d w1 rs w2 Hab Hp Hlt Hd Hsl]; subst.
  - apply stamp_ok_cleaned.
  - pose proof (backoff_world _ _ _ _ _ _ Hd) as [Hw1 _].
    eapply stamp_ok_trans; [apply stamp_ok_random; exact Hw1|].
    eapply stamp_ok_trans; [apply stamp_ok_record|].
    eapply stamp_ok_sleep; exact Hsl.
Qed.

Lemma turned_stamp_ok k le w r w' :
  turned env fetchFn sig retryPolicy k le w r w' -> stamp_ok w w'.
Proof.
  intros Ht. inversion Ht as [flow w0 Htry|e0 wt r0 w0 Htry Hc]; subst.
  - eapply stamp_ok_trans; [apply stamp_ok_record|].
    eapply tried_stamp_ok; exact Htry.
  - eapply stamp_ok_trans; [apply stamp_ok_record|].
    eapply stamp_ok_trans; [eapply tried_stamp_ok; exact Htry|].
    eapply caught_stamp_ok; exact Hc.
Qed.

Lemma waits_ended_later w w' N at_ ms :
  waits_ended w -> stamp_ok w w' -> In (Sleep N at_ ms true) (log w) ->
  at_ + Qmax 0 ms <= now w' /\
  forall F r, aborted (composed w') = Some (F, r) -> at_ + Qmax 0 ms <= F.
Proof.
  intros Hw [Hn Hs] Hin. destruct (Hw N at_ ms Hin) as [H1 H2]. split.
  - eapply Qle_trans; eassumption.
  - intros F r Ha. destruct (Hs F r Ha) as [Ha'|Hle].
    + exact (H2 F r Ha').
    + eapply Qle_trans; eassumption.
Qed.

(** If the composed signal fired before a wait was due to end, the request
    fails with the rejection of that wait, and no later attempt starts. *)
Lemma attempts_abort_in_wait n k0 le w :
  (n = 0%nat \/ k0 + Z.of_nat n = totalAttempts retryPolicy + 1)%Z ->
  attempts_within k0 k0 (log w) ->
  forall N at_ ms F r,
    In (Sleep N at_ ms true)
       (log (snd (attempts env fetchFn sig retryPolicy n k0 le w))) ->
    aborted (composed (snd (attempts env fetchFn sig retryPolicy n k0 le w)))
    = Some (F, r) ->
    F < at_ + Qmax 0 ms ->
    fst (attempts env fetchFn sig retryPolicy n k0 le w) = Throw AbortedException /\
    attempts_below (N + 1)
      (log (snd (attempts env fetchFn sig retryPolicy n k0 le w))).
Proof.
  intros Hk H0.
  destruct n as [|n].
  { rewrite attempts_none. cbn [fst snd]. rewrite log_cleaned.
    intros N at_ ms F r [Hin|Hin] _ _; [discriminate|].
    specialize (H0 _ N Hin eq_refl). lia. }
  assert (Hterm : forall k le0 w0 r0 w' N at_ ms F r,
             attempts_within k0 k (log w0) -> waits_ended w0 ->
             turned env fetchFn sig retryPolicy k le0 w0 r0 w' ->
             (forall le', r0 <> Normal (Continue le')) ->
             In (Sleep N at_ ms true) (log w') ->
             aborted (composed w') = Some (F, r) ->
             F < at_ + Qmax 0 ms ->
             r0 = Throw AbortedException /\ attempts_below (N + 1) (log w')).
  { intros k le0 w0 r0 w' N at_ ms F r Hw He Ht Hfinal Hin Ha Hlt.
    pose proof (turned_log _ _ _ _ _ _ _ _ _ Ht) as [delta [L [Fd _]]].
    pose proof Hin as Hin0. rewrite L in Hin.
    destruct (turn_event_old_or_new _ _ _ _ _ _ N Fd Hw Hin eq_refl)
      as [[Hin' _]| ->].
    - exfalso.
      destruct (waits_ended_later _ _ _ _ _ He
                  (turned_stamp_ok _ _ _ _ _ Ht) Hin') as [_ H].
      specialize (H F r Ha). lra.
    - destruct (turned_wait env fetchFn sig retryPolicy (fun _ => True)
                  stable_True _ _ _ _ _ _ _ _ Ht I
                  (attempts_within_below _ _ _ Hw) Hin0)
        as [w1 [rs [w2 [_ [_ [_ [_ [_ [[_ [_ [le' E]]]|[_ [E _]]]]]]]]]]].
      + exfalso. exact (Hfinal le' E).
      + split; [exact E|]. rewrite L.
        eapply attempts_below_app; [exact Fd|].
        now apply attempts_within_below with (k0 := k0). }
  apply (attempts_rule env fetchFn sig retryPolicy
           (fun k w1 => (k0 <= k)%Z /\ attempts_within k0 k (log w1) /\
                        waits_ended w1)
           (fun r0 w1 =>
              forall N at_ ms F r,
                In (Sleep N at_ ms true) (log w1) ->
                aborted (composed w1) = Some (F, r) ->
                F < at_ + Qmax 0 ms ->
                r0 = Throw AbortedException /\ attempts_below (N + 1) (log w1)));
    try (lia || assumption).
  - intros k le0 w0 le' w' _ [Hk0 [Hw He]] Ht.
    pose proof (turned_log _ _ _ _ _ _ _ _ _ Ht) as [delta [L [Fd _]]].
    split; [lia|]. split; [rewrite L; now apply (attempts_within_turn sig)|].
    intros N at_ ms Hin. pose proof Hin as Hin0. rewrite L in Hin.
    destruct (turn_event_old_or_new _ _ _ _ _ _ N Fd Hw Hin eq_refl)
      as [[Hin' _]| ->].
    + exact (waits_ended_later _ _ _ _ _ He (turned_stamp_ok _ _ _ _ _ Ht) Hin').
    + destruct (turned_wait env fetchFn sig retryPolicy (fun _ => True)
                  stable_True _ _ _ _ _ _ _ _ Ht I
                  (attempts_within_below _ _ _ Hw) Hin0)
        as [w1 [rs [w2 [_ [_ [Hat [_ [Hsl [[-> [<- _]]|[_ [E _]]]]]]]]]]];
        [|discriminate].
      apply sleep_resolved in Hsl as [Hnone Htime]. cbn [now record] in Htime.
      subst at_. split; [exact Htime|].
      intros F r Ha. congruence.
  - intros k le0 w0 res w' _ [Hk0 [Hw He]] Ht N at_ ms F r Hin Ha Hlt.
    assert (Hfinal : forall le', Normal (Return res) <> Normal (Continue le'))
      by (intros le'; discriminate).
    destruct (Hterm _ _ _ _ _ _ _ _ _ _ Hw He Ht Hfinal Hin Ha Hlt)
      as [E _].
    discriminate.
  - intros k le0 w0 e w' _ [Hk0 [Hw He]] Ht N at_ ms F r Hin Ha Hlt.
    assert (Hfinal : forall le', Throw e <> Normal (Continue le'))
      by (intros le'; discriminate).
    destruct (Hterm _ _ _ _ _ _ _ _ _ _ Hw He Ht Hfinal Hin Ha Hlt)
      as [E Hb].
    injection E as ->. now split.
  - split; [lia|]. split; [assumption|].
    intros N at_ ms Hin. specialize (H0 _ N Hin eq_refl). lia.
Qed.

End Abort.

(** ** The agenda of the event loop *)

Lemma In_schedule p l x : In x (schedule p l) <-> x = p \/ In x l.
Proof.
  induction l as [|q l IH]; simpl.
  - split; [intros [<-|[]]; now left | intros [->|[]]; now left].
  - destruct (Qle_bool (pending_at q) (pending_at p)); simpl.
    + rewrite IH. tauto.
    + split; [intros [<-|H]; auto | intros [->|H]; auto].
Qed.

Lemma schedule_sorted p l :
  StronglySorted task_le l -> StronglySorted task_le (schedule p l).
Proof.
  induction l as [|q l IH]; intros Hs; simpl.
  - repeat constructor.
  - inversion Hs as [|? ? Hl Hq]; subst.
    destruct (Qle_bool (pending_at q) (pending_at p)) eqn:E.
    + constructor; [now apply IH|].
      apply Forall_forall. intros x Hx. apply In_schedule in Hx as [->|Hx].
      * now apply Qle_bool_iff.
      * rewrite Forall_forall in Hq. now apply Hq.
    + assert (Hlt : pending_at p < pending_at q).
      { apply Qnot_le_lt. intros H. apply Qle_bool_iff in H. congruence. }
      constructor; [assumption|].
      constructor; [now apply Qlt_le_weak|].
      apply Forall_forall. intros x Hx. rewrite Forall_forall in Hq.
      specialize (Hq x Hx). unfold task_le in *. lra.
Qed.

Lemma fold_schedule_sorted ts :
  forall acc, StronglySorted task_le acc ->
              StronglySorted task_le
                (fold_left (fun acc t => schedule (DueTimer t) acc) ts acc).
Proof.
  induction ts as [|t ts IH]; intros acc Hs; simpl; [assumption|].
  apply IH. now apply schedule_sorted.
Qed.

Lemma In_fold_schedule ts :
  forall acc x,
    In x (fold_left (fun acc t => schedule (DueTimer t) acc) ts acc) <->
    In x acc \/ exists t, In t ts /\ x = DueTimer t.
Proof.
  induction ts as [|t ts IH]; intros acc x; simpl.
  - split; [now left | intros [H|[t [[] _]]]; assumption].
  - rewrite IH, In_schedule. split.
    + intros [[->|H]|[t' [H ->]]]; eauto.
    + intros [H|[t' [[<-|H] ->]]]; eauto.
Qed.

(** The tasks of the agenda are the pending timers and the coming abort of
    the caller. *)
Lemma In_agenda_timer w t : In (DueTimer t) (agenda w) <-> In t (timers w).
Proof.
  unfold agenda.
  assert (H : In (DueTimer t)
                (fold_left (fun acc t => schedule (DueTimer t) acc) (timers w) [])
              <-> In t (timers w)).
  { rewrite In_fold_schedule. split.
    - intros [[]|[t' [H E]]]. now injection E as ->.
    - intros H. right. eauto. }
  destruct (caller_will_abort w) as [[a r]|]; [|exact H].
  rewrite In_schedule, H. split; [intros [E|E]; [discriminate|assumption] | auto].
Qed.

(** A task of a sorted agenda that is due no later than a new timer runs
    before it. *)
Lemma tasks_before_schedule_new s l x :
  (forall y, In y l -> is_timer (timer_id s) y = false) ->
  StronglySorted task_le l ->
  In x l -> pending_at x <= due s ->
  In x (tasks_before (timer_id s) (schedule (DueTimer s) l)).
Proof.
  induction l as [|q l IH]; intros Hid Hs Hin Hle; [contradiction|].
  inversion Hs as [|? ? Hl Hq]; subst. simpl.
  destruct (Qle_bool (pending_at q) (due s)) eqn:E.
  - simpl. rewrite (Hid q (or_introl eq_refl)).
    destruct Hin as [->|Hin]; [now left|]. right.
    apply IH; auto. intros y Hy. apply Hid. now right.
  - exfalso.
    assert (Hlt : due s < pending_at q).
    { apply Qnot_le_lt. intros H. apply Qle_bool_iff in H. congruence. }
    destruct Hin as [->|Hin]; [lra|].
    rewrite Forall_forall in Hq. specialize (Hq x Hin). unfold task_le in Hq.
    lra.
Qed.

Lemma tasks_before_schedule_other id c l x :
  is_timer id c = false ->
  In x (tasks_before id l) -> In x (tasks_before id (schedule c l)).
Proof.
  intros Hc. induction l as [|q l IH]; simpl; [intros []|].
  destruct (is_timer id q) eqn:Eq; [intros []|].
  intros Hin. destruct (Qle_bool (pending_at q) (pending_at c)); simpl.
  - rewrite Eq. destruct Hin as [->|Hin]; [now left | right; now apply IH].
  - rewrite Hc. right. simpl. rewrite Eq. exact Hin.
Qed.

(** In the agenda of a world where timer [s] was just set, a pending timer
    due no later than [s] runs before [s]. *)
Lemma timer_before_new w w2 s t :
  timers w2 = timers w ++ [s] ->
  caller_will_abort w2 = caller_will_abort w ->
  (forall t', In t' (timers w) -> timer_id t' <> timer_id s) ->
  In t (timers w) -> due t <= due s ->
  In (DueTimer t) (tasks_before (timer_id s) (agenda w2)).
Proof.
  intros Ht Hc Hid Hin Hle. unfold agenda. rewrite Ht, Hc, fold_left_app.
  simpl.
  set (acc := fold_left (fun acc t => schedule (DueTimer t) acc) (timers w) []).
  assert (Hacc : In (DueTimer t)
                    (tasks_before (timer_id s) (schedule (DueTimer s) acc))).
  { apply tasks_before_schedule_new.
    - intros y Hy. subst acc. apply In_fold_schedule in Hy as [[]|[t' [Ht' ->]]].
      simpl. apply Pos.eqb_neq. now apply Hid.
    - subst acc. apply fold_schedule_sorted. constructor.
    - subst acc. apply In_fold_schedule. right. eauto.
    - exact Hle. }
  destruct (caller_will_abort w) as [[a r]|]; [|exact Hacc].
  now apply tasks_before_schedule_other.
Qed.

(** ** The timer of the timeout *)

Lemma shrinks_refl w : shrinks w w.
Proof. split; try apply incl_refl; auto. Qed.

Lemma shrinks_trans a b c : shrinks a b -> shrinks b c -> shrinks a c.
Proof.
  intros [N1 T1 C1 L1 A1] [N2 T2 C2 L2 A2]. split.
  - congruence.
  - eapply incl_tran; eassumption.
  - eapply incl_tran; eassumption.
  - congruence.
  - auto.
Qed.

Lemma shrinks_clearTimeout id w : shrinks w (clearTimeout id w).
Proof.
  split; simpl; try apply incl_refl; auto. apply incl_filter.
Qed.

Lemma shrinks_run_on_composed l w : shrinks w (run_on_composed l w).
Proof.
  destruct l; simpl; [apply shrinks_refl|].
  split; simpl; try apply incl_refl; auto. apply incl_filter.
Qed.

Lemma shrinks_fold_composed ls w :
  shrinks w (fold_left (fun w l => run_on_composed l w) ls w).
Proof.
  apply (fold_left_related _ shrinks shrinks_refl shrinks_trans).
  intros. apply shrinks_run_on_composed.
Qed.

Lemma shrinks_abort_composed r w : shrinks w (abort_composed r w).
Proof.
  unfold abort_composed. destruct (aborted (composed w)) eqn:E.
  - apply shrinks_refl.
  - eapply shrinks_trans; [|apply shrinks_fold_composed].
    split; simpl; try apply incl_refl; auto.
    + apply incl_filter.
    + intros x H. congruence.
Qed.

Lemma aborted_abort_composed r w :
  aborted (composed (abort_composed r w)) <> None.
Proof.
  unfold abort_composed. destruct (aborted (composed w)) eqn:E.
  - congruence.
  - rewrite (fold_left_keeps _ composed)
      by (intros; apply composed_run_on_composed).
    simpl. discriminate.
Qed.

Lemma shrinks_run_on_caller r l w :
  l = ComposeOnAbort -> shrinks w (run_on_caller r l w).
Proof. intros ->. apply shrinks_abort_composed. Qed.

Lemma shrinks_fold_caller r ls :
  (forall l, In l ls -> l = ComposeOnAbort) ->
  forall w, shrinks w (fold_left (fun w l => run_on_caller r l w) ls w).
Proof.
  induction ls as [|l ls IH]; intros Hls w; simpl; [apply shrinks_refl|].
  eapply shrinks_trans.
  - apply shrinks_run_on_caller. apply Hls. now left.
  - apply IH. intros l' H. apply Hls. now right.
Qed.

(** The listeners of the caller's signal either do nothing or abort the
    composed signal. *)
Lemma fold_caller_timers r ls :
  (forall l, In l ls -> l = ComposeOnAbort) ->
  forall w,
    aborted (composed (fold_left (fun w l => run_on_caller r l w) ls w)) = None ->
    timers (fold_left (fun w l => run_on_caller r l w) ls w) = timers w.
Proof.
  induction ls as [|l ls IH]; intros Hls w; simpl; [reflexivity|].
  rewrite (Hls l (or_introl eq_refl)). simpl. intros Hnone. exfalso.
  destruct (aborted (composed (abort_composed r w))) as [x|] eqn:E.
  - pose proof (shrinks_aborted _ _
                  (shrinks_fold_caller r ls
                     (fun l' H => Hls l' (or_intror H)) (abort_composed r w))
                  x E).
    congruence.
  - now apply aborted_abort_composed in E.
Qed.

Lemma shrinks_abort_caller r w :
  (forall l, In l (listeners (caller w)) -> l = ComposeOnAbort) ->
  shrinks w (abort_caller r w).
Proof.
  intros Hls. unfold abort_caller. destruct (aborted (caller w)).
  - split; simpl; try apply incl_refl; auto.
  - eapply shrinks_trans; [|apply shrinks_fold_caller; exact Hls].
    split; simpl; try apply incl_refl; auto.
Qed.

Lemma shrinks_fire p w :
  (forall l, In l (listeners (caller w)) -> l = ComposeOnAbort) ->
  shrinks w (fire p w).
Proof.
  intros Hls. destruct p as [t|a r]; simpl.
  - destruct (timer_pending (timer_id t) w); [|apply shrinks_refl].
    assert (S1 : shrinks w (clearTimeout (timer_id t)
                              (set_now (Qmax (now w) (due t)) w))).
    { split; simpl; try apply incl_refl; auto. apply incl_filter. }
    destruct (callback t); [|assumption].
    eapply shrinks_trans; [exact S1 | apply shrinks_abort_composed].
  - destruct (caller_will_abort w); [|apply shrinks_refl].
    eapply shrinks_trans; [|apply shrinks_abort_caller; exact Hls].
    split; simpl; try apply incl_refl; auto.
Qed.

Section Timeout.

Variable tid : positive.
Variable D : Q.

Lemma In_filter_other id t (l : list Timer) :
  In t l -> timer_id t <> id ->
  In t (filter (fun t => negb (Pos.eqb (timer_id t) id)) l).
Proof.
  intros Hin Hne. apply filter_In. split; [assumption|].
  apply negb_true_iff. now apply Pos.eqb_neq.
Qed.

(** A task leaves the timer of the timeout pending, unless the composed
    signal is aborted afterwards. *)
Lemma fire_keeps_timeout p w :
  task_ok tid D p ->
  (forall l, In l (listeners (caller w)) -> l = ComposeOnAbort) ->
  In (timeout_timer tid D) (timers w) ->
  aborted (composed (fire p w)) = None ->
  In (timeout_timer tid D) (timers (fire p w)).
Proof.
  intros Hok Hls Hin. destruct p as [t|a r]; simpl.
  - destruct (timer_pending (timer_id t) w); [|auto].
    destruct (callback t) eqn:Ecb.
    + intros H. now apply aborted_abort_composed in H.
    + intros _. simpl. apply In_filter_other; [assumption|].
      simpl. intros E. rewrite (Hok t eq_refl (eq_sym E)) in Ecb. discriminate.
  - destruct (caller_will_abort w); [|auto].
    unfold abort_caller. cbn [caller set_now].
    destruct (aborted (caller w)); [auto|].
    intros H. rewrite fold_caller_timers; auto.
Qed.

Lemma fire_armed p w :
  task_ok tid D p -> timeout_armed tid D w -> timeout_armed tid D (fire p w).
Proof.
  intros Hok [A1 A2 A3 A4 A5 A6].
  pose proof (shrinks_fire p w A5) as [N T C L A].
  split.
  - now rewrite N.
  - intros t Ht. rewrite N. apply A2, T, Ht.
  - intros t Ht. apply A3, T, Ht.
  - intros i Hi. apply A4, C, Hi.
  - intros l Hl. rewrite L in Hl. now apply A5.
  - intros Hnone. apply fire_keeps_timeout; try assumption.
    apply A6. destruct (aborted (composed w)) as [x|] eqn:E; [|reflexivity].
    rewrite (A x eq_refl) in Hnone. discriminate.
Qed.

Lemma fold_fire_armed tasks :
  Forall (task_ok tid D) tasks ->
  forall w, timeout_armed tid D w ->
            timeout_armed tid D (fold_left (fun w p => fire p w) tasks w).
Proof.
  induction tasks as [|p tasks IH]; intros Hok w Hw; simpl; [assumption|].
  inversion Hok; subst. apply IH; [assumption|]. now apply fire_armed.
Qed.

Lemma agenda_ok w : timeout_armed tid D w -> Forall (task_ok tid D) (agenda w).
Proof.
  intros Hw. apply Forall_forall. intros p Hp t -> Hid.
  apply In_agenda_timer in Hp. exact (armed_unique _ _ _ Hw t Hp Hid).
Qed.

Lemma armed_set_now t w : timeout_armed tid D w -> timeout_armed tid D (set_now t w).
Proof. intros [A1 A2 A3 A4 A5 A6]. split; assumption. Qed.

Lemma armed_record e w : timeout_armed tid D w -> timeout_armed tid D (record e w).
Proof. intros [A1 A2 A3 A4 A5 A6]. split; assumption. Qed.

Lemma armed_random n w :
  timeout_armed tid D w -> timeout_armed tid D (set_random_calls n w).
Proof. intros [A1 A2 A3 A4 A5 A6]. split; assumption. Qed.

Lemma armed_elapse d w : timeout_armed tid D w -> timeout_armed tid D (elapse d w).
Proof.
  intros Hw. unfold elapse. apply armed_set_now, fold_fire_armed; [|assumption].
  apply Forall_forall. intros p Hp. apply filter_In in Hp as [Hp _].
  pose proof (agenda_ok w Hw) as F. rewrite Forall_forall in F. now apply F.
Qed.

Lemma armed_clear_other id w :
  id <> tid -> timeout_armed tid D w -> timeout_armed tid D (clearTimeout id w).
Proof.
  intros Hne [A1 A2 A3 A4 A5 A6]. split; simpl; try assumption.
  - intros t Ht. apply filter_In in Ht as [Ht _]. now apply A2.
  - intros t Ht. apply filter_In in Ht as [Ht _]. now apply A3.
  - intros Hnone. apply In_filter_other; [now apply A6|]. simpl. congruence.
Qed.

Lemma In_tasks_before id l x : In x (tasks_before id l) -> In x l.
Proof.
  induction l as [|q l IH]; simpl; [intros []|].
  destruct (is_timer id q); [intros []|].
  intros [->|H]; [now left | right; now apply IH].
Qed.

Lemma wait_sleep_armed sid d before :
  sid <> tid -> Forall (task_ok tid D) before ->
  forall w, timeout_armed tid D w ->
            timeout_armed tid D (snd (wait_sleep sid d before w)).
Proof.
  intros Hne. induction before as [|p rest IH]; intros Hok w Hw; simpl.
  - now apply armed_clear_other, armed_set_now.
  - inversion Hok; subst.
    destruct (existsb (Pos.eqb sid) (rejected (fire p w))); simpl.
    + now apply fire_armed.
    + apply IH; [assumption|]. now apply fire_armed.
Qed.

(** The world in which [sleep] awaits its timer. *)
Lemma armed_sleeping ms (sg : bool) w :
  timeout_armed tid D w ->
  timeout_armed tid D
    (if sg
     then set_composed (add_listener (SleepOnAbort (next_timer w))
                          (composed (snd (setTimeout ResolveSleep ms w))))
                       (snd (setTimeout ResolveSleep ms w))
     else snd (setTimeout ResolveSleep ms w)).
Proof.
  intros [A1 A2 A3 A4 A5 A6].
  assert (Hne : next_timer w <> tid) by (intros E; rewrite E in A1; lia).
  assert (H1 : timeout_armed tid D (snd (setTimeout ResolveSleep ms w))).
  { split; simpl; try assumption.
    - lia.
    - intros t Ht. apply in_app_or in Ht as [Ht|[<-|[]]]; simpl; [|lia].
      specialize (A2 t Ht). lia.
    - intros t Ht. apply in_app_or in Ht as [Ht|[<-|[]]]; simpl;
        [now apply A3 | congruence].
    - intros Hnone. apply in_or_app. left. now apply A6. }
  destruct sg; [|exact H1].
  destruct H1 as [B1 B2 B3 B4 B5 B6]. split; simpl; try assumption.
  - intros i Hi. unfold add_listener in Hi.
    destruct (existsb _ _); simpl in Hi; [now apply A4|].
    apply in_app_or in Hi as [Hi|[E|[]]]; [now apply A4|].
    injection E as <-. exact Hne.
  - intros Hnone. apply B6. simpl.
    unfold add_listener in Hnone. destruct (existsb _ _); exact Hnone.
Qed.

Lemma armed_sleep ms sg w r w' :
  timeout_armed tid D w -> sleep ms sg w = (r, w') -> timeout_armed tid D w'.
Proof.
  intros Hw. unfold sleep.
  destruct (sg && is_aborted (composed w)).
  { intros H. injection H as _ <-. exact Hw. }
  pose proof (armed_sleeping ms sg w Hw) as H2.
  assert (Hne : next_timer w <> tid).
  { intros E. pose proof (armed_fresh _ _ _ Hw). rewrite E in *. lia. }
  cbn [setTimeout] in *. cbn [snd] in H2.
  match goal with
  | |- context [wait_sleep ?i ?d ?b ?x] =>
      assert (Hb : Forall (task_ok tid D) b)
        by (apply Forall_forall; intros p Hp;
            apply In_tasks_before in Hp;
            pose proof (agenda_ok x H2) as F;
            rewrite Forall_forall in F; now apply F);
      pose proof (wait_sleep_armed i d b Hne Hb x H2) as L;
      destruct (wait_sleep i d b x) as [[] w3]
  end; simpl in L; intros H; injection H as _ <-; exact L.
Qed.

Lemma stable_armed : stable (timeout_armed tid D).
Proof.
  split.
  - intros d w. apply armed_elapse.
  - intros e w. apply armed_record.
  - intros n w. apply armed_random.
  - intros ms sg w r w'. apply armed_sleep.
Qed.

Lemma timer_pending_In t w :
  In t (timers w) -> timer_pending (timer_id t) w = true.
Proof.
  intros H. unfold timer_pending. apply existsb_exists.
  exists t. split; [assumption | apply Pos.eqb_refl].
Qed.

(** While the timer of the timeout is among the tasks before the timer of
    a sleep, the sleep is rejected. *)
Lemma wait_sleep_timeout sid d before :
  forall w,
    timeout_armed tid D w ->
    aborted (composed w) = None ->
    In (SleepOnAbort sid) (listeners (composed w)) ->
    Forall (task_ok tid D) before ->
    In (DueTimer (timeout_timer tid D)) before ->
    fst (wait_sleep sid d before w) = false.
Proof.
  induction before as [|p rest IH]; intros w Hw Hnone Hl Hok Hin;
    [contradiction|].
  simpl. destruct (existsb (Pos.eqb sid) (rejected (fire p w))) eqn:E;
    [reflexivity|].
  assert (Hrej : ~ In sid (rejected (fire p w))).
  { intros H. apply In_existsb_pos in H. congruence. }
  inversion Hok as [|? ? Hp Hrest]; subst.
  destruct (fire_touch sid p w Hl) as [Hc|Hr]; [|contradiction].
  apply IH; try assumption.
  - now apply fire_armed.
  - now rewrite Hc.
  - now rewrite Hc.
  - destruct Hin as [->|Hin]; [|assumption].
    exfalso. apply Hrej.
    pose proof (armed_pending _ _ _ Hw Hnone) as Hpend.
    cbn [fire]. rewrite (timer_pending_In _ _ Hpend). cbn [callback timeout_timer].
    apply abort_composed_rejects; assumption.
Qed.

(** A sleep that resolves ends before the timeout expires. *)
Lemma sleep_resolved_before_deadline ms w w' :
  timeout_armed tid D w ->
  sleep ms true w = (Normal tt, w') ->
  now w + Qmax 0 ms < D.
Proof.
  intros Hw. unfold sleep. cbn [andb]. unfold is_aborted.
  destruct (aborted (composed w)) eqn:Hnone; [discriminate|].
  destruct (Qlt_le_dec (now w + Qmax 0 ms) D) as [Hlt|Hle]; [auto|].
  pose proof (armed_sleeping ms true w Hw) as H2.
  assert (Hne : next_timer w <> tid).
  { intros E. pose proof (armed_fresh _ _ _ Hw). rewrite E in *. lia. }
  cbn [setTimeout] in *. cbn [snd] in H2.
  match goal with
  | |- context [wait_sleep ?i ?d ?b ?x] =>
      pose proof (wait_sleep_timeout i d b x H2) as L;
      destruct (wait_sleep i d b x) as [[] w3]
  end; [|discriminate].
  intros _. exfalso. cbn [fst] in L.
  assert (false = true -> False) as Hcontra by discriminate.
  apply Hcontra. symmetry. apply L.
  - simpl. unfold add_listener. destruct (existsb _ _); exact Hnone.
  - cbn [composed set_composed]. apply In_add_listener.
  - apply Forall_forall. intros p Hp. apply In_tasks_before in Hp.
    pose proof (agenda_ok _ H2) as F. rewrite Forall_forall in F. now apply F.
  - apply (timer_before_new w _
             (mkTimer (next_timer w) (now w + Qmax 0 ms) ResolveSleep)
             (timeout_timer tid D)).
    + reflexivity.
    + reflexivity.
    + intros t Ht. pose proof (armed_ids _ _ _ Hw t Ht). simpl. lia.
    + now apply (armed_pending _ _ _ Hw).
    + exact Hle.
Qed.

End Timeout.

Section Deadline.

Variable env : Env.
Variable fetchFn : Z -> Settles Response.
Variable sig : ComposedSignal.
Variable retryPolicy : option RetryOptions.
Variable tid : positive.
Variable D : Q.
Hypothesis sig_present : signal sig = true.

(** A wait that the timeout does not let end: the request fails with the
    rejection of that wait, and no later attempt starts. *)
Lemma attempts_deadline n k0 le w :
  (n = 0%nat \/ k0 + Z.of_nat n = totalAttempts retryPolicy + 1)%Z ->
  attempts_within k0 k0 (log w) ->
  timeout_armed tid D w ->
  forall N at_ ms s,
    In (Sleep N at_ ms s)
       (log (snd (attempts env fetchFn sig retryPolicy n k0 le w))) ->
    D <= at_ + Qmax 0 ms ->
    fst (attempts env fetchFn sig retryPolicy n k0 le w) = Throw AbortedException /\
    attempts_below (N + 1)
      (log (snd (attempts env fetchFn sig retryPolicy n k0 le w))).
Proof.
  intros Hk H0 Harmed.
  destruct n as [|n].
  { rewrite attempts_none. cbn [fst snd]. rewrite log_cleaned.
    intros N at_ ms s [Hin|Hin] _; [discriminate|].
    specialize (H0 _ N Hin eq_refl). lia. }
  set (ended := fun w1 : World =>
                  forall N at_ ms s, In (Sleep N at_ ms s) (log w1) ->
                                     at_ + Qmax 0 ms < D).
  assert (Hterm : forall k le0 w0 r0 w' N at_ ms s,
             attempts_within k0 k (log w0) -> ended w0 ->
             timeout_armed tid D w0 ->
             turned env fetchFn sig retryPolicy k le0 w0 r0 w' ->
             (forall le', r0 <> Normal (Continue le')) ->
             In (Sleep N at_ ms s) (log w') ->
             D <= at_ + Qmax 0 ms ->
             r0 = Throw AbortedException /\ attempts_below (N + 1) (log w')).
  { intros k le0 w0 r0 w' N at_ ms s Hw He Ha Ht Hfinal Hin Hle.
    pose proof (turned_log _ _ _ _ _ _ _ _ _ Ht) as [delta [L [Fd _]]].
    pose proof Hin as Hin0. rewrite L in Hin.
    destruct (turn_event_old_or_new _ _ _ _ _ _ N Fd Hw Hin eq_refl)
      as [[Hin' _]| ->].
    - exfalso. specialize (He _ _ _ _ Hin'). lra.
    - destruct (turned_wait env fetchFn sig retryPolicy (timeout_armed tid D)
                  (stable_armed tid D) _ _ _ _ _ _ _ _ Ht Ha
                  (attempts_within_below _ _ _ Hw) Hin0)
        as [w1 [rs [w2 [_ [_ [_ [_ [_ [[_ [_ [le' E]]]|[_ [E _]]]]]]]]]]].
      + exfalso. exact (Hfinal le' E).
      + split; [exact E|]. rewrite L.
        eapply attempts_below_app; [exact Fd|].
        now apply attempts_within_below with (k0 := k0). }
  apply (attempts_rule env fetchFn sig retryPolicy
           (fun k w1 => (k0 <= k)%Z /\ attempts_within k0 k (log w1) /\
                        ended w1 /\ timeout_armed tid D w1)
           (fun r0 w1 =>
              forall N at_ ms s,
                In (Sleep N at_ ms s) (log w1) ->
                D <= at_ + Qmax 0 ms ->
                r0 = Throw AbortedException /\ attempts_below (N + 1) (log w1)));
    try (lia || assumption).
  - intros k le0 w0 le' w' _ [Hk0 [Hw [He Ha]]] Ht.
    pose proof (turned_log _ _ _ _ _ _ _ _ _ Ht) as [delta [L [Fd _]]].
    split; [lia|]. split; [rewrite L; now apply (attempts_within_turn sig)|].
    split.
    + intros N at_ ms s Hin. pose proof Hin as Hin1. rewrite L in Hin.
      destruct (turn_event_old_or_new _ _ _ _ _ _ N Fd Hw Hin eq_refl)
        as [[Hin' _]| ->]; [exact (He _ _ _ _ Hin')|].
      destruct (turned_wait env fetchFn sig retryPolicy (timeout_armed tid D)
                  (stable_armed tid D) _ _ _ _ _ _ _ _ Ht Ha
                  (attempts_within_below _ _ _ Hw) Hin1)
        as [w1 [rs [w2 [HJ1 [_ [Hat [Hs0 [Hsl [[-> [<- _]]|[_ [E _]]]]]]]]]]];
        [|discriminate].
      rewrite Hs0, sig_present in Hsl.
      assert (Harm1 : timeout_armed tid D (record (Sleep k at_ ms true) w1))
        by now apply armed_record.
      pose proof (sleep_resolved_before_deadline tid D _ _ _ Harm1 Hsl) as Hb.
      cbn [now record] in Hb. now rewrite Hat.
    + eapply (turned_continue_stable env fetchFn sig retryPolicy
                (timeout_armed tid D) (stable_armed tid D)); eassumption.
  - intros k le0 w0 res w' _ [Hk0 [Hw [He Ha]]] Ht N at_ ms s Hin Hle.
    assert (Hfinal : forall le', Normal (Return res) <> Normal (Continue le'))
      by (intros le'; discriminate).
    destruct (Hterm _ _ _ _ _ _ _ _ _ Hw He Ha Ht Hfinal Hin Hle) as [E _].
    discriminate.
  - intros k le0 w0 e w' _ [Hk0 [Hw [He Ha]]] Ht N at_ ms s Hin Hle.
    assert (Hfinal : forall le', Throw e <> Normal (Continue le'))
      by (intros le'; discriminate).
    destruct (Hterm _ _ _ _ _ _ _ _ _ Hw He Ha Ht Hfinal Hin Hle) as [E Hb].
    injection E as ->. now split.
  - split; [lia|]. split; [assumption|]. split; [|assumption].
    intros N at_ ms s Hin. specialize (H0 _ N Hin eq_refl). lia.
Qed.

End Deadline.

(** ** The request as a whole *)

Section LoopLog.

Variable env : Env.
Variable fetchFn : Z -> Settles Response.
Variable sig : ComposedSignal.
Variable retryPolicy : option RetryOptions.

(** The loop logs events of its turns only. *)
Lemma attempts_log n :
  forall k le w,
  exists evs,
    log (snd (attempts env fetchFn sig retryPolicy n k le w)) = evs ++ log w /\
    Forall (loop_event (signal sig)) evs.
Proof.
  induction n as [|n IH]; intros k le w.
  - rewrite attempts_none. cbn [snd]. rewrite log_cleaned.
    exists [Cleanup]. split; [reflexivity|].
    repeat constructor. exists 0%Z. exact I.
  - cbn [attempts]. unfold bind.
    destruct (attempt_body env fetchFn sig retryPolicy k le w)
      as [[[res|le']|e] w'] eqn:Hb;
      apply attempt_body_turned in Hb;
      pose proof (turned_log _ _ _ _ _ _ _ _ _ Hb) as [delta [L [F _]]];
      assert (F' : Forall (loop_event (signal sig)) delta)
        by (apply Forall_forall; intros x Hx; exists k;
            rewrite Forall_forall in F; now apply F).
    + exists delta. now split.
    + destruct (IH (k + 1)%Z le' w') as [evs [L' F'']].
      exists (evs ++ delta). rewrite L', L. split; [now rewrite app_assoc|].
      apply Forall_app. now split.
    + exists delta. now split.
Qed.

End LoopLog.

Lemma start_composeSignal_log t0 c tm :
  log (snd (composeSignal (userSignal_of c) tm (start t0 c)))
  = timeout_events t0 tm.
Proof.
  unfold composeSignal, timeout_events.
  destruct (negb (userSignal_of c) && no_timeout tm) eqn:E.
  - destruct tm as [t|]; [|reflexivity].
    apply andb_true_iff in E as [_ E]. simpl in E. now rewrite E.
  - destruct tm as [t|]; [|destruct c; reflexivity].
    destruct (negb (Qeq_bool t 0) && negb (Qle_bool t 0));
      destruct c; reflexivity.
Qed.

Lemma timeout_events_untagged t0 tm k :
  attempts_within k k (timeout_events t0 tm).
Proof.
  intros e j Hin E. unfold timeout_events in Hin.
  destruct tm as [t|]; [|destruct Hin].
  destruct (negb (Qeq_bool t 0) && negb (Qle_bool t 0)); [|destruct Hin].
  destruct Hin as [<-|[]]. discriminate.
Qed.

Lemma positive_timeout t :
  0 < t -> negb (Qeq_bool t 0) && negb (Qle_bool t 0) = true.
Proof.
  intros Ht. apply andb_true_iff. split; apply negb_true_iff.
  - destruct (Qeq_bool t 0) eqn:E; [|reflexivity].
    apply Qeq_bool_iff in E. lra.
  - destruct (Qle_bool t 0) eqn:E; [|reflexivity].
    apply Qle_bool_iff in E. lra.
Qed.

(** With a positive timeout, [composeSignal] returns a signal and arms the
    timer. *)
Lemma start_composeSignal_armed t0 c t :
  0 < t ->
  signal (fst (composeSignal (userSignal_of c) (Some t) (start t0 c))) = true /\
  timeout_armed 1%positive (t0 + Qmax 0 t)
    (snd (composeSignal (userSignal_of c) (Some t) (start t0 c))).
Proof.
  intros Ht. unfold composeSignal.
  assert (E0 : Qeq_bool t 0 = false).
  { destruct (Qeq_bool t 0) eqn:E; [|reflexivity].
    apply Qeq_bool_iff in E. lra. }
  assert (E1 : negb (userSignal_of c) && no_timeout (Some t) = false).
  { simpl. rewrite E0. apply andb_false_r. }
  rewrite E1, (positive_timeout t Ht).
  split; [reflexivity|].
  destruct c; simpl; split; simpl; try lia;
    try (intros x [<-|[]]; simpl; (lia || reflexivity));
    try (intros x []); try (intros _; now left);
    try (intros x [<-|[]]; reflexivity);
    try (intros x _; reflexivity).
Qed.

Lemma loop_count (total : Z) :
  (Z.to_nat total = 0%nat \/ 1 + Z.of_nat (Z.to_nat total) = total + 1)%Z.
Proof. lia. Qed.

Lemma logical_request_fetch env c timeout policy t0 fetchFn :
  fetch_of env = Some fetchFn ->
  logical_request env c timeout policy t0 =
  attempts env fetchFn
           (fst (composeSignal (userSignal_of c) (timeout_of env timeout)
                               (start t0 c)))
           policy (Z.to_nat (totalAttempts policy)) 1 None
           (snd (composeSignal (userSignal_of c) (timeout_of env timeout)
                               (start t0 c))).
Proof. intros H. unfold logical_request. now apply requestWithRetry_fetch. Qed.

Lemma start_composed_untagged t0 c tm k :
  attempts_within k k (log (snd (composeSignal (userSignal_of c) tm (start t0 c)))).
Proof. rewrite start_composeSignal_log. apply timeout_events_untagged. Qed.


(** At most one timer of the timeout is logged, and the loop logs none. *)
Lemma timeout_events_length t0 tm : (List.length (timeout_events t0 tm) <= 1)%nat.
Proof.
  unfold timeout_events. destruct tm as [t|]; [|simpl; lia].
  destruct (_ && _); simpl; lia.
Qed.

Lemma loop_event_not_timeout sg id at_ :
  ~ loop_event sg (SetTimeout id AbortController_abort at_).
Proof. intros [j H]. discriminate H. Qed.

(** ** The calls of [cleanup] *)

Lemma cleanups_app l1 l2 :
  cleanups (l1 ++ l2) = (cleanups l1 + cleanups l2)%nat.
Proof.
  induction l1 as [|e l1 IH]; simpl; [reflexivity|].
  destruct e; simpl; now rewrite IH.
Qed.

Lemma cleanups_hook_world hook e k w :
  e <> Cleanup ->
  cleanups (log (hook_world hook e k w)) = cleanups (log w).
Proof.
  intros He. rewrite log_hook_world. destruct hook; simpl; [|reflexivity].
  destruct e; try reflexivity. contradiction.
Qed.

Lemma cleanups_sleep ms sg w r w' :
  sleep ms sg w = (r, w') -> cleanups (log w') = cleanups (log w).
Proof.
  intros H. apply log_sleep in H as [[_ ->] | ->]; reflexivity.
Qed.

Section Cleanups.

Variable env : Env.
Variable fetchFn : Z -> Settles Response.
Variable sig : ComposedSignal.
Variable retryPolicy : option RetryOptions.

Lemma cleanups_world_after_hooks k w :
  cleanups (log (world_after_hooks env fetchFn sig k w)) = cleanups (log w).
Proof.
  unfold world_after_hooks, world_after_fetch, world_at_fetch.
  rewrite cleanups_hook_world by discriminate.
  rewrite log_elapse. cbn [log record cleanups].
  now rewrite cleanups_hook_world by discriminate.
Qed.

(** The [try] block calls [cleanup] exactly when it returns. *)
Lemma tried_cleanups k le w r w' :
  tried env fetchFn sig retryPolicy k le w r w' ->
  cleanups (log w') =
  (cleanups (log w) + match r with Normal (Return _) => 1 | _ => 0 end)%nat.
Proof.
  intros H. destruct H as [e He|e He Hf|res e He Hf Hh|res He Hf Hh Hs
                          |res policy d w1 rs w' He Hf Hh Hp Hs Hd Hsl].
  - rewrite cleanups_hook_world by discriminate. lia.
  - unfold world_after_fetch, world_at_fetch. rewrite log_elapse.
    cbn [log record cleanups]. rewrite cleanups_hook_world by discriminate. lia.
  - rewrite cleanups_world_after_hooks. lia.
  - rewrite log_cleaned. cbn [cleanups]. rewrite cleanups_world_after_hooks. lia.
  - rewrite (cleanups_sleep _ _ _ _ _ Hsl). cbn [log record cleanups].
    rewrite (delay_log _ _ _ _ _ _ _ Hd), cleanups_world_after_hooks.
    destruct rs as [[]|e]; simpl; lia.
Qed.

(** The [catch] block calls [cleanup] exactly when it rethrows what it
    caught; it does not when its wait is rejected. *)
Lemma caught_cleanups k e w r w' :
  caught env sig retryPolicy k e w r w' ->
  (r = Throw e /\ cleanups (log w') = S (cleanups (log w))) \/
  (isAbortError e = false /\ cleanups (log w') = cleanups (log w) /\
   ((exists le', r = Normal (Continue le')) \/ r = Throw AbortedException)).
Proof.
  intros H. destruct H as [Hfin|policy d w1 rs w' Hab Hp Hlt Hd Hsl].
  - left. split; [reflexivity|]. now rewrite log_cleaned.
  - right. split; [assumption|]. split.
    + rewrite (cleanups_sleep _ _ _ _ _ Hsl). cbn [log record cleanups].
      now rewrite (backoff_log _ _ _ _ _ _ Hd).
    + destruct (sleep_outcome _ _ _ _ _ Hsl) as [-> | ->]; simpl; eauto.
Qed.

Lemma turned_cleanups k le w r w' :
  turned env fetchFn sig retryPolicy k le w r w' ->
  match r with
  | Normal (Continue _) => cleanups (log w') = cleanups (log w)
  | Normal (Return _) => cleanups (log w') = S (cleanups (log w))
  | Throw e =>
      cleanups (log w') = S (cleanups (log w)) \/
      (cleanups (log w') = cleanups (log w) /\ e = AbortedException)
  end.
Proof.
  intros H. destruct H as [flow w' Ht|e w1 r w' Ht Hc].
  - apply tried_cleanups in Ht. cbn [log record cleanups] in Ht.
    destruct flow; lia.
  - apply tried_cleanups in Ht. cbn [log record cleanups] in Ht.
    apply caught_cleanups in Hc
      as [[-> Hc]|[_ [Hc [[le' ->] | ->]]]].
    + left. lia.
    + lia.
    + right. split; [lia | reflexivity].
Qed.

(** [cleanup] is called once, or not at all when the request fails with
    the rejection of a wait. *)
Lemma attempts_cleanups n :
  forall k le w,
    let run := attempts env fetchFn sig retryPolicy n k le w in
    cleanups (log (snd run)) = S (cleanups (log w)) \/
    (cleanups (log (snd run)) = cleanups (log w) /\
     fst run = Throw AbortedException).
Proof.
  induction n as [|n IH]; intros k le w; cbv zeta.
  - rewrite attempts_none. cbn [fst snd]. rewrite log_cleaned. now left.
  - cbn [attempts]. unfold bind.
    destruct (attempt_body env fetchFn sig retryPolicy k le w)
      as [[[res|le']|e] w'] eqn:Hb;
      apply attempt_body_turned, turned_cleanups in Hb.
    + now left.
    + rewrite <- Hb. apply IH.
    + cbn [fst snd]. destruct Hb as [Hb|[Hb ->]]; [now left | now right].
Qed.

End Cleanups.

(** Every exit of a request calls [cleanup] exactly once, but the exit by
    the rejection of a wait, which may call it not at all. *)
Lemma cleanup_once_or_wait_rejected env c timeout policy t0 fetchFn :
  fetch_of env = Some fetchFn ->
  cleanups (log_of (logical_request env c timeout policy t0)) = 1%nat \/
  (cleanups (log_of (logical_request env c timeout policy t0)) = 0%nat /\
   outcome_of (logical_request env c timeout policy t0)
   = Throw AbortedException).
Proof.
  intros Hf. unfold log_of, outcome_of.
  rewrite (logical_request_fetch _ _ _ _ _ _ Hf).
  assert (H0 : cleanups (log (snd (composeSignal (userSignal_of c)
                                     (timeout_of env timeout) (start t0 c))))
               = 0%nat).
  { rewrite start_composeSignal_log. unfold timeout_events.
    destruct (timeout_of env timeout) as [t|]; [|reflexivity].
    now destruct (_ && _). }
  match goal with
  | |- context [attempts ?e ?f ?s ?p ?n ?k ?le ?x] =>
      pose proof (attempts_cleanups e f s p n k le x) as H
  end.
  cbv zeta in H. rewrite H0 in H. exact H.
Qed.

(** * Properties of the specification *)

(** Membership of an event in the log of a concrete run. *)
Ltac find_event := vm_compute; repeat (first [left; reflexivity | right]).

(** ** C1: release of the cancellation resources *)

Lemma filter_idem {A} (f : A -> bool) (l : list A) :
  filter f (filter f l) = filter f l.
Proof.
  induction l as [|a l IH]; simpl; [reflexivity|].
  destruct (f a) eqn:E; simpl; [rewrite E|]; now rewrite IH.
Qed.

(** Releasing twice is releasing once. *)
Lemma release_idempotent (c : CleanupFn) (w : World) :
  release c (release c w) = release c w.
Proof.
  unfold release, clearTimeout, set_caller, set_timers, remove_listener.
  destruct w as [n nt ts [ca cl] cw co rj rc lg].
  destruct (cl_baseSignal c), (cl_timeoutId c); simpl;
    now rewrite ?filter_idem.
Qed.

(** What [cleanup] releases: the listener on the caller's signal and the
    timer of the timeout. *)
Lemma release_releases (base : bool) (id : positive) (w : World) :
  let w' := release (mkCleanup base (Some id)) w in
  (forall t, In t (timers w') -> timer_id t <> id) /\
  (base = true -> ~ In ComposeOnAbort (listeners (caller w'))).
Proof.
  unfold release. simpl. split.
  - intros t Ht. apply filter_In in Ht as [_ Ht].
    apply negb_true_iff in Ht. now apply Pos.eqb_neq.
  - intros -> H. simpl in H. apply filter_In in H as [_ H]. discriminate.
Qed.

(** An abort that arrives during the wait after a retried response is
    caught and followed by the cleanup. *)
Lemma cleanup_when_try_wait_is_aborted :
  let run := logical_request Scenario.down_server
               (AbortsAt 50 Scenario.caller_reason) (Some 100)
               (Some Scenario.three_retries) 0 in
  outcome_of run = Throw AbortedException /\
  In Cleanup (log_of run) /\
  timers (world_of run) = [] /\
  listeners (caller (world_of run)) = [].
Proof. vm_compute. repeat split. now left. Qed.

(** C1 (defect of the code): the cancellation resources of a request are
    to be released on every exit path, an abort during a backoff wait
    included.  When the transport fails, the policy asks for a retry and the
    abort arrives during the wait of the [catch] block, the rejection of
    [sleep] leaves [requestWithRetry] without [cleanup()] being called: the
    timer of the timeout stays pending and [onAbort] stays on the caller's
    signal. *)
Theorem cleanup_skipped_when_catch_wait_is_aborted :
  let run := logical_request Scenario.network_down
               (AbortsAt 50 Scenario.caller_reason) (Some 100)
               (Some Scenario.three_retries) 0 in
  outcome_of run = Throw AbortedException /\
  log_of run = [SetTimeout 2 ResolveSleep 205; Sleep 1 5 200 true;
                Fetch 1 true; Attempt 1;
                SetTimeout 1 AbortController_abort 100] /\
  ~ In Cleanup (log_of run) /\
  timers (world_of run) = [timeout_timer 1 100] /\
  listeners (caller (world_of run)) = [ComposeOnAbort].
Proof.
  vm_compute. repeat split.
  intros H. repeat (destruct H as [H|H]; [discriminate H|]). exact H.
Qed.

(** ** C2: failures of the hooks *)




(** ** C3: a cancellation is never retried *)



(** ** C4: number of transport invocations *)

(** With no retry and a pre-attempt hook that throws, the transport is
    not invoked at all. *)
Lemma no_invocation_when_hook_fails :
  retries Scenario.no_retries = 0%Z /\
  invocations
    (log_of (logical_request Scenario.hook_fails_once NoSignal None
               (Some Scenario.no_retries) 0)) = 0%nat.
Proof. split; vm_compute; reflexivity. Qed.

(** C4 (amended): a request under a policy with [retries >= 0] invokes
    the transport at most [retries + 1] times; with [retries = 0] it
    invokes it exactly once when a transport is available and the
    pre-attempt hook, if any, completes, and not at all when that hook
    throws. *)
Theorem transport_invocations (env : Env) (c : CallerSignal)
    (timeout : option Q) (policy : RetryOptions) (t0 : Q) :
  (0 <= retries policy)%Z ->
  (Z.of_nat (invocations
               (log_of (logical_request env c timeout (Some policy) t0)))
   <= retries policy + 1)%Z /\
  (retries policy = 0%Z ->
   (fetch_of env <> None ->
    hook_outcome (beforeRequest env) 1 = Normal tt ->
    invocations (log_of (logical_request env c timeout (Some policy) t0))
    = 1%nat) /\
   (hook_outcome (beforeRequest env) 1 <> Normal tt ->
    invocations (log_of (logical_request env c timeout (Some policy) t0))
    = 0%nat)).
Proof.
  intros Hr. unfold log_of, logical_request. split.
  - pose proof (invocations_bounded env (userSignal_of c) timeout (Some policy)
                  (start t0 c)) as H.
    unfold totalAttempts in H.
    change (invocations (log (start t0 c))) with 0%nat in H. lia.
  - intros H0. split.
    + intros Hf Hb.
      rewrite invocations_single; auto. unfold totalAttempts. now rewrite H0.
    + intros Hb.
      rewrite invocations_blocked; auto. unfold totalAttempts. now rewrite H0.
Qed.

Lemma transport_invocations_witness :
  (Z.of_nat (invocations
               (log_of (logical_request Scenario.flaky NoSignal None
                          (Some Scenario.retry_once) 0)))
   <= retries Scenario.retry_once + 1)%Z.
Proof.
  refine (proj1 (transport_invocations Scenario.flaky NoSignal None
                   Scenario.retry_once 0 _)).
  vm_compute. discriminate.
Defined.

(** ** C5: one timeout for the whole request *)



(** ** C6: method gating *)




(** ** C7: the backoff delay *)

Lemma rawDelay_attempt (k : Z) (p : RetryOptions) :
  (1 <= k)%Z ->
  rawDelay k p = Qmin (maxDelay p) (minDelay p * factor p ^ (k - 1)).
Proof.
  intros Hk. unfold rawDelay. now rewrite Z.max_r by lia.
Qed.

Lemma rawDelay_nonneg (k : Z) (p : RetryOptions) :
  0 <= minDelay p -> minDelay p <= maxDelay p -> 1 <= factor p ->
  0 <= rawDelay k p.
Proof.
  intros Hmin Hle Hf. unfold rawDelay.
  assert (Hpow : 0 <= factor p ^ Z.max 0 (k - 1)).
  { apply Qpower_0_le. lra. }
  apply Q.min_glb.
  - lra.
  - apply Qmult_le_0_compat; assumption.
Qed.




(** ** C8: the Retry-After header *)



(** ** C9: the composed signal and the caller's signal *)

(** A caller's abort that comes after the composition aborts the composed
    signal, with the caller's reason. *)
Lemma composed_signal_follows_abort (t0 a d : Q) (r : JsError) :
  a <= t0 + Qmax 0 d ->
  aborted (composed
             (elapse d (snd (composeSignal true None (start t0 (AbortsAt a r))))))
  = Some (Qmax t0 a, r).
Proof.
  intros Hle. unfold elapse, agenda. cbn [composeSignal start snd negb andb
    no_timeout userSignal_of set_composed set_caller caller_will_abort timers
    fold_left schedule filter pending_at now].
  apply Qle_bool_iff in Hle. rewrite Hle. reflexivity.
Qed.

(** C9 (defect of the code): the composed signal is to follow the
    caller's signal, an abort that precedes the composition included.
    [composeSignal] only adds a listener for a coming ['abort'] event and
    never reads [baseSignal.aborted], as [sleep] does for its own signal:
    composed from a signal that is already aborted, the composed signal is
    not aborted, and no lapse of time makes it so. *)
Theorem composed_signal_misses_prior_abort (t0 d : Q) (r : JsError) :
  aborted (caller (start t0 (AlreadyAborted r))) = Some (t0, r) /\
  signal (fst (composeSignal true None (start t0 (AlreadyAborted r)))) = true /\
  aborted (composed (snd (composeSignal true None (start t0 (AlreadyAborted r)))))
  = None /\
  aborted (composed
             (elapse d (snd (composeSignal true None
                                           (start t0 (AlreadyAborted r))))))
  = None.
Proof. repeat split. Qed.

(** ** C10: empty bodies under the JSON parser *)

(** C10: for a response whose status is 204 or 205, or whose body is empty
    or made of white space only, the parser of the operations [json],
    [get], [post], [put], [patch], [del] and [safeJson] gives [undefined],
    whatever [JSON.parse] would do with the body. *)
Theorem json_parser_no_content (P : Platform) (res : Response)
    (op : Operation) (parseAs : option ResponseParser) :
  In op [OpJson; OpGet; OpPost; OpPut; OpPatch; OpDel; OpSafeJson] ->
  status res = 204%Z \/ status res = 205%Z \/ whitespace_only (body res) = true ->
  parseResponse P res (chosen_parser (Some (parser_of op)) parseAs)
  = Normal Undefined.
Proof.
  intros Hop Hres.
  assert (Hp : parser_of op = ParseJson).
  { repeat (destruct Hop as [<-|Hop]; [reflexivity|]). destruct Hop. }
  unfold chosen_parser, parseResponse. rewrite Hp.
  destruct Hres as [->|[->|Hws]]; try reflexivity.
  rewrite (trim_whitespace_only _ Hws). simpl.
  rewrite orb_true_r. now destruct (_ || _).
Qed.

Lemma json_parser_no_content_witness :
  parseResponse Scenario.platform
    (mkResponse 200 None (String " " (String "010" EmptyString)))
    (chosen_parser (Some (parser_of OpGet)) None)
  = Normal Undefined.
Proof.
  apply json_parser_no_content.
  - simpl. right. now left.
  - right. right. reflexivity.
Defined.

(** * Further properties of the retry helpers and of the orchestrator *)

(** ** The backoff without jitter *)



(** ** The method list of a policy *)

(** X2: only the method of the request is upper-cased, the entries of
    the method list are compared as they are: a policy whose list is not
    empty and has no entry in upper case is dropped for every request,
    whatever its method. *)
Theorem method_entries_are_case_sensitive (dflt : option RetrySetting)
    (method : option string) (req : option RetrySetting) (src : RetrySetting) :
  match req with None => dflt | Some _ => req end = Some src ->
  methods (mergedPolicy src) <> [] ->
  (forall x, In x (methods (mergedPolicy src)) -> Js.toUpperCase x <> x) ->
  resolveRetry dflt method req = None.
Proof.
  intros Hsrc Hne Hlow.
  destruct (resolveRetry dflt method req) as [p|] eqn:E; [|reflexivity].
  exfalso. pose proof (resolveRetry_Some _ _ _ _ E) as H.
  unfold resolveRetry in E. rewrite Hsrc in E.
  destruct (negb (truthy src)); [discriminate|].
  destruct (_ && _); [discriminate|]. injection E as <-.
  destruct H as [H|H]; [contradiction|].
  apply (Hlow _ H). apply normalizeMethod_upper.
Qed.

Lemma method_entries_are_case_sensitive_witness :
  resolveRetry None (Some "get"%string)
    (Some Case.lowercase_methods)
  = None.
Proof.
  apply (method_entries_are_case_sensitive None (Some "get"%string) _
           Case.lowercase_methods).
  - reflexivity.
  - discriminate.
  - intros x [<-|[]]. vm_compute. discriminate.
Defined.

(** ** The waits of a request *)

Lemma waits_app l1 l2 : waits (l1 ++ l2) = (waits l1 + waits l2)%nat.
Proof.
  induction l1 as [|e l1 IH]; simpl; [reflexivity|].
  destruct e; simpl; now rewrite IH.
Qed.

Lemma waits_hook_world hook e k w :
  ~ is_sleep e -> waits (log (hook_world hook e k w)) = waits (log w).
Proof.
  intros He. rewrite log_hook_world. destruct hook; simpl; [|reflexivity].
  destruct e; try reflexivity. now destruct He.
Qed.

Lemma waits_sleep ms sg w r w' :
  sleep ms sg w = (r, w') -> waits (log w') = waits (log w).
Proof.
  intros H. apply log_sleep in H as [[_ ->] | ->]; reflexivity.
Qed.

Section TurnWaits.

Variable env : Env.
Variable fetchFn : Z -> Settles Response.
Variable sig : ComposedSignal.
Variable retryPolicy : option RetryOptions.

Lemma waits_world_after_hooks k w :
  waits (log (world_after_hooks env fetchFn sig k w)) = waits (log w).
Proof.
  unfold world_after_hooks, world_after_fetch, world_at_fetch.
  rewrite waits_hook_world by (exact (fun f => f)).
  rewrite log_elapse. cbn [log record waits].
  now rewrite waits_hook_world by (exact (fun f => f)).
Qed.

(** A turn waits at most once, and only when an attempt is left. *)
Lemma tried_waits k le w r w' :
  tried env fetchFn sig retryPolicy k le w r w' ->
  waits (log w') = waits (log w) \/
  (waits (log w') = S (waits (log w)) /\ (k < totalAttempts retryPolicy)%Z /\
   forall e, r = Throw e -> e = AbortedException).
Proof.
  intros H. destruct H as [e He|e He Hf|res e He Hf Hh|res He Hf Hh Hs
                          |res policy d w1 rs w' He Hf Hh Hp Hs Hd Hsl].
  - left. now rewrite waits_hook_world by (exact (fun f => f)).
  - left. unfold world_after_fetch, world_at_fetch. rewrite log_elapse.
    cbn [log record waits]. now rewrite waits_hook_world by (exact (fun f => f)).
  - left. apply waits_world_after_hooks.
  - left. rewrite log_cleaned. cbn [waits]. apply waits_world_after_hooks.
  - right. split; [|split].
    + rewrite (waits_sleep _ _ _ _ _ Hsl). cbn [log record waits].
      now rewrite (delay_log _ _ _ _ _ _ _ Hd), waits_world_after_hooks.
    + unfold should_retry in Hs. rewrite Hp in Hs.
      apply andb_true_iff in Hs as [_ Hs].
      apply andb_true_iff in Hs as [_ Hs].
      rewrite <- Hp in Hs. now apply Z.ltb_lt.
    + intros e E.
      destruct (sleep_outcome _ _ _ _ _ Hsl) as [-> | ->]; simpl in E;
        congruence.
Qed.

Lemma caught_waits k e w r w' :
  caught env sig retryPolicy k e w r w' ->
  (waits (log w') = waits (log w) /\ (isAbortError e = true -> r = Throw e)) \/
  (waits (log w') = S (waits (log w)) /\ (k < totalAttempts retryPolicy)%Z /\
   isAbortError e = false).
Proof.
  intros H. destruct H as [Hfin|policy d w1 rs w' Hab Hp Hlt Hd Hsl].
  - left. now rewrite log_cleaned.
  - right. split; [|split; assumption].
    rewrite (waits_sleep _ _ _ _ _ Hsl). cbn [log record waits].
    now rewrite (backoff_log _ _ _ _ _ _ Hd).
Qed.

(** The wait of the [try] block is rejected with an abort error, which
    the [catch] block rethrows: a turn never waits twice. *)
Lemma turned_waits k le w r w' :
  turned env fetchFn sig retryPolicy k le w r w' ->
  waits (log w') = waits (log w) \/
  (waits (log w') = S (waits (log w)) /\ (k < totalAttempts retryPolicy)%Z).
Proof.
  intros H. destruct H as [flow w' Ht|e w1 r w' Ht Hc].
  - apply tried_waits in Ht. cbn [log record waits] in Ht.
    destruct Ht as [Ht|[Ht [Hlt _]]]; [now left | now right].
  - apply tried_waits in Ht. cbn [log record waits] in Ht.
    apply caught_waits in Hc.
    destruct Ht as [Ht|[Ht [Hlt He]]].
    + rewrite <- Ht. destruct Hc as [[Hc _]|[Hc [Hlt _]]];
        [now left | now right].
    + rewrite (He e eq_refl) in Hc.
      destruct Hc as [[Hc _]|[_ [_ Hc]]]; [|discriminate].
      right. split; [congruence | assumption].
Qed.

Lemma attempts_waits n k le w :
  (n = 0%nat \/ k + Z.of_nat n = totalAttempts retryPolicy + 1)%Z ->
  (Z.of_nat (waits (log (snd (attempts env fetchFn sig retryPolicy n k le w))))
   <= Z.of_nat (waits (log w)) + Z.max 0 (totalAttempts retryPolicy - k))%Z.
Proof.
  intros [->|Hk].
  { rewrite attempts_none. cbn [snd]. rewrite log_cleaned. cbn [waits]. lia. }
  destruct n as [|n].
  { rewrite attempts_none. cbn [snd]. rewrite log_cleaned. cbn [waits]. lia. }
  apply (attempts_rule env fetchFn sig retryPolicy
           (fun j w1 => (Z.of_nat (waits (log w1))
                         <= Z.of_nat (waits (log w)) + (j - k))%Z)
           (fun _ w1 => (Z.of_nat (waits (log w1))
                         <= Z.of_nat (waits (log w))
                            + Z.max 0 (totalAttempts retryPolicy - k))%Z));
    try (lia || assumption).
  - intros j le0 w0 le' w' Hj HI Ht. apply turned_waits in Ht. lia.
  - intros j le0 w0 res w' Hj HI Ht. apply turned_waits in Ht. lia.
  - intros j le0 w0 e w' Hj HI Ht. apply turned_waits in Ht. lia.
Qed.

(** What a turn that returns has gone through. *)
Lemma turned_return k le w res w' :
  turned env fetchFn sig retryPolicy k le w (Normal (Return res)) w' ->
  hook_outcome (beforeRequest env) k = Normal tt /\
  outcome (fetchFn k) = Normal res /\
  hook_outcome (afterResponse env) k = Normal tt /\
  should_retry retryPolicy k res = false /\
  w' = cleaned (cleanup sig)
         (world_after_hooks env fetchFn sig k (record (Attempt k) w)).
Proof.
  intros H. inversion H as [flow w0 Ht|e w1 r w0 Ht Hc]; subst.
  - inversion Ht as [| | |res' He Hf Hh Hs
                    |res' policy d w1 rs w2 He Hf Hh Hp Hs Hd Hsl]; subst.
    + repeat split; assumption.
    + destruct rs; discriminate.
  - inversion Hc as [Hfin|policy d w2 rs w3 Hab Hp Hlt Hd Hsl]; subst.
    destruct rs; discriminate.
Qed.

End TurnWaits.

(** X3: a request makes at most [retries] backoff waits (none without a
    policy), whatever the hooks, the transport and the signals do. *)
Theorem waits_bounded (env : Env) (c : CallerSignal) (timeout : option Q)
    (policy : option RetryOptions) (t0 : Q) :
  (Z.of_nat (waits (log_of (logical_request env c timeout policy t0)))
   <= Z.max 0 (match policy with Some p => retries p | None => 0 end))%Z.
Proof.
  unfold log_of. destruct (fetch_of env) as [fetchFn|] eqn:Hf.
  - rewrite (logical_request_fetch _ _ _ _ _ _ Hf).
    match goal with
    | |- context [attempts ?e ?f ?s ?p ?n ?k ?le ?x] =>
        pose proof (attempts_waits e f s p n k le x (loop_count _)) as H
    end.
    assert (H0 : waits (log (snd (composeSignal (userSignal_of c)
                                    (timeout_of env timeout) (start t0 c))))
                 = 0%nat).
    { rewrite start_composeSignal_log. unfold timeout_events.
      destruct (timeout_of env timeout) as [t|]; [|reflexivity].
      now destruct (_ && _). }
    rewrite H0 in H. unfold totalAttempts in *. destruct policy; lia.
  - unfold logical_request.
    rewrite (requestWithRetry_no_fetch _ _ _ _ _ Hf). simpl. lia.
Qed.

(** ** What a request returns *)

Lemma start_composeSignal_counts t0 c tm :
  invocations (log (snd (composeSignal (userSignal_of c) tm (start t0 c))))
  = 0%nat /\
  cleanups (log (snd (composeSignal (userSignal_of c) tm (start t0 c))))
  = 0%nat.
Proof.
  rewrite start_composeSignal_log. unfold timeout_events.
  destruct tm as [t|]; [|now split].
  now destruct (_ && _).
Qed.

(** X4: the orchestrator never looks at the signal itself.  When the
    first attempt goes through (the hooks complete and the transport
    resolves with a response that is ok), that response is returned after
    one transport invocation and one cleanup, whatever the timeout and the
    caller's signal are, a signal that is already aborted included. *)
Theorem ok_response_is_returned (env : Env) (c : CallerSignal)
    (timeout : option Q) (policy : option RetryOptions) (t0 : Q)
    (fetchFn : Z -> Settles Response) (res : Response) :
  fetch_of env = Some fetchFn ->
  (1 <= totalAttempts policy)%Z ->
  hook_outcome (beforeRequest env) 1 = Normal tt ->
  outcome (fetchFn 1%Z) = Normal res ->
  hook_outcome (afterResponse env) 1 = Normal tt ->
  ok res = true ->
  outcome_of (logical_request env c timeout policy t0) = Normal res /\
  invocations (log_of (logical_request env c timeout policy t0)) = 1%nat /\
  cleanups (log_of (logical_request env c timeout policy t0)) = 1%nat /\
  attempts_below (1 + 1) (log_of (logical_request env c timeout policy t0)).
Proof.
  intros Hf Htot Hb Hr Ha Hok. unfold outcome_of, log_of.
  rewrite (logical_request_fetch _ _ _ _ _ _ Hf).
  destruct (start_composeSignal_counts t0 c (timeout_of env timeout))
    as [I0 C0].
  pose proof (start_composed_untagged t0 c (timeout_of env timeout) 1) as U0.
  set (sig := fst (composeSignal (userSignal_of c) (timeout_of env timeout)
                                 (start t0 c))) in *.
  set (w0 := snd (composeSignal (userSignal_of c) (timeout_of env timeout)
                                (start t0 c))) in *.
  destruct (Z.to_nat (totalAttempts policy)) as [|n] eqn:En; [lia|].
  cbn [attempts]. unfold bind.
  destruct (attempt_body env fetchFn sig policy 1 None w0) as [r w'] eqn:Hbody.
  apply attempt_body_turned in Hbody.
  assert (Hret : r = Normal (Return res)).
  { inversion Hbody as [flow w1 Htry|e wt r0 w1 Htry Hc]; subst.
    - inversion Htry as [| | |res' He Hf' Hh Hs
                        |res' policy' d w1 rs w2 He Hf' Hh Hp' Hs Hd Hsl];
        subst.
      + congruence.
      + exfalso. unfold should_retry in Hs.
        assert (res' = res) by congruence. subst res'.
        rewrite Hok in Hs. simpl in Hs. discriminate Hs.
    - exfalso.
      inversion Htry as [e1 He|e1 He Hf'|res' e1 He Hf' Hh|
                        |res' policy' d w1 rs w2 He Hf' Hh Hp' Hs Hd Hsl];
        subst; try congruence.
      unfold should_retry in Hs.
      assert (res' = res) by congruence. subst res'.
      rewrite Hok in Hs. simpl in Hs. discriminate Hs. }
  subst r. cbn [fst snd ret].
  pose proof (turned_log _ _ _ _ _ _ _ _ _ Hbody)
    as [delta [L [Fd [_ [_ [N _]]]]]].
  pose proof (turned_cleanups _ _ _ _ _ _ _ _ _ Hbody) as Hc.
  cbn beta iota in Hc.
  split; [reflexivity|]. split; [|split].
  - rewrite L, invocations_app, (N Hb), I0. reflexivity.
  - rewrite Hc, C0. reflexivity.
  - rewrite L. eapply attempts_below_app; [exact Fd|].
    now apply attempts_within_below with (k0 := 1%Z).
Qed.


Lemma ok_response_is_returned_witness :
  outcome_of (logical_request Case.healthy
                (AlreadyAborted Scenario.caller_reason) (Some 1)
                (Some Scenario.three_retries) 0) = Normal Scenario.ok200 /\
  invocations (log_of (logical_request Case.healthy
                         (AlreadyAborted Scenario.caller_reason) (Some 1)
                         (Some Scenario.three_retries) 0)) = 1%nat /\
  cleanups (log_of (logical_request Case.healthy
                      (AlreadyAborted Scenario.caller_reason) (Some 1)
                      (Some Scenario.three_retries) 0)) = 1%nat /\
  attempts_below (1 + 1)
    (log_of (logical_request Case.healthy
               (AlreadyAborted Scenario.caller_reason) (Some 1)
               (Some Scenario.three_retries) 0)).
Proof.
  apply (ok_response_is_returned Case.healthy
           (AlreadyAborted Scenario.caller_reason) (Some 1)
           (Some Scenario.three_retries) 0
           (fun _ => mkSettles 3 (Normal Scenario.ok200)));
    try reflexivity.
  vm_compute. discriminate.
Defined.

(** X5: a response that [requestWithRetry] returns is the response the
    transport gave at the last attempt made, with both hooks completed at
    that attempt; when it is not ok and its status is one the policy
    retries, every attempt of the policy has been used. *)
Theorem returned_response_is_final (env : Env) (c : CallerSignal)
    (timeout : option Q) (policy : option RetryOptions) (t0 : Q)
    (fetchFn : Z -> Settles Response) (res : Response) :
  fetch_of env = Some fetchFn ->
  outcome_of (logical_request env c timeout policy t0) = Normal res ->
  exists k,
    (1 <= k <= totalAttempts policy)%Z /\
    In (Attempt k) (log_of (logical_request env c timeout policy t0)) /\
    attempts_below (k + 1) (log_of (logical_request env c timeout policy t0)) /\
    hook_outcome (beforeRequest env) k = Normal tt /\
    outcome (fetchFn k) = Normal res /\
    hook_outcome (afterResponse env) k = Normal tt /\
    (forall p,
        policy = Some p -> ok res = false ->
        Js.includes_Z (statusCodes p) (status res) = true ->
        k = (retries p + 1)%Z).
Proof.
  intros Hf. unfold outcome_of, log_of.
  rewrite (logical_request_fetch _ _ _ _ _ _ Hf).
  pose proof (start_composed_untagged t0 c (timeout_of env timeout) 1) as U0.
  set (sig := fst (composeSignal (userSignal_of c) (timeout_of env timeout)
                                 (start t0 c))) in *.
  set (w0 := snd (composeSignal (userSignal_of c) (timeout_of env timeout)
                                (start t0 c))) in *.
  destruct (Z.to_nat (totalAttempts policy)) as [|n] eqn:En.
  { rewrite attempts_none. discriminate. }
  revert res.
  apply (attempts_rule env fetchFn sig policy
           (fun k w => (1 <= k)%Z /\ attempts_within 1 k (log w))
           (fun r w' =>
              forall res, r = Normal res ->
              exists k,
                (1 <= k <= totalAttempts policy)%Z /\
                In (Attempt k) (log w') /\
                attempts_below (k + 1) (log w') /\
                hook_outcome (beforeRequest env) k = Normal tt /\
                outcome (fetchFn k) = Normal res /\
                hook_outcome (afterResponse env) k = Normal tt /\
                (forall p,
                    policy = Some p -> ok res = false ->
                    Js.includes_Z (statusCodes p) (status res) = true ->
                    k = (retries p + 1)%Z)));
    try lia.
  - intros k le w le' w' Hk [H1 Hw] Ht.
    apply turned_log in Ht as [delta [L [Fd _]]].
    split; [lia|]. rewrite L.
    now apply (attempts_within_turn sig).
  - intros k le w r w' Hk [H1 Hw] Ht res E. injection E as ->.
    pose proof (turned_log _ _ _ _ _ _ _ _ _ Ht) as [delta [L [Fd [Hin _]]]].
    apply turned_return in Ht as [Hb [Hr [Ha [Hs _]]]].
    exists k. split; [lia|]. split.
    { rewrite L. apply in_or_app. now left. }
    split.
    { rewrite L. eapply attempts_below_app; [exact Fd|].
      now apply attempts_within_below with (k0 := 1%Z). }
    repeat (split; [assumption|]).
    intros p -> Hnok Hcode. unfold should_retry in Hs.
    rewrite Hnok, Hcode in Hs. simpl in Hs.
    apply Z.ltb_ge in Hs. unfold totalAttempts in *. lia.
  - intros k le w e w' Hk HI Ht res E. discriminate.
  - split; [lia | exact U0].
Qed.

Lemma returned_response_is_final_witness :
  exists k,
    (1 <= k <= totalAttempts (Some Scenario.retry_once))%Z /\
    In (Attempt k)
       (log_of (logical_request Scenario.down_server NoSignal None
                  (Some Scenario.retry_once) 0)) /\
    attempts_below (k + 1)
       (log_of (logical_request Scenario.down_server NoSignal None
                  (Some Scenario.retry_once) 0)) /\
    hook_outcome (beforeRequest Scenario.down_server) k = Normal tt /\
    outcome (mkSettles 1 (Normal Scenario.unavailable)) = Normal Scenario.unavailable /\
    hook_outcome (afterResponse Scenario.down_server) k = Normal tt /\
    (forall p,
        Some Scenario.retry_once = Some p -> ok Scenario.unavailable = false ->
        Js.includes_Z (statusCodes p) (status Scenario.unavailable) = true ->
        k = (retries p + 1)%Z).
Proof.
  apply (returned_response_is_final Scenario.down_server NoSignal None
           (Some Scenario.retry_once) 0
           (fun _ => mkSettles 1 (Normal Scenario.unavailable))
           Scenario.unavailable).
  - reflexivity.
  - vm_compute. reflexivity.
Defined.

(** X6: a policy with a negative number of retries (the setting
    [retry: n] with [n < 0] is truthy) leaves the loop without a turn: the
    request fails with [Error('Request failed')], after a cleanup, and the
    transport is never invoked. *)
Theorem negative_retries_never_fetch (env : Env) (c : CallerSignal)
    (method : option string) (n : Z) (timeout : option Q) (t0 : Q) :
  fetch_of env <> None -> (n < 0)%Z ->
  In (normalizeMethod method) ["GET"%string; "HEAD"%string] ->
  resolveRetry (defaultRetry env) method (Some (RetryNumber n))
  = Some (with_retries DEFAULT_RETRY n) /\
  outcome_of (request env c method (Some (RetryNumber n)) timeout t0)
  = Throw (mkError "Error" "Request failed") /\
  log_of (request env c method (Some (RetryNumber n)) timeout t0)
  = Cleanup :: timeout_events t0 (timeout_of env timeout).
Proof.
  intros Hf Hn Hm.
  assert (Hres : resolveRetry (defaultRetry env) method (Some (RetryNumber n))
                 = Some (with_retries DEFAULT_RETRY n)).
  { unfold resolveRetry.
    assert (E : (n =? 0)%Z = false) by (apply Z.eqb_neq; lia).
    cbn [truthy]. rewrite E. cbn [negb mergedPolicy with_retries methods].
    apply includes_str_In in Hm. cbn [DEFAULT_RETRY methods].
    rewrite Hm. reflexivity. }
  split; [exact Hres|].
  unfold request, outcome_of, log_of. rewrite Hres.
  destruct (fetch_of env) as [fetchFn|] eqn:E; [|congruence].
  rewrite (logical_request_fetch _ _ _ _ _ _ E).
  unfold totalAttempts. cbn [with_retries retries].
  replace (Z.to_nat (n + 1)) with 0%nat by lia.
  rewrite attempts_none. cbn [fst snd or_else]. split; [reflexivity|].
  now rewrite log_cleaned, start_composeSignal_log.
Qed.

Lemma negative_retries_never_fetch_witness :
  outcome_of (request Case.healthy NoSignal None (Some (RetryNumber (-1)))
                None 0)
  = Throw (mkError "Error" "Request failed").
Proof.
  refine (proj1 (proj2 (negative_retries_never_fetch Case.healthy NoSignal
                          None (-1) None 0 _ _ _))).
  - discriminate.
  - lia.
  - now left.
Defined.

(** ** What a request leaves behind *)

Lemma shrinks_fold_fire tasks :
  forall w,
    (forall l, In l (listeners (caller w)) -> l = ComposeOnAbort) ->
    shrinks w (fold_left (fun w p => fire p w) tasks w).
Proof.
  induction tasks as [|p tasks IH]; intros w Hc; simpl; [apply shrinks_refl|].
  pose proof (shrinks_fire p w Hc) as Hs.
  eapply shrinks_trans; [exact Hs|]. apply IH.
  rewrite (shrinks_caller _ _ Hs). exact Hc.
Qed.

Lemma tidy_shrinks c w w' : shrinks w w' -> tidy c w -> tidy c w'.
Proof.
  intros Hs [Ht Hl]. split.
  - intros t H. apply Ht. now apply (shrinks_timers _ _ Hs).
  - intros l H. apply Hl. now rewrite <- (shrinks_caller _ _ Hs).
Qed.

Lemma tidy_callers c w :
  tidy c w -> forall l, In l (listeners (caller w)) -> l = ComposeOnAbort.
Proof. intros [_ H] l Hl. now apply H. Qed.

Lemma tidy_elapse c d w : tidy c w -> tidy c (elapse d w).
Proof.
  intros H. unfold elapse.
  apply (tidy_shrinks c w); [|exact H].
  match goal with
  | |- shrinks _ (set_now _ (fold_left _ ?ts _)) =>
      pose proof (shrinks_fold_fire ts w (tidy_callers c w H)) as Hs
  end.
  destruct Hs as [N T C L A]. split; assumption.
Qed.

(** A wait that is resolved has only run tasks that remove timers. *)
Lemma wait_sleep_shrinks id d before :
  forall w w',
    (forall l, In l (listeners (caller w)) -> l = ComposeOnAbort) ->
    wait_sleep id d before w = (true, w') ->
    exists wl, shrinks w wl /\
               w' = clearTimeout id (set_now (Qmax (now wl) d) wl).
Proof.
  induction before as [|p rest IH]; intros w w' Hc H; simpl in H.
  - injection H as <-. exists w. split; [apply shrinks_refl | reflexivity].
  - destruct (existsb (Pos.eqb id) (rejected (fire p w))); [discriminate|].
    pose proof (shrinks_fire p w Hc) as Hs.
    destruct (IH _ _ (fun l Hl => Hc l (eq_ind _ (fun x => In l x) Hl _
                                          (shrinks_caller _ _ Hs))) H)
      as [wl [Hwl ->]].
    exists wl. split; [eapply shrinks_trans; eassumption | reflexivity].
Qed.

Lemma tidy_sleep c ms sg w w' :
  tidy c w -> sleep ms sg w = (Normal tt, w') -> tidy c w'.
Proof.
  intros Ht H. unfold sleep in H.
  destruct (sg && is_aborted (composed w)); [discriminate|].
  cbn [setTimeout] in H.
  set (t := next_timer w) in *.
  set (w1 := record (SetTimeout t ResolveSleep (now w + Qmax 0 ms))
               (set_timers (Pos.succ t)
                  (timers w ++ [mkTimer t (now w + Qmax 0 ms) ResolveSleep]) w))
    in *.
  set (w2 := if sg
             then set_composed (add_listener (SleepOnAbort t) (composed w1)) w1
             else w1) in *.
  destruct (wait_sleep t (now w + Qmax 0 ms) (tasks_before t (agenda w2)) w2)
    as [[|] w3] eqn:E; [|discriminate].
  injection H as <-.
  assert (Hc2 : listeners (caller w2) = listeners (caller w))
    by (subst w2; destruct sg; reflexivity).
  assert (Ht2 : timers w2
                = timers w ++ [mkTimer t (now w + Qmax 0 ms) ResolveSleep])
    by (subst w2; destruct sg; reflexivity).
  apply wait_sleep_shrinks in E as [wl [Hs ->]].
  2:{ rewrite Hc2. apply (tidy_callers c w Ht). }
  destruct Ht as [Htm Hl]. split.
  - intros x Hx. cbn [clearTimeout set_timers set_now timers] in Hx.
    apply filter_In in Hx as [Hx Hid].
    apply (shrinks_timers _ _ Hs) in Hx. rewrite Ht2 in Hx.
    apply in_app_or in Hx as [Hx|[<-|[]]]; [now apply Htm|].
    simpl in Hid. now rewrite Pos.eqb_refl in Hid.
  - intros l Hin. apply Hl.
    cbn [clearTimeout set_timers set_now caller] in Hin.
    now rewrite (shrinks_caller _ _ Hs), Hc2 in Hin.
Qed.

Lemma kept_tidy c : kept (tidy c).
Proof.
  split.
  - intros d w. apply tidy_elapse.
  - intros e w H. exact H.
  - intros n w H. exact H.
  - intros ms sg w w'. apply tidy_sleep.
Qed.

(** The cleanup releases all there is to release. *)
Lemma cleaned_tidy c w :
  tidy c w ->
  timers (cleaned c w) = [] /\ listeners (caller (cleaned c w)) = [].
Proof.
  intros [Ht Hl]. unfold cleaned, release. split.
  - assert (E : timers (if cl_baseSignal c
                        then set_caller
                               (remove_listener ComposeOnAbort
                                  (caller (record Cleanup w)))
                               (caller_will_abort (record Cleanup w))
                               (record Cleanup w)
                        else record Cleanup w) = timers w)
      by (destruct (cl_baseSignal c); reflexivity).
    destruct (cl_timeoutId c) as [id|] eqn:Eid.
    + cbn [clearTimeout set_timers timers]. rewrite E.
      assert (Hall : forall x, In x (timers w) -> timer_id x = id)
        by (intros x Hx; specialize (Ht x Hx); congruence).
      clear Ht E. induction (timers w) as [|x l IH]; [reflexivity|].
      simpl. rewrite (Hall x (or_introl eq_refl)), Pos.eqb_refl. simpl.
      apply IH. intros y Hy. apply Hall. now right.
    + rewrite E. destruct (timers w) as [|x l]; [reflexivity|].
      specialize (Ht x (or_introl eq_refl)). discriminate.
  - assert (E : listeners (caller (if cl_baseSignal c
                        then set_caller
                               (remove_listener ComposeOnAbort
                                  (caller (record Cleanup w)))
                               (caller_will_abort (record Cleanup w))
                               (record Cleanup w)
                        else record Cleanup w)) = []).
    { destruct (cl_baseSignal c) eqn:Eb.
      - cbn [set_caller caller remove_listener listeners record].
        assert (Hall : forall l, In l (listeners (caller w)) ->
                                 l = ComposeOnAbort)
          by (intros l H; now apply Hl).
        clear Hl. induction (listeners (caller w)) as [|l ls IH];
          [reflexivity|].
        simpl. rewrite (Hall l (or_introl eq_refl)). simpl.
        apply IH. intros y Hy. apply Hall. now right.
      - cbn [record caller].
        destruct (listeners (caller w)) as [|l ls]; [reflexivity|].
        destruct (Hl l (or_introl eq_refl)) as [_ H]. discriminate. }
    destruct (cl_timeoutId c); exact E.
Qed.

Section Kept.

Variable env : Env.
Variable fetchFn : Z -> Settles Response.
Variable sig : ComposedSignal.
Variable retryPolicy : option RetryOptions.
Variable J : World -> Prop.
Hypothesis J_kept : kept J.

Lemma kept_hook_world hook e k w : J w -> J (hook_world hook e k w).
Proof.
  intros H. destruct hook; simpl; [|exact H].
  now apply (kept_elapse J J_kept), (kept_record J J_kept).
Qed.

Lemma kept_world_after_fetch k w :
  J w -> J (world_after_fetch env fetchFn sig k w).
Proof.
  intros H. unfold world_after_fetch, world_at_fetch.
  now apply (kept_elapse J J_kept), (kept_record J J_kept), kept_hook_world.
Qed.

Lemma kept_world_after_hooks k w :
  J w -> J (world_after_hooks env fetchFn sig k w).
Proof.
  intros H. unfold world_after_hooks.
  now apply kept_hook_world, kept_world_after_fetch.
Qed.

Lemma kept_random_world w w1 :
  w1 = w \/ (exists n, w1 = set_random_calls n w) -> J w -> J w1.
Proof.
  intros [->|[n ->]] H; [exact H|]. now apply (kept_random J J_kept).
Qed.

(** A turn keeps [J] as long as no wait is rejected; when it leaves the
    loop, it does so through the cleanup. *)
Lemma turned_kept k le w r w' :
  turned env fetchFn sig retryPolicy k le w r w' -> J w ->
  match r with
  | Normal (Continue _) => J w'
  | Normal (Return _) => exists w0, J w0 /\ w' = cleaned (cleanup sig) w0
  | Throw e =>
      isAbortError e = false ->
      exists w0, J w0 /\ w' = cleaned (cleanup sig) w0
  end.
Proof.
  intros Ht HJ.
  assert (HJ0 : J (record (Attempt k) w)) by now apply (kept_record J J_kept).
  inversion Ht as [flow w0 Htry|e wt r0 w0 Htry Hc]; subst.
  - inversion Htry as [| | |res He Hf Hh Hs
                      |res policy d w1 rs w2 He Hf Hh Hp Hs Hd Hsl]; subst.
    + eexists. split; [|reflexivity]. now apply kept_world_after_hooks.
    + destruct rs as [[]|e]; [|discriminate].
      match goal with H : after_sleep _ _ = Normal _ |- _ =>
        simpl in H; injection H as <- end.
      pose proof (retry_delay_world _ _ _ _ _ _ _ Hd) as [Hw1 _].
      eapply (kept_sleep J J_kept); [|exact Hsl].
      apply (kept_record J J_kept), (kept_random_world _ _ Hw1).
      now apply kept_world_after_hooks.
  - assert (Hwt : isAbortError e = false -> J wt).
    { intros Hab.
      inversion Htry as [e0 He|e0 He Hf|res e0 He Hf Hh|
                        |res policy d w1 rs w2 He Hf Hh Hp Hs Hd Hsl]; subst.
      - now apply kept_hook_world.
      - now apply kept_world_after_fetch.
      - now apply kept_world_after_hooks.
      - destruct (sleep_outcome _ _ _ _ _ Hsl) as [-> | ->];
          [discriminate|].
        match goal with H : after_sleep _ _ = Throw _ |- _ =>
          simpl in H; injection H as <- end.
        discriminate. }
    inversion Hc as [Hfin|policy d w1 rs w2 Hab Hp Hlt Hd Hsl]; subst.
    + intros Hab. exists wt. split; [now apply Hwt | reflexivity].
    + pose proof (backoff_world _ _ _ _ _ _ Hd) as [Hw1 _].
      destruct (sleep_outcome _ _ _ _ _ Hsl) as [-> | ->]; simpl.
      * eapply (kept_sleep J J_kept); [|exact Hsl].
        apply (kept_record J J_kept), (kept_random_world _ _ Hw1).
        now apply Hwt.
      * discriminate.
Qed.

Lemma attempts_kept n :
  forall k le w,
    J w ->
    settled_without_abort (fst (attempts env fetchFn sig retryPolicy n k le w)) ->
    exists w0,
      J w0 /\
      snd (attempts env fetchFn sig retryPolicy n k le w)
      = cleaned (cleanup sig) w0.
Proof.
  induction n as [|n IH]; intros k le w HJ Hs.
  - rewrite attempts_none. exists w. now split.
  - revert Hs. cbn [attempts]. unfold bind.
    destruct (attempt_body env fetchFn sig retryPolicy k le w)
      as [[[res|le']|e] w'] eqn:Hb;
      apply attempt_body_turned in Hb;
      pose proof (turned_kept _ _ _ _ _ Hb HJ) as Hk; cbn beta iota in Hk.
    + intros _. exact Hk.
    + intros Hs. now apply IH.
    + cbn [fst snd settled_without_abort]. exact Hk.
Qed.

End Kept.

Lemma start_composeSignal_tidy t0 c tm :
  tidy (cleanup (fst (composeSignal (userSignal_of c) tm (start t0 c))))
       (snd (composeSignal (userSignal_of c) tm (start t0 c))).
Proof.
  unfold composeSignal.
  destruct (negb (userSignal_of c) && no_timeout tm).
  { split; intros x []. }
  destruct tm as [t|];
    [destruct (negb (Qeq_bool t 0) && negb (Qle_bool t 0))|];
    destruct c; cbn; split; intros x Hx;
    repeat (destruct Hx as [<-|Hx]); try contradiction; auto.
Qed.

(** X7: when a request returns a response, or fails with an error that
    is not an abort error, it leaves nothing behind: no timer is pending
    (the timer of the timeout is cleared and every wait has cleared its
    own) and no listener is left on the caller's signal. *)
Theorem nothing_left_behind (env : Env) (c : CallerSignal)
    (timeout : option Q) (policy : option RetryOptions) (t0 : Q)
    (fetchFn : Z -> Settles Response) :
  fetch_of env = Some fetchFn ->
  settled_without_abort (outcome_of (logical_request env c timeout policy t0)) ->
  timers (world_of (logical_request env c timeout policy t0)) = [] /\
  listeners (caller (world_of (logical_request env c timeout policy t0))) = [].
Proof.
  intros Hf. unfold outcome_of, world_of.
  rewrite (logical_request_fetch _ _ _ _ _ _ Hf). intros Hs.
  destruct (attempts_kept env fetchFn _ policy _ (kept_tidy _) _ _ _ _
              (start_composeSignal_tidy t0 c (timeout_of env timeout)) Hs)
    as [w0 [Hw0 ->]].
  now apply cleaned_tidy.
Qed.

Lemma nothing_left_behind_witness :
  timers (world_of (logical_request Scenario.flaky
                      (AbortsAt 50 Scenario.caller_reason) (Some 100)
                      (Some Scenario.retry_once) 0)) = [] /\
  listeners (caller (world_of (logical_request Scenario.flaky
                                 (AbortsAt 50 Scenario.caller_reason)
                                 (Some 100) (Some Scenario.retry_once) 0)))
  = [].
Proof.
  apply (nothing_left_behind Scenario.flaky
           (AbortsAt 50 Scenario.caller_reason) (Some 100)
           (Some Scenario.retry_once) 0
           (fun k => if (k =? 1)%Z then mkSettles 3 (Normal Scenario.unavailable)
                     else mkSettles 3 (Normal Scenario.ok200))).
  - reflexivity.
  - vm_compute. exact I.
Defined.

(** ** [composeSignal] and its [cleanup] *)

Lemma filter_other_timers id (l : list Timer) x :
  (forall t, In t l -> timer_id t <> id) -> timer_id x = id ->
  filter (fun t => negb (Pos.eqb (timer_id t) id)) (l ++ [x]) = l.
Proof.
  intros Hl Hx. rewrite filter_app. simpl. rewrite Hx, Pos.eqb_refl. simpl.
  rewrite app_nil_r. induction l as [|t l IH]; [reflexivity|].
  simpl. destruct (Pos.eqb (timer_id t) id) eqn:E.
  - apply Pos.eqb_eq in E. exfalso. apply (Hl t); [now left | exact E].
  - simpl. f_equal. apply IH. intros y Hy. apply Hl. now right.
Qed.

Lemma remove_added_listener (s : Signal) :
  ~ In ComposeOnAbort (listeners s) ->
  listeners (remove_listener ComposeOnAbort (add_listener ComposeOnAbort s))
  = listeners s.
Proof.
  intros Hn. unfold add_listener.
  assert (E : existsb (listener_eqb ComposeOnAbort) (listeners s) = false).
  { apply not_true_is_false. intros H. apply existsb_exists in H as [l [Hl E]].
    destruct l; [|discriminate]. contradiction. }
  rewrite E. cbn [remove_listener listeners]. rewrite filter_app. simpl.
  rewrite app_nil_r. clear E.
  induction (listeners s) as [|l ls IH]; [reflexivity|].
  simpl. destruct l as [|t]; simpl.
  - exfalso. apply Hn. now left.
  - f_equal. apply IH. intros H. apply Hn. now right.
Qed.

(** X8: [composeSignal] followed by the [cleanup] it returns leaves the
    timers and the listeners of the caller's signal as they were, in a
    world where the next timer identifier is not in use and [onAbort] is
    not yet on the caller's signal. *)
Theorem cleanup_undoes_composeSignal (baseSignal : bool)
    (timeoutMs : option Q) (w : World) :
  (forall t, In t (timers w) -> timer_id t <> next_timer w) ->
  ~ In ComposeOnAbort (listeners (caller w)) ->
  timers (release (cleanup (fst (composeSignal baseSignal timeoutMs w)))
                  (snd (composeSignal baseSignal timeoutMs w)))
  = timers w /\
  listeners (caller (release (cleanup (fst (composeSignal baseSignal timeoutMs w)))
                             (snd (composeSignal baseSignal timeoutMs w))))
  = listeners (caller w).
Proof.
  intros Hfresh Hnew. unfold composeSignal.
  destruct (negb baseSignal && no_timeout timeoutMs); [now split|].
  destruct timeoutMs as [t|];
    [destruct (negb (Qeq_bool t 0) && negb (Qle_bool t 0))|];
    destruct baseSignal;
    cbn [fst snd cleanup release cl_baseSignal cl_timeoutId setTimeout
         clearTimeout set_timers set_caller set_composed record timers caller
         next_timer caller_will_abort];
    rewrite ?remove_added_listener by assumption;
    rewrite ?filter_other_timers by (assumption || reflexivity);
    now split.
Qed.

Lemma cleanup_undoes_composeSignal_witness :
  timers (release
            (cleanup (fst (composeSignal true (Some 100) (start 0 NeverAborts))))
            (snd (composeSignal true (Some 100) (start 0 NeverAborts))))
  = timers (start 0 NeverAborts) /\
  listeners
    (caller (release
               (cleanup (fst (composeSignal true (Some 100)
                                            (start 0 NeverAborts))))
               (snd (composeSignal true (Some 100) (start 0 NeverAborts)))))
  = listeners (caller (start 0 NeverAborts)).
Proof.
  apply (cleanup_undoes_composeSignal true (Some 100) (start 0 NeverAborts)).
  - intros t [].
  - intros [].
Defined.

(** X9: once the [cleanup] has run, the composed signal is out of reach:
    neither the timeout nor an abort of the caller's signal aborts it, however
    much time passes.  (The signal handed to the transport no longer follows
    the timeout after [requestWithRetry] has returned.) *)
Theorem composed_signal_detached_by_cleanup (t0 d : Q) (c : CallerSignal)
    (timeoutMs : option Q) :
  aborted
    (composed
       (elapse d
          (release
             (cleanup (fst (composeSignal (userSignal_of c) timeoutMs
                                          (start t0 c))))
             (snd (composeSignal (userSignal_of c) timeoutMs (start t0 c))))))
  = None.
Proof.
  unfold composeSignal.
  destruct (negb (userSignal_of c) && no_timeout timeoutMs) eqn:E0.
  { destruct c; try discriminate. reflexivity. }
  destruct timeoutMs as [t|];
    [destruct (negb (Qeq_bool t 0) && negb (Qle_bool t 0))|];
    destruct c; try discriminate; try reflexivity;
    unfold elapse, agenda;
    cbn [fst snd cleanup release cl_baseSignal cl_timeoutId setTimeout
         clearTimeout set_timers set_caller set_composed record timers caller
         next_timer caller_will_abort userSignal_of start add_listener
         remove_listener listeners existsb filter listener_eqb negb app
         timer_id Pos.eqb fold_left schedule pending_at now];
    match goal with
    | |- context [Qle_bool ?a ?b] => destruct (Qle_bool a b)
    end; reflexivity.
Qed.

(** ** What a request throws *)

Section TurnThrows.

Variable env : Env.
Variable fetchFn : Z -> Settles Response.
Variable sig : ComposedSignal.
Variable retryPolicy : option RetryOptions.

(** A turn that throws an error that is not an abort error rethrows the
    failure of its attempt, for want of a policy or of an attempt left. *)
Lemma turned_throw k le w e w' :
  turned env fetchFn sig retryPolicy k le w (Throw e) w' ->
  isAbortError e = false ->
  attempt_fails env fetchFn k e /\
  (retryPolicy = None \/ (totalAttempts retryPolicy <= k)%Z).
Proof.
  intros H Hab. inversion H as [flow w0 Ht|e0 w1 r w0 Ht Hc]; subst.
  inversion Hc as [Hfin|policy d w2 rs w3 Hab' Hp Hlt Hd Hsl]; subst.
  - split.
    + inversion Ht as [e1 He|e1 He Hf|res e1 He Hf Hh|
                      |res policy d w2 rs w3 He Hf Hh Hp Hs Hd Hsl]; subst.
      * now left.
      * right. left. now split.
      * right. right. split; [assumption|]. split; [eauto | assumption].
      * exfalso.
        destruct (sleep_outcome _ _ _ _ _ Hsl) as [-> | ->];
          [discriminate|].
        match goal with H : after_sleep _ _ = Throw _ |- _ =>
          simpl in H; injection H as <- end.
        discriminate.
    + destruct Hfin as [Hfin|Hfin]; [congruence | exact Hfin].
  - exfalso. destruct (sleep_outcome _ _ _ _ _ Hsl) as [-> | ->].
    + discriminate.
    + match goal with H : after_sleep _ _ = Throw _ |- _ =>
        simpl in H; injection H as <- end.
      discriminate.
Qed.

End TurnThrows.

(** X10: an error that is not an abort error comes out of
    [requestWithRetry] only when the attempts are used up: it is the
    failure (of a hook or of the transport) of the last attempt made, which
    is the last attempt of the policy, or the only attempt when there is no
    policy; but for a policy without a single attempt, where it is
    [Error('Request failed')]. *)
Theorem thrown_error_is_final (env : Env) (c : CallerSignal)
    (timeout : option Q) (policy : option RetryOptions) (t0 : Q)
    (fetchFn : Z -> Settles Response) (e : JsError) :
  fetch_of env = Some fetchFn ->
  outcome_of (logical_request env c timeout policy t0) = Throw e ->
  isAbortError e = false ->
  ((totalAttempts policy < 1)%Z /\ e = mkError "Error" "Request failed") \/
  exists k,
    k = Z.max 1 (totalAttempts policy) /\
    (policy = None \/ k = totalAttempts policy) /\
    In (Attempt k) (log_of (logical_request env c timeout policy t0)) /\
    attempts_below (k + 1) (log_of (logical_request env c timeout policy t0)) /\
    attempt_fails env fetchFn k e.
Proof.
  intros Hf. unfold outcome_of, log_of.
  rewrite (logical_request_fetch _ _ _ _ _ _ Hf).
  pose proof (start_composed_untagged t0 c (timeout_of env timeout) 1) as U0.
  set (sig := fst (composeSignal (userSignal_of c) (timeout_of env timeout)
                                 (start t0 c))) in *.
  set (w0 := snd (composeSignal (userSignal_of c) (timeout_of env timeout)
                                (start t0 c))) in *.
  destruct (Z.to_nat (totalAttempts policy)) as [|n] eqn:En.
  { rewrite attempts_none. cbn [fst or_else]. intros H _.
    injection H as <-. left. split; [lia | reflexivity]. }
  intros Hthrow Hab. right. revert e Hthrow Hab.
  apply (attempts_rule env fetchFn sig policy
           (fun k w => (1 <= k)%Z /\ attempts_within 1 k (log w))
           (fun r w' =>
              forall e, r = Throw e -> isAbortError e = false ->
              exists k,
                k = Z.max 1 (totalAttempts policy) /\
                (policy = None \/ k = totalAttempts policy) /\
                In (Attempt k) (log w') /\
                attempts_below (k + 1) (log w') /\
                attempt_fails env fetchFn k e));
    try lia.
  - intros k le w le' w' Hk [H1 Hw] Ht.
    apply turned_log in Ht as [delta [L [Fd _]]].
    split; [lia|]. rewrite L.
    now apply (attempts_within_turn sig).
  - intros k le w r w' Hk HI Ht e E. discriminate.
  - intros k le w e' w' Hk [H1 Hw] Ht e E Hab. injection E as ->.
    pose proof (turned_log _ _ _ _ _ _ _ _ _ Ht) as [delta [L [Fd [Hin _]]]].
    apply turned_throw in Ht as [Hfail Hlast]; [|assumption].
    exists k.
    assert (Hkk : policy = None \/ k = totalAttempts policy).
    { destruct Hlast as [->|Hlast]; [now left | right; lia]. }
    split.
    { destruct Hlast as [->|Hlast].
      - unfold totalAttempts in *. lia.
      - lia. }
    split; [exact Hkk|]. split.
    { rewrite L. apply in_or_app. now left. }
    split; [|exact Hfail].
    rewrite L. eapply attempts_below_app; [exact Fd|].
    now apply attempts_within_below with (k0 := 1%Z).
  - split; [lia | exact U0].
Qed.

Lemma thrown_error_is_final_witness :
  ((totalAttempts (Some Scenario.retry_once) < 1)%Z /\
   Scenario.network_error = mkError "Error" "Request failed") \/
  exists k,
    k = Z.max 1 (totalAttempts (Some Scenario.retry_once)) /\
    (Some Scenario.retry_once = None \/
     k = totalAttempts (Some Scenario.retry_once)) /\
    In (Attempt k)
       (log_of (logical_request Scenario.network_down NoSignal None
                  (Some Scenario.retry_once) 0)) /\
    attempts_below (k + 1)
       (log_of (logical_request Scenario.network_down NoSignal None
                  (Some Scenario.retry_once) 0)) /\
    attempt_fails Scenario.network_down
      (fun _ => mkSettles 5 (Throw Scenario.network_error)) k
      Scenario.network_error.
Proof.
  apply (thrown_error_is_final Scenario.network_down NoSignal None
           (Some Scenario.retry_once) 0
           (fun _ => mkSettles 5 (Throw Scenario.network_error))
           Scenario.network_error).
  - reflexivity.
  - vm_compute. reflexivity.
  - reflexivity.
Defined.

(** ** The timeout of a request *)

(** X11: the timeout of the request, when it is given, is the one in
    force, whatever the default of the client; when it is zero or negative,
    no timer is set for it: the only timers of the request are those of its
    backoff waits. *)
Theorem nonpositive_timeout_sets_no_timer (env : Env) (c : CallerSignal)
    (t : Q) (policy : option RetryOptions) (t0 : Q) :
  t <= 0 ->
  timeout_of env (Some t) = Some t /\
  forall id cb at_,
    In (SetTimeout id cb at_)
       (log_of (logical_request env c (Some t) policy t0)) ->
    cb = ResolveSleep.
Proof.
  intros Ht. split; [reflexivity|]. intros id cb at_. unfold log_of.
  destruct (fetch_of env) as [fetchFn|] eqn:Hf.
  - rewrite (logical_request_fetch _ _ _ _ _ _ Hf).
    match goal with
    | |- context [attempts ?e ?f ?s ?p ?n ?k ?le ?x] =>
        destruct (attempts_log e f s p n k le x) as [evs [L F]]
    end.
    rewrite L, start_composeSignal_log. cbn [timeout_of timeout_events].
    apply Qle_bool_iff in Ht. rewrite Ht, andb_false_r, app_nil_r.
    intros Hin. rewrite Forall_forall in F.
    destruct (F _ Hin) as [j Hj]. exact Hj.
  - unfold logical_request.
    rewrite (requestWithRetry_no_fetch _ _ _ _ _ Hf). intros [].
Qed.

Lemma nonpositive_timeout_sets_no_timer_witness :
  timeout_of Scenario.flaky (Some 0) = Some 0 /\
  forall id cb at_,
    In (SetTimeout id cb at_)
       (log_of (logical_request Scenario.flaky NoSignal (Some 0)
                  (Some Scenario.retry_once) 0)) ->
    cb = ResolveSleep.
Proof.
  apply (nonpositive_timeout_sets_no_timer Scenario.flaky NoSignal 0
           (Some Scenario.retry_once) 0).
  vm_compute. discriminate.
Defined.

(** * Properties of the rest of the client *)

(** ** Query parameters *)

Lemma fold_appendValue W key items :
  forall sp,
    fold_left (fun sp item => appendValue W key item sp) items sp
    = sp ++ map (fun v => (key, stringOf W v))
                (filter (fun v => negb (nullish v)) items).
Proof.
  induction items as [|v items IH]; intros sp; simpl.
  - now rewrite app_nil_r.
  - rewrite IH. unfold appendValue. destruct (nullish v); simpl.
    + reflexivity.
    + now rewrite <- app_assoc.
Qed.

(** X12: [toSearchParams] gives no parameters for no record; for a
    record, it goes through the entries in order and through the items of
    an array in order, and gives one pair per value that is neither [null]
    nor [undefined], with the value turned into a string. *)
Theorem toSearchParams_flattens (W : WebPlatform) (entries : SearchParams) :
  toSearchParams W None = None /\
  toSearchParams W (Some entries)
  = Some (flat_map
            (fun '(key, e) =>
               map (fun v => (key, stringOf W v))
                   (filter (fun v => negb (nullish v)) (entry_values e)))
            entries).
Proof.
  split; [reflexivity|]. unfold toSearchParams. f_equal.
  change (flat_map _ entries) with
    ([] ++ flat_map
             (fun '(key, e) =>
                map (fun v => (key, stringOf W v))
                    (filter (fun v => negb (nullish v)) (entry_values e)))
             entries).
  generalize (@nil (string * string)) as acc.
  induction entries as [|[key e] entries IH]; intros acc; simpl.
  - now rewrite app_nil_r.
  - rewrite IH. destruct e as [v|items]; simpl.
    + unfold appendValue. destruct (nullish v); simpl.
      * reflexivity.
      * now rewrite <- app_assoc.
    + rewrite fold_appendValue. now rewrite <- app_assoc.
Qed.

(** ** The URL of a request *)

Lemma has_param_app sp sp' k :
  has_param (sp ++ sp') k = has_param sp k || has_param sp' k.
Proof. unfold has_param. apply existsb_app. Qed.

Lemma fold_defaults defaults :
  forall sp,
    fold_left (fun sp '(key, value) =>
                 if negb (has_param sp key) then sp ++ [(key, value)] else sp)
              defaults sp
    = sp ++ added_defaults sp defaults.
Proof.
  induction defaults as [|[k v] rest IH]; intros sp; simpl.
  - now rewrite app_nil_r.
  - rewrite IH. destruct (has_param sp k); simpl; [reflexivity|].
    now rewrite <- app_assoc.
Qed.

Lemma fold_query q :
  forall sp : URLSearchParams,
    fold_left (fun sp '(key, value) => sp ++ [(key, value)]) q sp = sp ++ q.
Proof.
  induction q as [|[k v] rest IH]; intros sp; simpl.
  - now rewrite app_nil_r.
  - rewrite IH. now rewrite <- app_assoc.
Qed.

Lemma In_added_defaults defaults :
  forall sp k v,
    In (k, v) (added_defaults sp defaults) <->
    has_param sp k = false /\ first_value k defaults = Some v.
Proof.
  induction defaults as [|[k0 v0] rest IH]; intros sp k v; simpl.
  - split; [intros [] | intros [_ H]; discriminate].
  - destruct (has_param sp k0) eqn:E0.
    + rewrite IH. destruct (String.eqb k0 k) eqn:Ek.
      * apply String.eqb_eq in Ek. subst k0. split; intros [H _]; congruence.
      * reflexivity.
    + simpl. rewrite IH, has_param_app. unfold has_param at 2. simpl.
      rewrite orb_false_r.
      destruct (String.eqb k0 k) eqn:Ek.
      * apply String.eqb_eq in Ek. subst k0. split.
        -- intros [H|[H _]].
           ++ injection H as <-. now split.
           ++ rewrite orb_true_r in H. discriminate.
        -- intros [_ H]. left. congruence.
      * rewrite orb_false_r. split.
        -- intros [H|H]; [|exact H]. injection H as -> _.
           rewrite String.eqb_refl in Ek. discriminate.
        -- intros H. now right.
Qed.

Lemma NoDup_added_defaults defaults :
  forall sp, NoDup (map fst (added_defaults sp defaults)).
Proof.
  induction defaults as [|[k0 v0] rest IH]; intros sp; simpl.
  - constructor.
  - destruct (has_param sp k0) eqn:E0; [apply IH|].
    simpl. constructor; [|apply IH].
    intros H. apply in_map_iff in H as [[k v] [Hk Hin]]. simpl in Hk. subst k.
    apply In_added_defaults in Hin as [Hin _].
    rewrite has_param_app in Hin. unfold has_param at 2 in Hin. simpl in Hin.
    rewrite String.eqb_refl in Hin. rewrite orb_true_r in Hin. discriminate.
Qed.

(** X13: [resolveUrl] fails exactly when [new URL] does.  Otherwise the
    parameters of the URL it gives are those of the parsed URL, then the
    defaults it adds, then every pair of the query of the request.  A
    default is added exactly when its key is not a parameter of the parsed
    URL, and then only with the first value it has in the defaults (of an
    array, the first item that is neither [null] nor [undefined]).  The
    query of the request is appended whatever is there: a key that is also
    a default is sent twice, the default first. *)
Theorem resolveUrl_parameters (W : WebPlatform) (input : string)
    (baseUrl : option string) (query defaultQuery : option SearchParams) :
  match js_URL W input baseUrl with
  | Throw e => resolveUrl W input baseUrl query defaultQuery = Throw e
  | Normal url =>
      exists added,
        resolveUrl W input baseUrl query defaultQuery
        = Normal (js_URL_toString W
                    (mkURL (url_location url)
                           (searchParams url ++ added ++ query_pairs W query))) /\
        NoDup (map fst added) /\
        forall k v,
          In (k, v) added <->
          has_param (searchParams url) k = false /\
          first_value k (query_pairs W defaultQuery) = Some v
  end.
Proof.
  unfold resolveUrl. destruct (js_URL W input baseUrl) as [url|e];
    [|reflexivity].
  exists (added_defaults (searchParams url) (query_pairs W defaultQuery)).
  split; [|split].
  - f_equal. f_equal. f_equal. unfold query_pairs.
    destruct (toSearchParams W defaultQuery) as [d|];
      destruct (toSearchParams W query) as [q|]; simpl;
      rewrite ?fold_query, ?fold_defaults, ?app_nil_r, <- ?app_assoc;
      reflexivity.
  - apply NoDup_added_defaults.
  - intros k v. apply In_added_defaults.
Qed.

(** ** Objects *)

Section ObjFacts.

Variable V : Type.
Implicit Types (o source target : Obj.t V) (k : string) (v : V).

Lemma has_lookup k o : Obj.has k o = true <-> Obj.lookup k o <> None.
Proof.
  induction o as [|[k' v'] r IH]; simpl.
  - split; [discriminate | congruence].
  - destruct (String.eqb k' k); simpl; [split; [discriminate|reflexivity]|].
    exact IH.
Qed.

Lemma has_keys k o : Obj.has k o = true <-> In k (Obj.keys o).
Proof.
  unfold Obj.has, Obj.keys. rewrite existsb_exists, in_map_iff.
  split; intros [p [H1 H2]]; exists p.
  - apply String.eqb_eq in H2. now split.
  - split; [assumption|]. now apply String.eqb_eq.
Qed.

Lemma lookup_app k o1 o2 :
  Obj.lookup k (o1 ++ o2)
  = match Obj.lookup k o1 with
    | Some v => Some v
    | None => Obj.lookup k o2
    end.
Proof.
  induction o1 as [|[k' v'] r IH]; simpl; [reflexivity|].
  now destruct (String.eqb k' k).
Qed.

Lemma lookup_replace_other k k' v o :
  String.eqb k' k = false ->
  Obj.lookup k (Obj.replace k' v o) = Obj.lookup k o.
Proof.
  intros Hk. induction o as [|[k0 v0] r IH]; simpl; [reflexivity|].
  destruct (String.eqb k0 k') eqn:E0; simpl.
  - apply String.eqb_eq in E0. subst k0. now rewrite Hk.
  - now rewrite IH.
Qed.

Lemma lookup_replace k k' v o :
  Obj.has k' o = true ->
  Obj.lookup k (Obj.replace k' v o)
  = if String.eqb k' k then Some v else Obj.lookup k o.
Proof.
  destruct (String.eqb k' k) eqn:Hk; [|intros _; now apply lookup_replace_other].
  apply String.eqb_eq in Hk. subst k'.
  induction o as [|[k0 v0] r IH]; simpl; [discriminate|].
  destruct (String.eqb k0 k) eqn:E0; simpl.
  - intros _. now rewrite String.eqb_refl.
  - rewrite E0. exact IH.
Qed.

Lemma lookup_insert_index n k k' v o :
  Obj.has k' o = false ->
  Obj.lookup k (Obj.insert_index n k' v o)
  = if String.eqb k' k then Some v else Obj.lookup k o.
Proof.
  induction o as [|[k0 v0] r IH]; simpl; [reflexivity|].
  destruct (String.eqb k0 k') eqn:E0; simpl; [discriminate|].
  intros H. destruct (Obj.array_index k0) as [m|]; [|reflexivity].
  destruct (m <? n)%N; [|reflexivity].
  simpl. rewrite (IH H).
  destruct (String.eqb k0 k) eqn:E1; [|reflexivity].
  apply String.eqb_eq in E1. subst k0.
  rewrite String.eqb_sym in E0. now rewrite E0.
Qed.

(** Reading a property after defining one. *)
Lemma lookup_set k k' v o :
  Obj.lookup k (Obj.set k' v o)
  = if String.eqb k' k then Some v else Obj.lookup k o.
Proof.
  unfold Obj.set. destruct (Obj.has k' o) eqn:E.
  - now apply lookup_replace.
  - destruct (Obj.array_index k') as [n|].
    + now apply lookup_insert_index.
    + rewrite lookup_app. simpl.
      destruct (Obj.lookup k o) eqn:L.
      * destruct (String.eqb k' k) eqn:Ek; [|reflexivity].
        apply String.eqb_eq in Ek. subst k'.
        assert (Obj.has k o = true) by (apply has_lookup; congruence).
        congruence.
      * reflexivity.
Qed.

Lemma lookup_not_in k o : ~ In k (Obj.keys o) -> Obj.lookup k o = None.
Proof.
  intros H. destruct (Obj.lookup k o) eqn:E; [|reflexivity].
  exfalso. apply H, has_keys, has_lookup. congruence.
Qed.

(** Reading a property of [{ ...target, ...source }]. *)
Lemma lookup_spread k source :
  NoDup (Obj.keys source) ->
  forall target,
    Obj.lookup k (Obj.spread target source)
    = match Obj.lookup k source with
      | Some v => Some v
      | None => Obj.lookup k target
      end.
Proof.
  unfold Obj.spread.
  induction source as [|[k0 v0] r IH]; intros Hnd target; simpl;
    [reflexivity|].
  inversion Hnd as [|? ? Hk0 Hr]; subst.
  rewrite (IH Hr), lookup_set.
  destruct (String.eqb k0 k) eqn:E.
  - apply String.eqb_eq in E. subst k0. now rewrite (lookup_not_in _ _ Hk0).
  - reflexivity.
Qed.

End ObjFacts.

(** ** The init of a request *)

(** X14: in the init [mergeRequestInit] builds, [headers] is always the
    merged headers it is given ([undefined] when there are none), whatever
    the options hold under that key; any other member is the one of the
    request options when they have that key, with a value of [undefined]
    too, and the one of the default options otherwise. *)
Theorem mergeRequestInit_lookup (defaultOptions : option RequestInit)
    (requestOptions : option FetchRequestOptions) (headers : option Headers.t)
    (k : string) :
  NoDup (Obj.keys (sanitizeRequestInit requestOptions)) ->
  NoDup (Obj.keys (or_else defaultOptions [])) ->
  Obj.lookup k (mergeRequestInit defaultOptions requestOptions headers)
  = if String.eqb "headers" k
    then Some (match headers with Some h => IHeaders h | None => IUndefined end)
    else match Obj.lookup k (sanitizeRequestInit requestOptions) with
         | Some v => Some v
         | None => Obj.lookup k (or_else defaultOptions [])
         end.
Proof.
  intros Hr Hd. unfold mergeRequestInit.
  rewrite lookup_set, (lookup_spread _ _ _ Hr), (lookup_spread _ _ _ Hd).
  simpl. destruct (Obj.lookup k (or_else defaultOptions [])); reflexivity.
Qed.

Lemma mergeRequestInit_lookup_witness :
  Obj.lookup "method"
    (mergeRequestInit (Some Sample.defaults) (Some Sample.undefined_method) None)
  = Some IUndefined.
Proof.
  refine (mergeRequestInit_lookup (Some Sample.defaults)
            (Some Sample.undefined_method) None "method" _ _).
  - repeat constructor; simpl; intuition discriminate.
  - repeat constructor; simpl; intuition discriminate.
Defined.

(** ** Headers *)

Lemma lower_ascii_idem c :
  Headers.lower_ascii (Headers.lower_ascii c) = Headers.lower_ascii c.
Proof.
  destruct c as [[] [] [] [] [] [] [] []]; reflexivity.
Qed.

Lemma lowercase_idem s :
  Headers.lowercase (Headers.lowercase s) = Headers.lowercase s.
Proof.
  induction s as [|c s IH]; simpl; [reflexivity|].
  now rewrite lower_ascii_idem, IH.
Qed.

Lemma same_name_lowercase name p :
  Headers.same_name (Headers.lowercase name) p = Headers.same_name name p.
Proof. unfold Headers.same_name. now rewrite lowercase_idem. Qed.

Lemma values_lowercase name h :
  Headers.values (Headers.lowercase name) h = Headers.values name h.
Proof.
  unfold Headers.values. f_equal. apply filter_ext.
  intros p. apply same_name_lowercase.
Qed.

Lemma contains_lowercase name h :
  Headers.contains (Headers.lowercase name) h = Headers.contains name h.
Proof.
  unfold Headers.contains. induction h as [|p h IH]; simpl; [reflexivity|].
  now rewrite same_name_lowercase, IH.
Qed.


Lemma contains_values name h :
  Headers.contains name h
  = match Headers.values name h with [] => false | _ => true end.
Proof.
  unfold Headers.contains, Headers.values.
  induction h as [|p h IH]; simpl; [reflexivity|].
  destruct (Headers.same_name name p); simpl; [reflexivity | exact IH].
Qed.

Lemma combined_values name h :
  Headers.combined name h
  = match Headers.values name h with
    | [] => None
    | l => Some (Headers.join l)
    end.
Proof.
  unfold Headers.combined. rewrite contains_values.
  now destruct (Headers.values name h).
Qed.

(** Two names that are equal in lower case select the same headers. *)
Lemma same_name_eq a b p :
  Headers.lowercase a = Headers.lowercase b ->
  Headers.same_name a p = Headers.same_name b p.
Proof. unfold Headers.same_name. now intros ->. Qed.

Lemma same_name_neq a b p :
  Headers.lowercase a <> Headers.lowercase b ->
  Headers.same_name a p = true -> Headers.same_name b p = false.
Proof.
  unfold Headers.same_name. intros Hne Ha. apply String.eqb_eq in Ha.
  apply String.eqb_neq. congruence.
Qed.

Lemma values_filter_other name n h :
  Headers.lowercase name <> Headers.lowercase n ->
  Headers.values n (filter (fun q => negb (Headers.same_name name q)) h)
  = Headers.values n h.
Proof.
  intros Hne. unfold Headers.values. f_equal.
  induction h as [|p h IH]; simpl; [reflexivity|].
  destruct (Headers.same_name name p) eqn:E; simpl.
  - now rewrite (same_name_neq _ _ _ Hne E).
  - now rewrite IH.
Qed.

Lemma values_filter_same name n h :
  Headers.lowercase name = Headers.lowercase n ->
  Headers.values n (filter (fun q => negb (Headers.same_name name q)) h) = [].
Proof.
  intros He. unfold Headers.values.
  induction h as [|p h IH]; simpl; [reflexivity|].
  destruct (Headers.same_name name p) eqn:E; simpl; [exact IH|].
  now rewrite <- (same_name_eq _ _ _ He), E.
Qed.

Lemma values_set_in name v n h :
  Headers.contains name h = true ->
  Headers.values n (Headers.set_in name v h)
  = if String.eqb (Headers.lowercase name) (Headers.lowercase n)
    then [v] else Headers.values n h.
Proof.
  induction h as [|p h IH]; [discriminate|].
  unfold Headers.contains. simpl.
  destruct (Headers.same_name name p) eqn:E; simpl.
  - intros _.
    destruct (String.eqb (Headers.lowercase name) (Headers.lowercase n)) eqn:En.
    + apply String.eqb_eq in En.
      change (Headers.values n ((fst p, v) :: ?l))
        with (map snd (filter (Headers.same_name n) ((fst p, v) :: l))).
      simpl.
      assert (Hs : Headers.same_name n (fst p, v) = true).
      { unfold Headers.same_name in *. simpl. now rewrite <- En. }
      rewrite Hs. simpl. f_equal.
      now apply values_filter_same.
    + apply String.eqb_neq in En.
      change (Headers.values n ((fst p, v) :: ?l))
        with (map snd (filter (Headers.same_name n) ((fst p, v) :: l))).
      change (Headers.values n (p :: h))
        with (map snd (filter (Headers.same_name n) (p :: h))).
      simpl.
      assert (Hs : Headers.same_name n (fst p, v) = false).
      { pose proof (same_name_neq _ _ _ En E) as H.
        unfold Headers.same_name in *. exact H. }
      rewrite Hs, (same_name_neq _ _ _ En E).
      now apply values_filter_other.
  - intros Hc.
    change (Headers.values n (p :: ?l))
      with (map snd (filter (Headers.same_name n) (p :: l))).
    simpl. destruct (Headers.same_name n p) eqn:En; simpl.
    + assert (String.eqb (Headers.lowercase name) (Headers.lowercase n) = false).
      { apply String.eqb_neq. intros He.
        rewrite (same_name_eq _ _ _ He) in E. congruence. }
      specialize (IH Hc). rewrite H in *.
      change (map snd (filter (Headers.same_name n) ?l))
        with (Headers.values n l). now rewrite IH.
    + exact (IH Hc).
Qed.

Lemma values_app n h1 h2 :
  Headers.values n (h1 ++ h2) = Headers.values n h1 ++ Headers.values n h2.
Proof. unfold Headers.values. now rewrite filter_app, map_app. Qed.

(** What [set] does to the values of every name. *)
Lemma values_set name value n h h' :
  Headers.set name value h = Normal h' ->
  Headers.values n h'
  = if String.eqb (Headers.lowercase name) (Headers.lowercase n)
    then [Headers.normalize value] else Headers.values n h.
Proof.
  unfold Headers.set.
  destruct (Headers.is_name name && Headers.is_value (Headers.normalize value));
    [|discriminate].
  intros H. injection H as <-.
  destruct (Headers.contains name h) eqn:Ec.
  - now apply values_set_in.
  - rewrite values_app.
    change (Headers.values n [(name, Headers.normalize value)])
      with (map snd (filter (Headers.same_name n)
                            [(name, Headers.normalize value)])).
    simpl. unfold Headers.same_name at 1. simpl.
    destruct (String.eqb (Headers.lowercase name) (Headers.lowercase n)) eqn:En.
    + apply String.eqb_eq in En.
      rewrite <- (values_lowercase n), <- En, values_lowercase.
      rewrite contains_values in Ec.
      destruct (Headers.values name h); [reflexivity | discriminate].
    + simpl. apply app_nil_r.
Qed.

Lemma combined_set name value n h h' :
  Headers.set name value h = Normal h' ->
  Headers.combined n h'
  = if String.eqb (Headers.lowercase name) (Headers.lowercase n)
    then Some (Headers.normalize value) else Headers.combined n h.
Proof.
  intros H. rewrite !combined_values, (values_set _ _ _ _ _ H).
  now destruct (String.eqb _ _).
Qed.

(** What copying the pairs of an iteration does to every name. *)
Lemma combined_set_all pairs :
  forall n h h',
    Headers.set_all pairs h = Normal h' ->
    Headers.combined n h'
    = match last_set n pairs with
      | Some v => Some (Headers.normalize v)
      | None => Headers.combined n h
      end.
Proof.
  induction pairs as [|[k x] r IH]; intros n h h' H; simpl in *.
  - now injection H as <-.
  - destruct (Headers.set k x h) as [h1|e] eqn:E; [|discriminate].
    rewrite (IH _ _ _ H). destruct (last_set n r); [reflexivity|].
    rewrite (combined_set _ _ _ _ _ E).
    unfold Headers.same_name. simpl.
    now destruct (String.eqb _ _).
Qed.

Lemma last_set_app n a b :
  last_set n (a ++ b)
  = match last_set n b with
    | Some v => Some v
    | None => last_set n a
    end.
Proof.
  induction a as [|p a IH]; simpl.
  - now destruct (last_set n b).
  - rewrite IH. now destruct (last_set n b).
Qed.

Lemma In_insert_sorted x n l :
  In x (Headers.insert_sorted n l) <-> x = n \/ In x l.
Proof.
  induction l as [|m l IH]; simpl.
  - intuition.
  - destruct (String.leb n m); simpl; [intuition|]. rewrite IH. intuition.
Qed.

Lemma NoDup_insert_sorted n l :
  ~ In n l -> NoDup l -> NoDup (Headers.insert_sorted n l).
Proof.
  induction l as [|m l IH]; simpl; intros Hn Hl.
  - constructor; [intros []|constructor].
  - destruct (String.leb n m); [now constructor|].
    inversion Hl as [|? ? Hm Hl']; subst. constructor.
    + rewrite In_insert_sorted. intros [->|H]; [|contradiction].
      apply Hn. now left.
    + apply IH; [|assumption]. intros H. apply Hn. now right.
Qed.

Lemma In_sorted x l :
  In x (fold_right Headers.insert_sorted [] l) <-> In x l.
Proof.
  induction l as [|m l IH]; simpl; [reflexivity|].
  rewrite In_insert_sorted, IH. intuition.
Qed.

Lemma NoDup_sorted l :
  NoDup l -> NoDup (fold_right Headers.insert_sorted [] l).
Proof.
  induction l as [|m l IH]; simpl; intros H; [constructor|].
  inversion H as [|? ? Hm Hl]; subst.
  apply NoDup_insert_sorted; [|now apply IH]. now rewrite In_sorted.
Qed.

Lemma In_names x h :
  In x (Headers.names h) <->
  exists p, In p h /\ Headers.lowercase (fst p) = x.
Proof.
  unfold Headers.names. rewrite In_sorted, nodup_In, in_map_iff.
  split; intros [p [H1 H2]]; exists p; now split.
Qed.

Lemma NoDup_names h : NoDup (Headers.names h).
Proof. apply NoDup_sorted, NoDup_nodup. Qed.

Lemma names_lowercase x h :
  In x (Headers.names h) -> Headers.lowercase x = x.
Proof.
  intros H. apply In_names in H as [p [_ <-]]. apply lowercase_idem.
Qed.

Lemma contains_names name h :
  Headers.contains name h = true <->
  In (Headers.lowercase name) (Headers.names h).
Proof.
  rewrite In_names. unfold Headers.contains. rewrite existsb_exists.
  split; intros [p [H1 H2]]; exists p; (split; [assumption|]).
  - now apply String.eqb_eq in H2.
  - now apply String.eqb_eq.
Qed.

(** The pairs the iteration gives for one name. *)
Lemma last_set_pairs name n (vs : list string) :
  last_set name (map (fun v => (n, v)) vs)
  = if String.eqb (Headers.lowercase n) (Headers.lowercase name)
    then match vs with [] => None | _ => Some (last vs EmptyString) end
    else None.
Proof.
  induction vs as [|v vs IH]; simpl.
  - now destruct (String.eqb _ _).
  - rewrite IH. unfold Headers.same_name. simpl.
    destruct (String.eqb (Headers.lowercase n) (Headers.lowercase name));
      [|reflexivity].
    now destruct vs.
Qed.

Lemma last_set_entries_of name h ns :
  NoDup ns -> (forall x, In x ns -> Headers.lowercase x = x) ->
  last_set name
    (flat_map (fun n =>
                 if String.eqb n "set-cookie"
                 then map (fun v => (n, v)) (Headers.values n h)
                 else [(n, Headers.join (Headers.values n h))]) ns)
  = if in_dec string_dec (Headers.lowercase name) ns
    then if String.eqb (Headers.lowercase name) "set-cookie"
         then match Headers.values name h with
              | [] => None
              | vs => Some (last vs EmptyString)
              end
         else Some (Headers.join (Headers.values name h))
    else None.
Proof.
  induction ns as [|n ns IH]; intros Hnd Hlow; [reflexivity|].
  inversion Hnd as [|? ? Hn Hns]; subst.
  cbn [flat_map]. rewrite last_set_app, (IH Hns)
    by (intros x Hx; apply Hlow; now right).
  assert (Hln : Headers.lowercase n = n) by (apply Hlow; now left).
  destruct (in_dec string_dec (Headers.lowercase name) ns) as [Hin|Hout].
  - (* the name comes later *)
    assert (Hne : n <> Headers.lowercase name) by congruence.
    destruct (in_dec string_dec (Headers.lowercase name) (n :: ns))
      as [_|Hno]; [|exfalso; apply Hno; now right].
    assert (Hhere : last_set name
                      (if String.eqb n "set-cookie"
                       then map (fun v => (n, v)) (Headers.values n h)
                       else [(n, Headers.join (Headers.values n h))]) = None).
    { destruct (String.eqb n "set-cookie").
      - rewrite last_set_pairs, Hln.
        apply String.eqb_neq in Hne. now rewrite Hne.
      - simpl. unfold Headers.same_name. simpl. rewrite Hln.
        apply String.eqb_neq in Hne. now rewrite Hne. }
    rewrite Hhere.
    destruct (String.eqb (Headers.lowercase name) "set-cookie");
      [|reflexivity].
    now destruct (Headers.values name h).
  - destruct (string_dec n (Headers.lowercase name)) as [He|Hne].
    + subst n.
      destruct (in_dec string_dec (Headers.lowercase name)
                       (Headers.lowercase name :: ns))
        as [_|Hno]; [|exfalso; apply Hno; now left].
      rewrite values_lowercase.
      destruct (String.eqb (Headers.lowercase name) "set-cookie").
      * rewrite last_set_pairs, lowercase_idem, String.eqb_refl.
        now destruct (Headers.values name h).
      * simpl. unfold Headers.same_name. simpl.
        now rewrite lowercase_idem, String.eqb_refl.
    + destruct (in_dec string_dec (Headers.lowercase name) (n :: ns))
        as [[H|H]|_]; [contradiction | contradiction |].
      destruct (String.eqb n "set-cookie").
      * rewrite last_set_pairs, Hln.
        apply String.eqb_neq in Hne. now rewrite Hne.
      * simpl. unfold Headers.same_name. simpl. rewrite Hln.
        apply String.eqb_neq in Hne. now rewrite Hne.
Qed.

(** The last pair the iteration of a header list gives for a name. *)
Lemma last_set_entries name h :
  last_set name (Headers.entries h) = iterated_value name h.
Proof.
  unfold Headers.entries, iterated_value.
  rewrite (last_set_entries_of name h (Headers.names h) (NoDup_names h)
             (fun x => names_lowercase x h)).
  destruct (in_dec string_dec (Headers.lowercase name) (Headers.names h))
    as [Hin|Hout].
  - apply contains_names in Hin. rewrite Hin.
    rewrite contains_values in Hin.
    destruct (String.eqb (Headers.lowercase name) "set-cookie");
      [|reflexivity].
    now destruct (Headers.values name h).
  - destruct (Headers.contains name h) eqn:E; [|reflexivity].
    apply contains_names in E. contradiction.
Qed.

Lemma combined_set_from other n h h' :
  set_from other h = Normal h' ->
  exists o,
    Headers.create other = Normal o /\
    Headers.combined n h'
    = match iterated_value n o with
      | Some v => Some (Headers.normalize v)
      | None => Headers.combined n h
      end.
Proof.
  unfold set_from. destruct (Headers.create other) as [o|e]; [|discriminate].
  intros H. exists o. split; [reflexivity|].
  now rewrite (combined_set_all _ _ _ _ H), last_set_entries.
Qed.

(** X15: the headers [mergeHeaders] gives hold, for every name and
    without regard to case, the value of the request headers when they have
    that name, else the value of the default headers when they have it,
    else the value of the base headers: the values of a name are combined
    ([set-cookie] keeps its last value) and normalized when they are
    copied. *)
Theorem mergeHeaders_precedence (baseHeaders : option BaseHeaders)
    (defaultHeaders requestHeaders : option HeadersInit) (w w' : World)
    (headers : Headers.t) (name : string) :
  mergeHeaders baseHeaders defaultHeaders requestHeaders w
  = (Normal (Some headers), w') ->
  exists initial B D R,
    initial_headers baseHeaders = Normal initial /\
    built_from initial B /\
    built_from defaultHeaders D /\
    built_from requestHeaders R /\
    Headers.combined name headers
    = match iterated_value name R with
      | Some v => Some (Headers.normalize v)
      | None =>
          match iterated_value name D with
          | Some v => Some (Headers.normalize v)
          | None => Headers.combined name B
          end
      end.
Proof.
  unfold mergeHeaders, bind, lift, ret, await.
  assert (Hmain :
    forall initial,
      initial_headers baseHeaders = Normal initial ->
      forall w1,
        (match initial, defaultHeaders, requestHeaders with
         | None, None, None => fun w : World => (Normal (@None Headers.t), w)
         | _, _, _ =>
             fun w0 : World =>
               match Headers.create (or_else initial []) with
               | Normal a =>
                   match (match defaultHeaders with
                          | Some d => set_from d a
                          | None => Normal a
                          end) with
                   | Normal a0 =>
                       match (match requestHeaders with
                              | Some r => set_from r a0
                              | None => Normal a0
                              end) with
                       | Normal a1 => (Normal (Some a1), w0)
                       | Throw e => (Throw e, w0)
                       end
                   | Throw e => (Throw e, w0)
                   end
               | Throw e => (Throw e, w0)
               end
         end) w1 = (Normal (Some headers), w') ->
        exists B D R,
          built_from initial B /\ built_from defaultHeaders D /\
          built_from requestHeaders R /\
          Headers.combined name headers
          = match iterated_value name R with
            | Some v => Some (Headers.normalize v)
            | None =>
                match iterated_value name D with
                | Some v => Some (Headers.normalize v)
                | None => Headers.combined name B
                end
            end).
  { intros initial _ w1 H.
    assert (Hrun :
      exists B h1,
        Headers.create (or_else initial []) = Normal B /\
        (match defaultHeaders with
         | Some d => set_from d B
         | None => Normal B
         end) = Normal h1 /\
        (match requestHeaders with
         | Some r => set_from r h1
         | None => Normal h1
         end) = Normal headers).
    { destruct initial as [i|], defaultHeaders as [d|], requestHeaders as [r|];
        try discriminate H;
        destruct (Headers.create _) as [B|e]; try discriminate H;
        exists B;
        repeat match type of H with
               | (match ?c with Normal _ => _ | Throw _ => _ end) = _ =>
                   let x := fresh "h" in
                   destruct c as [x|?] eqn:?; [|discriminate H]
               end;
        injection H as <- _; eauto. }
    destruct Hrun as [B [h1 [HB [Hd Hr]]]].
    assert (HD : exists D,
               built_from defaultHeaders D /\
               Headers.combined name h1
               = match iterated_value name D with
                 | Some v => Some (Headers.normalize v)
                 | None => Headers.combined name B
                 end).
    { destruct defaultHeaders as [d|].
      - destruct (combined_set_from _ name _ _ Hd) as [o [Ho E]].
        exists o. now split.
      - injection Hd as <-. exists []. split; reflexivity. }
    assert (HR : exists R,
               built_from requestHeaders R /\
               Headers.combined name headers
               = match iterated_value name R with
                 | Some v => Some (Headers.normalize v)
                 | None => Headers.combined name h1
                 end).
    { destruct requestHeaders as [r|].
      - destruct (combined_set_from _ name _ _ Hr) as [o [Ho E]].
        exists o. now split.
      - injection Hr as <-. exists []. split; reflexivity. }
    destruct HD as [D [HD ED]], HR as [R [HR ER]].
    exists B, D, R. repeat (split; [assumption|]).
    rewrite ER, ED. reflexivity. }
  destruct baseHeaders as [[i|call]|]; cbn [initial_headers].
  - intros H. exists (Some i). apply (Hmain (Some i) eq_refl) in H.
    destruct H as [B [D [R H]]]. exists B, D, R. now split.
  - destruct (outcome call) as [i|e] eqn:Eo; [|discriminate].
    intros H. exists (Some i). apply (Hmain (Some i)) in H.
    + destruct H as [B [D [R H]]]. exists B, D, R. now split.
    + cbn [initial_headers]. now rewrite Eo.
  - intros H. exists None. apply (Hmain None eq_refl) in H.
    destruct H as [B [D [R H]]]. exists B, D, R. now split.
Qed.

Lemma mergeHeaders_precedence_witness :
  exists initial B D R,
    initial_headers (Some Sample.base_headers) = Normal initial /\
    built_from initial B /\
    built_from (Some Sample.default_headers) D /\
    built_from (Some Sample.request_headers) R /\
    Headers.combined "x-trace" Sample.merged_headers
    = match iterated_value "x-trace" R with
      | Some v => Some (Headers.normalize v)
      | None =>
          match iterated_value "x-trace" D with
          | Some v => Some (Headers.normalize v)
          | None => Headers.combined "x-trace" B
          end
      end.
Proof.
  apply (mergeHeaders_precedence (Some Sample.base_headers)
           (Some Sample.default_headers) (Some Sample.request_headers)
           (start 0 NoSignal) (start 0 NoSignal)).
  vm_compute. reflexivity.
Defined.

(** X16: [mergeHeaders] gives [undefined] exactly when there are no base
    headers, no default headers and no request headers (base headers that
    are empty give empty headers); when [baseHeaders] is a function that
    fails, [mergeHeaders] fails with its error. *)
Theorem mergeHeaders_undefined (baseHeaders : option BaseHeaders)
    (defaultHeaders requestHeaders : option HeadersInit) (w : World) :
  (fst (mergeHeaders baseHeaders defaultHeaders requestHeaders w) = Normal None
   <-> baseHeaders = None /\ defaultHeaders = None /\ requestHeaders = None) /\
  (forall e,
      initial_headers baseHeaders = Throw e ->
      fst (mergeHeaders baseHeaders defaultHeaders requestHeaders w) = Throw e).
Proof.
  unfold mergeHeaders, bind, lift, ret, await. split.
  - split.
    + destruct baseHeaders as [[i|call]|]; cbn [fst];
        [| destruct (outcome call) as [i|e] |];
        destruct defaultHeaders as [d|], requestHeaders as [r|]; cbn [fst];
        try (intros H; now repeat split);
        destruct (Headers.create _) as [B|e']; cbn [fst];
        try discriminate;
        repeat match goal with
               | |- fst (match ?c with Normal _ => _ | Throw _ => _ end) = _ -> _ =>
                   destruct c; cbn [fst]
               end; discriminate.
    + intros [-> [-> ->]]. reflexivity.
  - intros e H. destruct baseHeaders as [[i|call]|]; cbn [initial_headers] in H;
      try discriminate.
    destruct (outcome call) as [i|e0]; [discriminate|].
    injection H as ->. reflexivity.
Qed.

(** ** The JSON body *)

Lemma values_fill init :
  forall n h h',
    Headers.fill init h = Normal h' ->
    Headers.values n h'
    = Headers.values n h
      ++ map Headers.normalize (Headers.values n init).
Proof.
  induction init as [|[k x] r IH]; intros n h h' H; simpl in H.
  - injection H as <-. simpl. now rewrite app_nil_r.
  - unfold Headers.append in H.
    destruct (Headers.is_name k && Headers.is_value (Headers.normalize x));
      [|discriminate].
    rewrite (IH _ _ _ H), values_app. unfold Headers.values. simpl.
    unfold Headers.same_name. simpl.
    destruct (String.eqb (Headers.lowercase k) (Headers.lowercase n)); simpl.
    + now rewrite <- app_assoc.
    + now rewrite app_nil_r.
Qed.

(** The pairs the iteration gives for a name that is not [set-cookie]:
    one pair, with the combined value, when the name is there. *)
Lemma values_entries_of name h ns :
  String.eqb (Headers.lowercase name) "set-cookie" = false ->
  NoDup ns -> (forall x, In x ns -> Headers.lowercase x = x) ->
  Headers.values name
    (flat_map (fun n =>
                 if String.eqb n "set-cookie"
                 then map (fun v => (n, v)) (Headers.values n h)
                 else [(n, Headers.join (Headers.values n h))]) ns)
  = if in_dec string_dec (Headers.lowercase name) ns
    then [Headers.join (Headers.values name h)]
    else [].
Proof.
  intros Hsc. induction ns as [|n ns IH]; intros Hnd Hlow; [reflexivity|].
  inversion Hnd as [|? ? Hn Hns]; subst.
  cbn [flat_map]. rewrite values_app, (IH Hns)
    by (intros x Hx; apply Hlow; now right).
  assert (Hln : Headers.lowercase n = n) by (apply Hlow; now left).
  destruct (string_dec n (Headers.lowercase name)) as [He|Hne].
  - subst n. rewrite Hsc.
    destruct (in_dec string_dec (Headers.lowercase name)
                     (Headers.lowercase name :: ns))
      as [_|Hno]; [|exfalso; apply Hno; now left].
    destruct (in_dec string_dec (Headers.lowercase name) ns);
      [contradiction|].
    rewrite values_lowercase.
    change (Headers.values name [?p])
      with (map snd (filter (Headers.same_name name) [p])).
    simpl. unfold Headers.same_name. simpl.
    now rewrite lowercase_idem, String.eqb_refl.
  - match goal with
    | |- Headers.values name ?x ++ _ = _ =>
        assert (Hhere : Headers.values name x = [])
    end.
    { apply String.eqb_neq in Hne.
      destruct (String.eqb n "set-cookie").
      - unfold Headers.values at 1.
        induction (Headers.values n h) as [|v vs IHv]; [reflexivity|].
        simpl. unfold Headers.same_name at 1. simpl. rewrite Hln, Hne.
        exact IHv.
      - change (Headers.values name [?p])
          with (map snd (filter (Headers.same_name name) [p])).
        simpl. unfold Headers.same_name. simpl. now rewrite Hln, Hne. }
    rewrite Hhere. cbn [app].
    destruct (in_dec string_dec (Headers.lowercase name) ns) as [Hin|Hout];
      destruct (in_dec string_dec (Headers.lowercase name) (n :: ns))
        as [Hyes|Hno]; try reflexivity.
    + exfalso. apply Hno. now right.
    + exfalso. destruct Hyes as [H|H]; [apply Hne; exact H | contradiction].
Qed.

(** Copying a [Headers] keeps, for a name that is not [set-cookie], its
    combined value, normalized. *)
Lemma combined_copy name h h' :
  String.eqb (Headers.lowercase name) "set-cookie" = false ->
  Headers.create (Headers.entries h) = Normal h' ->
  Headers.combined name h'
  = option_map Headers.normalize (Headers.combined name h).
Proof.
  intros Hsc Hc. unfold Headers.create in Hc.
  rewrite combined_values, (values_fill _ _ _ _ Hc). simpl.
  unfold Headers.entries.
  rewrite (values_entries_of name h (Headers.names h) Hsc (NoDup_names h)
             (fun x => names_lowercase x h)).
  unfold Headers.combined.
  destruct (in_dec string_dec (Headers.lowercase name) (Headers.names h))
    as [Hin|Hout].
  - apply contains_names in Hin. now rewrite Hin.
  - destruct (Headers.contains name h) eqn:E; [|reflexivity].
    apply contains_names in E. contradiction.
Qed.

(** Comparison of two keys that are literals. *)
Ltac compare_keys :=
  repeat match goal with
         | |- context [String.eqb ?a ?b] =>
             let r := eval vm_compute in (String.eqb a b) in
             change (String.eqb a b) with r
         end;
  cbv iota.

(** The init the block of the [json] option gives: headers, body and
    method are set, in this order, with headers copied from the merged
    ones. *)
Lemma json_body_shape (W : WebPlatform) (j : Json)
    (headers : option Headers.t) (finalInit init : RequestInit) :
  Client.json_body W (Some j) headers finalInit = Normal init ->
  exists h0 h,
    Headers.create (match headers with
                    | Some merged => Headers.entries merged
                    | None => []
                    end) = Normal h0 /\
    (if negb (Headers.contains "content-type" h0)
     then Headers.set "content-type" "application/json" h0
     else Normal h0) = Normal h /\
    init
    = Obj.set "method"
        (match Obj.lookup "method" finalInit with
         | None | Some IUndefined | Some INull => IString "POST"
         | Some m => m
         end)
        (Obj.set "body" (IString (js_JSON_stringify W j))
                 (Obj.set "headers" (IHeaders h) finalInit)).
Proof.
  unfold Client.json_body.
  destruct (Headers.create _) as [h0|e] eqn:Hc; [|discriminate].
  unfold Headers.has. change (Headers.is_name "content-type") with true.
  cbv iota.
  destruct (if negb (Headers.contains "content-type" h0)
            then Headers.set "content-type" "application/json" h0
            else Normal h0) as [h|e] eqn:Hs; [|discriminate].
  intros H. injection H as <-.
  exists h0, h. split; [reflexivity|]. split; [exact Hs|].
  rewrite !lookup_set. compare_keys. reflexivity.
Qed.

(** X17: with a [json] option, the init built for the request has the
    stringified value as its body; its method is the one it had, and POST
    when it had none (or [null] or [undefined]); and its headers are a copy
    of the merged headers in which [content-type] is the value the merged
    headers have for it, under any case, and [application/json] when they
    have none. *)
Theorem json_body_members (W : WebPlatform) (j : Json)
    (headers : option Headers.t) (finalInit init : RequestInit) :
  Client.json_body W (Some j) headers finalInit = Normal init ->
  Obj.lookup "body" init = Some (IString (js_JSON_stringify W j)) /\
  Obj.lookup "method" init
  = Some (match Obj.lookup "method" finalInit with
          | None | Some IUndefined | Some INull => IString "POST"
          | Some m => m
          end) /\
  exists h,
    Obj.lookup "headers" init = Some (IHeaders h) /\
    Headers.combined "content-type" h
    = Some (match headers with
            | Some merged =>
                match Headers.combined "content-type" merged with
                | Some v => Headers.normalize v
                | None => "application/json"%string
                end
            | None => "application/json"%string
            end).
Proof.
  intros H. apply json_body_shape in H as [h0 [h [Hc [Hs ->]]]].
  rewrite !lookup_set. compare_keys.
  split; [reflexivity|]. split; [reflexivity|].
  exists h. split; [reflexivity|].
  assert (H0 : Headers.combined "content-type" h0
               = match headers with
                 | Some merged =>
                     option_map Headers.normalize
                                (Headers.combined "content-type" merged)
                 | None => None
                 end).
  { destruct headers as [merged|].
    - now apply combined_copy.
    - injection Hc as <-. reflexivity. }
  destruct (Headers.contains "content-type" h0) eqn:Ec; simpl in Hs.
  - injection Hs as <-. rewrite H0.
    unfold Headers.combined in H0 at 1. rewrite Ec in H0.
    destruct headers as [merged|]; [|discriminate].
    now destruct (Headers.combined "content-type" merged).
  - rewrite (combined_set _ _ _ _ _ Hs).
    change (Headers.lowercase "content-type") with "content-type"%string.
    compare_keys.
    change (Headers.normalize "application/json")
      with "application/json"%string.
    unfold Headers.combined in H0 at 1. rewrite Ec in H0.
    destruct headers as [merged|]; [|reflexivity].
    now destruct (Headers.combined "content-type" merged).
Qed.

Lemma json_body_members_witness :
  Obj.lookup "body" Sample.json_init
  = Some (IString (js_JSON_stringify Sample.web JNull)) /\
  Obj.lookup "method" Sample.json_init
  = Some (match Obj.lookup "method" [("cache"%string, IOther 0)] with
          | None | Some IUndefined | Some INull => IString "POST"
          | Some m => m
          end) /\
  exists h,
    Obj.lookup "headers" Sample.json_init = Some (IHeaders h) /\
    Headers.combined "content-type" h
    = Some (match Some Sample.merged_headers with
            | Some merged =>
                match Headers.combined "content-type" merged with
                | Some v => Headers.normalize v
                | None => "application/json"%string
                end
            | None => "application/json"%string
            end).
Proof.
  apply (json_body_members Sample.web JNull (Some Sample.merged_headers)
           [("cache"%string, IOther 0)] Sample.json_init).
  vm_compute. reflexivity.
Defined.

(** ** The public operations *)

Lemma keys_replace {V} k (v : V) o : Obj.keys (Obj.replace k v o) = Obj.keys o.
Proof.
  unfold Obj.keys, Obj.replace. rewrite map_map. apply map_ext_in.
  intros [k' v'] _. simpl. destruct (String.eqb k' k) eqn:E; [|reflexivity].
  simpl. symmetry. now apply String.eqb_eq.
Qed.

Lemma In_keys_insert_index {V} n k (v : V) o x :
  In x (Obj.keys (Obj.insert_index n k v o)) <-> x = k \/ In x (Obj.keys o).
Proof.
  induction o as [|[k' v'] r IH]; simpl.
  - intuition.
  - destruct (Obj.array_index k') as [m|]; [destruct (m <? n)%N|]; simpl;
      rewrite ?IH; intuition.
Qed.

Lemma NoDup_insert_index {V} n k (v : V) o :
  ~ In k (Obj.keys o) -> NoDup (Obj.keys o) ->
  NoDup (Obj.keys (Obj.insert_index n k v o)).
Proof.
  induction o as [|[k' v'] r IH]; simpl; intros Hk Hnd.
  - constructor; [intros []|constructor].
  - inversion Hnd as [|? ? Hk' Hr]; subst.
    destruct (Obj.array_index k') as [m|]; [destruct (m <? n)%N|]; simpl;
      try (constructor; [exact Hk | exact Hnd]).
    constructor.
    + rewrite In_keys_insert_index. intros [->|H]; [|contradiction].
      apply Hk. now left.
    + apply IH; [|assumption]. intros H. apply Hk. now right.
Qed.

(** Defining a property keeps the keys distinct. *)
Lemma NoDup_keys_set {V} k (v : V) o :
  NoDup (Obj.keys o) -> NoDup (Obj.keys (Obj.set k v o)).
Proof.
  intros Hnd. unfold Obj.set. destruct (Obj.has k o) eqn:E.
  - now rewrite keys_replace.
  - assert (Hk : ~ In k (Obj.keys o)).
    { intros H. apply has_keys in H. congruence. }
    destruct (Obj.array_index k) as [n|].
    + now apply NoDup_insert_index.
    + unfold Obj.keys. rewrite map_app. simpl.
      apply NoDup_app; [assumption | repeat constructor; intros [] |].
      intros x Hx [<-|[]]. contradiction.
Qed.

Lemma log_mergeHeaders b d r w :
  log (snd (mergeHeaders b d r w)) = log w.
Proof.
  unfold mergeHeaders, bind, lift, ret, await.
  destruct b as [[i|call]|]; [| destruct (outcome call) as [i|e] |];
    cbn [snd]; rewrite ?log_elapse;
    try reflexivity;
    destruct d, r;
    repeat match goal with
           | |- context [match ?c with Normal _ => _ | Throw _ => _ end] =>
               destruct c
           end;
    cbn [snd]; rewrite ?log_elapse; reflexivity.
Qed.

(** How [prepare] goes. *)
Lemma prepare_run config input options w r w0 :
  Client.prepare config input options w = (r, w0) ->
  log w0 = log w /\
  match r with
  | Normal p =>
      exists headers,
        resolveUrl (cfg_web config) input (cfg_baseUrl config)
                   (member o_query options) (cfg_defaultQuery config)
        = Normal (Client.p_url p) /\
        mergeHeaders (cfg_baseHeaders config)
                     (headers_member (cfg_defaultOptions config))
                     (headers_member (option_map o_init options)) w
        = (Normal headers, w0) /\
        Client.json_body (cfg_web config) (member o_json options) headers
          (mergeRequestInit (cfg_defaultOptions config) options headers)
        = Normal (Client.p_init p) /\
        Client.p_policy p
        = resolveRetry (cfg_retry config) (method_member (Client.p_init p))
                       (member o_retry options)
  | Throw _ => True
  end.
Proof.
  unfold Client.prepare, bind, lift, ret.
  destruct (resolveUrl _ _ _ _ _) as [url|e].
  2:{ intros H. injection H as <- <-. now split. }
  pose proof (log_mergeHeaders (cfg_baseHeaders config)
                (headers_member (cfg_defaultOptions config))
                (headers_member (option_map o_init options)) w) as L.
  destruct (mergeHeaders _ _ _ w) as [[headers|e] w1].
  2:{ intros H. injection H as <- <-. now split. }
  destruct (Client.json_body _ _ _ _) as [init|e] eqn:Ej.
  2:{ intros H. injection H as <- <-. now split. }
  intros H. injection H as <- <-. split; [exact L|].
  exists headers. repeat split; assumption.
Qed.

Lemma lookup_sanitize options :
  Obj.lookup "method" (sanitizeRequestInit options)
  = Obj.lookup "method" (request_init options).
Proof.
  destruct options as [o|]; [|reflexivity]. unfold request_init. simpl.
  destruct (o_validate o); [|reflexivity].
  now rewrite lookup_set.
Qed.

Lemma NoDup_sanitize options :
  NoDup (Obj.keys (request_init options)) ->
  NoDup (Obj.keys (sanitizeRequestInit options)).
Proof.
  destruct options as [o|]; [|intros _; constructor].
  unfold request_init. simpl. intros H.
  destruct (o_validate o); [|exact H]. now apply NoDup_keys_set.
Qed.

(** The method of the init handed to [requestWithRetry]. *)
Lemma prepare_method config input options w p w0 :
  NoDup (Obj.keys (request_init options)) ->
  NoDup (Obj.keys (or_else (cfg_defaultOptions config) [])) ->
  Client.prepare config input options w = (Normal p, w0) ->
  Obj.lookup "method" (Client.p_init p)
  = match member o_json options with
    | None => given_method (cfg_defaultOptions config) options
    | Some _ =>
        Some (match given_method (cfg_defaultOptions config) options with
              | None | Some IUndefined | Some INull => IString "POST"
              | Some m => m
              end)
    end.
Proof.
  intros Hr Hd H. apply prepare_run in H as [_ [headers [_ [_ [Hj _]]]]].
  assert (Hm : Obj.lookup "method"
                 (mergeRequestInit (cfg_defaultOptions config) options headers)
               = given_method (cfg_defaultOptions config) options).
  { unfold mergeRequestInit.
    rewrite lookup_set, (lookup_spread _ _ _ (NoDup_sanitize _ Hr)),
      (lookup_spread _ _ _ Hd).
    compare_keys. unfold given_method. rewrite lookup_sanitize. simpl.
    now destruct (Obj.lookup "method" (or_else (cfg_defaultOptions config) [])). }
  destruct (member o_json options) as [j|].
  - apply json_body_shape in Hj as [h0 [h [_ [_ ->]]]].
    rewrite lookup_set. compare_keys. now rewrite Hm.
  - simpl in Hj. injection Hj as <-. exact Hm.
Qed.

(** X18: the method a request is sent with, and from which its retry
    policy is resolved: the [method] of the request options when they have
    that key, else the one of the default options; with a [json] option, a
    method that is missing, [null] or [undefined] becomes POST. *)
Theorem prepared_method (config : FetchClientConfig) (input : string)
    (options : option FetchRequestOptions) (w w0 : World)
    (p : Client.Prepared) :
  NoDup (Obj.keys (request_init options)) ->
  NoDup (Obj.keys (or_else (cfg_defaultOptions config) [])) ->
  Client.prepare config input options w = (Normal p, w0) ->
  Obj.lookup "method" (Client.p_init p)
  = match member o_json options with
    | None => given_method (cfg_defaultOptions config) options
    | Some _ =>
        Some (match given_method (cfg_defaultOptions config) options with
              | None | Some IUndefined | Some INull => IString "POST"
              | Some m => m
              end)
    end /\
  Client.p_policy p
  = resolveRetry (cfg_retry config) (method_member (Client.p_init p))
                 (member o_retry options).
Proof.
  intros Hr Hd H. split; [now apply (prepare_method _ _ _ _ _ _ Hr Hd H)|].
  apply prepare_run in H as [_ [headers [_ [_ [_ Hp]]]]]. exact Hp.
Qed.

Lemma fetcher_world config input options parser w :
  snd (Client.fetcher config input options parser w)
  = match Client.prepare config input options w with
    | (Normal p, w0) => snd (Client.send config options p w0)
    | (Throw _, w0) => w0
    end.
Proof.
  unfold Client.fetcher, bind, throw, lift.
  destruct (Client.prepare config input options w) as [[p|e] w0];
    [|reflexivity].
  destruct (Client.send config options p w0) as [[res|e] w1]; [|reflexivity].
  destruct (Client.shouldThrow config options && negb (ok res));
    [reflexivity|].
  destruct (parseResponse _ _ _); reflexivity.
Qed.

Lemma resolveRetry_source d m r p :
  resolveRetry d m r = Some p ->
  exists src,
    match r with None => d | Some _ => r end = Some src /\
    p = mergedPolicy src.
Proof.
  unfold resolveRetry.
  destruct (match r with None => d | Some _ => r end) as [src|];
    [|discriminate].
  destruct (negb (truthy src)); [discriminate|].
  destruct (_ && _); [discriminate|].
  intros H. injection H as <-. now exists src.
Qed.

(** An operation that forces a method the policy does not name makes one
    attempt. *)
Lemma forced_method_single_attempt config input options parser w M :
  NoDup (Obj.keys (request_init options)) ->
  NoDup (Obj.keys (or_else (cfg_defaultOptions config) [])) ->
  (forall src,
      retry_source config options = Some src ->
      methods (mergedPolicy src) <> [] /\
      ~ In (normalizeMethod (Some M)) (methods (mergedPolicy src))) ->
  (invocations
     (log (snd (Client.fetcher config input
                  (Some (with_method options (IString M))) parser w)))
   <= S (invocations (log w)))%nat.
Proof.
  intros Hr Hd Hsrc. rewrite fetcher_world.
  set (options' := Some (with_method options (IString M))).
  destruct (Client.prepare config input options' w) as [[p|e] w0] eqn:Hp.
  2:{ apply prepare_run in Hp as [-> _]. lia. }
  assert (Hr' : NoDup (Obj.keys (request_init options'))).
  { unfold options', request_init. simpl. apply NoDup_keys_set.
    destruct options; exact Hr. }
  pose proof (prepare_method _ _ _ _ _ _ Hr' Hd Hp) as Hm.
  assert (Hg : given_method (cfg_defaultOptions config) options'
               = Some (IString M)).
  { unfold given_method, options', request_init. simpl.
    now rewrite lookup_set, String.eqb_refl. }
  rewrite Hg in Hm.
  assert (Hmm : method_member (Client.p_init p) = Some M).
  { unfold method_member. destruct (member o_json options'); now rewrite Hm. }
  apply prepare_run in Hp as [L [headers [_ [_ [_ Hpol]]]]].
  rewrite Hmm in Hpol.
  assert (Hret : member o_retry options' = member o_retry options)
    by (destruct options; reflexivity).
  rewrite Hret in Hpol.
  assert (Hnone : Client.p_policy p = None).
  { rewrite Hpol.
    destruct (resolveRetry (cfg_retry config) (Some M) (member o_retry options))
      as [policy|] eqn:E; [|reflexivity].
    exfalso. pose proof (resolveRetry_Some _ _ _ _ E) as Hin.
    apply resolveRetry_source in E as [src [Hs ->]].
    destruct (Hsrc src) as [Hne Hnot].
    { unfold retry_source. destruct (member o_retry options); exact Hs. }
    destruct Hin; contradiction. }
  unfold Client.send. rewrite Hnone.
  match goal with
  | |- context [requestWithRetry ?e ?us ?t None ?x] =>
      pose proof (invocations_bounded e us t None x) as H
  end.
  unfold totalAttempts in H. rewrite L in H. lia.
Qed.

Lemma prepared_method_witness :
  exists p w0,
    Client.prepare Sample.config "/todos" (Some Sample.undefined_method)
                   (start 0 NoSignal) = (Normal p, w0) /\
    Obj.lookup "method" (Client.p_init p) = Some IUndefined /\
    Client.p_policy p = Some DEFAULT_RETRY.
Proof.
  eexists. eexists. split; [vm_compute; reflexivity|].
  refine (prepared_method Sample.config "/todos" (Some Sample.undefined_method)
            (start 0 NoSignal) _ _ _ _ _).
  - repeat constructor; simpl; intuition discriminate.
  - repeat constructor; simpl; intuition discriminate.
  - vm_compute. reflexivity.
Defined.

(** X19: [put], [patch] and [del] make at most one transport invocation
    when the method list of the retry setting in force is the default one
    (GET and HEAD), whatever the number of retries and the status of the
    response; so does [post] when the options give it no method. *)
Theorem writing_verbs_are_not_retried (config : FetchClientConfig)
    (input : string) (options : option FetchRequestOptions) (w : World) :
  NoDup (Obj.keys (request_init options)) ->
  NoDup (Obj.keys (or_else (cfg_defaultOptions config) [])) ->
  (forall src,
      retry_source config options = Some src ->
      methods (mergedPolicy src) = methods DEFAULT_RETRY) ->
  (invocations (log (snd (Client.put config input options w)))
   <= S (invocations (log w)))%nat /\
  (invocations (log (snd (Client.patch config input options w)))
   <= S (invocations (log w)))%nat /\
  (invocations (log (snd (Client.del config input options w)))
   <= S (invocations (log w)))%nat /\
  (Client.method_or_post options = IString "POST" ->
   (invocations (log (snd (Client.post config input options w)))
    <= S (invocations (log w)))%nat).
Proof.
  intros Hr Hd Hsrc.
  assert (Hgate : forall M,
             In M ["PUT"; "PATCH"; "DELETE"; "POST"]%string ->
             forall src,
               retry_source config options = Some src ->
               methods (mergedPolicy src) <> [] /\
               ~ In (normalizeMethod (Some M)) (methods (mergedPolicy src))).
  { intros M HM src Hs. rewrite (Hsrc src Hs). split; [discriminate|].
    repeat (destruct HM as [<-|HM]; [vm_compute; intuition discriminate|]).
    destruct HM. }
  unfold Client.put, Client.patch, Client.del, Client.post.
  repeat split.
  - apply forced_method_single_attempt; auto. apply Hgate. simpl. auto.
  - apply forced_method_single_attempt; auto. apply Hgate. simpl. auto.
  - apply forced_method_single_attempt; auto. apply Hgate. simpl. auto.
  - intros ->. apply forced_method_single_attempt; auto. apply Hgate.
    simpl. auto.
Qed.

Lemma writing_verbs_are_not_retried_witness :
  (invocations
     (log (snd (Client.put Sample.config "/todos" None (start 0 NoSignal))))
   <= S (invocations (log (start 0 NoSignal))))%nat.
Proof.
  refine (proj1 (writing_verbs_are_not_retried Sample.config "/todos" None
                   (start 0 NoSignal) _ _ _)).
  - constructor.
  - repeat constructor; simpl; intuition discriminate.
  - intros src H. injection H as <-. reflexivity.
Defined.

(** ** The safe operations *)

Lemma prepare_without_throw config input options :
  Client.prepare config input (Some (without_throw options))
  = Client.prepare config input options.
Proof. destruct options; reflexivity. Qed.

Lemma send_without_throw config options p :
  Client.send config (Some (without_throw options)) p
  = Client.send config options p.
Proof. destruct options; reflexivity. Qed.

(** X20: [safe] never throws.  Its result tells what [fetcher] does on
    the same request, in the same world: [ok: true] with the data [fetcher]
    returns; [ok: false] with a [FetchClientError], the error payload and
    the response when the response is not ok, which is the error [fetcher]
    throws unless [throwOnHttpError] is off; and [ok: false] with the error
    alone for whatever else [fetcher] throws (a URL that does not parse,
    a failure of the headers, of the transport or of a hook, an abort, a
    body that does not parse, a validator that throws). *)
Theorem safe_mirrors_fetcher (config : FetchClientConfig) (input : string)
    (options : option FetchRequestOptions) (parser : option ResponseParser)
    (w : World) :
  exists r w',
    Client.safe config input options parser w = (Normal r, w') /\
    match r with
    | ResultOk data res =>
        ok res = true /\
        Client.fetcher config input options parser w = (Normal data, w')
    | ResultHttpError e data res =>
        ok res = false /\
        e = FetchClientError (cfg_view config) res /\
        data = parseErrorPayload (cfg_platform config) (cfg_view config) res /\
        (Client.shouldThrow config options = true ->
         Client.fetcher config input options parser w = (Throw e, w'))
    | ResultError e =>
        Client.fetcher config input options parser w = (Throw e, w')
    end.
Proof.
  unfold Client.safe, Client.fetcher, Client.request, tryCatch, bind, throw,
    ret, lift.
  rewrite prepare_without_throw.
  destruct (Client.prepare config input options w) as [[p|e] w0].
  2:{ exists (ResultError e), w0. now split. }
  rewrite send_without_throw.
  destruct (Client.send config options p w0) as [[res|e] w1].
  2:{ exists (ResultError e), w1. now split. }
  assert (Hno : Client.shouldThrow config (Some (without_throw options))
                = false) by reflexivity.
  rewrite Hno. cbn [andb].
  destruct (ok res) eqn:Hok; cbn [negb].
  - rewrite andb_false_r.
    destruct (parseResponse _ _ _) as [parsed|e].
    2:{ exists (ResultError e), w1. now split. }
    destruct (Client.validated options parsed) as [data|e].
    + exists (ResultOk data res), w1. now split.
    + exists (ResultError e), w1. now split.
  - exists (ResultHttpError (FetchClientError (cfg_view config) res)
              (parseErrorPayload (cfg_platform config) (cfg_view config) res)
              res), w1.
    split; [reflexivity|]. split; [exact Hok|]. split; [reflexivity|].
    split; [reflexivity|]. intros ->. reflexivity.
Qed.

(** ** Derived clients *)

Lemma order_before (l1 : list string) k l2 :
  in_property_order (l1 ++ k :: l2) = true ->
  forall k', In k' l1 ->
    match Obj.array_index k', Obj.array_index k with
    | Some m, Some n => (m < n)%N
    | None, Some _ => False
    | _, None => True
    end.
Proof.
  induction l1 as [|a l1 IH]; intros H k' Hin; [destruct Hin|].
  simpl in H. apply andb_true_iff in H as [Hrest Ha].
  destruct Hin as [<-|Hin]; [|now apply IH].
  destruct (Obj.array_index a) as [m|].
  - rewrite forallb_app in Ha. apply andb_true_iff in Ha as [_ Ha].
    simpl in Ha. apply andb_true_iff in Ha as [Ha _].
    destruct (Obj.array_index k); [now apply N.ltb_lt | exact I].
  - rewrite forallb_app in Ha. apply andb_true_iff in Ha as [_ Ha].
    simpl in Ha. apply andb_true_iff in Ha as [Ha _].
    destruct (Obj.array_index k); [discriminate | exact I].
Qed.

Lemma insert_index_last {V} n k (v : V) (o : Obj.t V) :
  (forall k', In k' (Obj.keys o) ->
              exists m, Obj.array_index k' = Some m /\ (m < n)%N) ->
  Obj.insert_index n k v o = o ++ [(k, v)].
Proof.
  induction o as [|[k' v'] r IH]; intros H; simpl; [reflexivity|].
  destruct (H k' (or_introl eq_refl)) as [m [Hm Hlt]]. rewrite Hm.
  apply N.ltb_lt in Hlt. rewrite Hlt. f_equal.
  apply IH. intros x Hx. apply H. now right.
Qed.

(** Defining a key that comes last in property order appends it. *)
Lemma set_last {V} (acc : Obj.t V) k (v : V) (r : Obj.t V) :
  well_formed (acc ++ (k, v) :: r) ->
  Obj.set k v acc = acc ++ [(k, v)].
Proof.
  intros [Hnd Hord]. unfold Obj.keys in *. rewrite map_app in *. simpl in *.
  assert (Hk : Obj.has k acc = false).
  { apply not_true_is_false. intros H. apply has_keys in H.
    apply NoDup_remove_2 in Hnd. apply Hnd. apply in_or_app. now left. }
  unfold Obj.set. rewrite Hk.
  destruct (Obj.array_index k) as [n|] eqn:En; [|reflexivity].
  apply insert_index_last. intros k' Hk'.
  pose proof (order_before _ _ _ Hord k' Hk') as H. rewrite En in H.
  destruct (Obj.array_index k') as [m|]; [|destruct H].
  now exists m.
Qed.

Lemma spread_well_formed {V} (o : Obj.t V) :
  forall acc, well_formed (acc ++ o) -> Obj.spread acc o = acc ++ o.
Proof.
  unfold Obj.spread.
  induction o as [|[k v] r IH]; intros acc H; simpl.
  - now rewrite app_nil_r.
  - rewrite (set_last _ _ _ _ H).
    replace (acc ++ (k, v) :: r) with ((acc ++ [(k, v)]) ++ r) in *
      by (now rewrite <- app_assoc).
    now apply IH.
Qed.

(** Copying an object gives it back. *)
Lemma spread_copy {V} (o : Obj.t V) :
  well_formed o -> Obj.spread (Obj.spread [] o) [] = o.
Proof.
  intros H. change (Obj.spread (Obj.spread [] o) []) with (Obj.spread [] o).
  now rewrite (spread_well_formed o []).
Qed.

Lemma resolveUrl_empty_defaults W input baseUrl query defaultQuery :
  resolveUrl W input baseUrl query (Some (or_else defaultQuery []))
  = resolveUrl W input baseUrl query defaultQuery.
Proof.
  destruct defaultQuery as [q|]; [reflexivity|].
  unfold resolveUrl. now destruct (js_URL W input baseUrl).
Qed.

(** A client derived without overrides prepares every request alike. *)
Lemma prepare_withConfig config input options w :
  well_formed (or_else (cfg_defaultOptions config) []) ->
  well_formed (or_else (cfg_defaultQuery config) []) ->
  Client.prepare (withConfig config no_overrides) input options w
  = Client.prepare config input options w.
Proof.
  intros Ho Hq. unfold Client.prepare.
  cbn [withConfig cfg_web cfg_baseUrl cfg_defaultQuery cfg_baseHeaders
       cfg_defaultOptions cfg_retry no_overrides overridden field_value
       ov_baseUrl ov_baseHeaders ov_defaultQuery ov_defaultOptions ov_retry].
  change (or_else (@None SearchParams) []) with (@nil (string * SearchParamEntry)).
  change (or_else (@None RequestInit) []) with (@nil (string * InitValue)).
  rewrite (spread_copy _ Ho), (spread_copy _ Hq), resolveUrl_empty_defaults.
  clear Ho Hq. destruct (cfg_defaultOptions config); reflexivity.
Qed.

(** X21: a client derived with [withConfig({})] from a configuration
    whose default options and default query are well-formed objects behaves
    as the client it is derived from: [fetcher], [request] and [safe] give
    the same result, in the same world, on every request. *)
Theorem withConfig_without_overrides (config : FetchClientConfig)
    (input : string) (options : option FetchRequestOptions)
    (parser : option ResponseParser) (w : World) :
  well_formed (or_else (cfg_defaultOptions config) []) ->
  well_formed (or_else (cfg_defaultQuery config) []) ->
  Client.fetcher (withConfig config no_overrides) input options parser w
  = Client.fetcher config input options parser w /\
  Client.request (withConfig config no_overrides) input options w
  = Client.request config input options w /\
  Client.safe (withConfig config no_overrides) input options parser w
  = Client.safe config input options parser w.
Proof.
  intros Ho Hq.
  assert (Hp : forall o w1,
             Client.prepare (withConfig config no_overrides) input o w1
             = Client.prepare config input o w1)
    by (intros; now apply prepare_withConfig).
  unfold Client.safe, Client.fetcher, Client.request, tryCatch, bind.
  rewrite !Hp. repeat split.
Qed.

Lemma withConfig_without_overrides_witness :
  Client.fetcher (withConfig Sample.config no_overrides) "/todos" None
                 (Some ParseJson) (start 0 NoSignal)
  = Client.fetcher Sample.config "/todos" None (Some ParseJson)
                   (start 0 NoSignal) /\
  Client.request (withConfig Sample.config no_overrides) "/todos" None
                 (start 0 NoSignal)
  = Client.request Sample.config "/todos" None (start 0 NoSignal) /\
  Client.safe (withConfig Sample.config no_overrides) "/todos" None
              (Some ParseJson) (start 0 NoSignal)
  = Client.safe Sample.config "/todos" None (Some ParseJson)
                (start 0 NoSignal).
Proof.
  apply (withConfig_without_overrides Sample.config "/todos" None
           (Some ParseJson) (start 0 NoSignal)).
  - split; [repeat constructor; simpl; intuition discriminate | reflexivity].
  - split; [constructor | reflexivity].
Defined.

(** X22: in a client derived with [withConfig(overrides)], the default
    query and the default options are merged key by key, the value of the
    overrides first (the [headers] of the default options are thus replaced
    as a whole, not merged); any other member is the one of the overrides
    when they have the key, with a value of [undefined] too, which takes
    the member back to its default. *)
Theorem withConfig_overrides (config : FetchClientConfig)
    (overrides : Overrides) (k : string) :
  NoDup (Obj.keys (or_else (cfg_defaultQuery config) [])) ->
  NoDup (Obj.keys (or_else (field_value (ov_defaultQuery overrides)) [])) ->
  NoDup (Obj.keys (or_else (cfg_defaultOptions config) [])) ->
  NoDup (Obj.keys (or_else (field_value (ov_defaultOptions overrides)) [])) ->
  Obj.lookup k (or_else (cfg_defaultQuery (withConfig config overrides)) [])
  = match Obj.lookup k (or_else (field_value (ov_defaultQuery overrides)) [])
    with
    | Some v => Some v
    | None => Obj.lookup k (or_else (cfg_defaultQuery config) [])
    end /\
  Obj.lookup k (or_else (cfg_defaultOptions (withConfig config overrides)) [])
  = match Obj.lookup k (or_else (field_value (ov_defaultOptions overrides)) [])
    with
    | Some v => Some v
    | None => Obj.lookup k (or_else (cfg_defaultOptions config) [])
    end /\
  (ov_timeout overrides = Present None ->
   cfg_timeout (withConfig config overrides) = None) /\
  (ov_throwOnHttpError overrides = Present None ->
   forall options,
     member o_throwOnHttpError options = None ->
     Client.shouldThrow (withConfig config overrides) options = true).
Proof.
  intros Hq Hq' Ho Ho'. cbn [withConfig cfg_defaultQuery cfg_defaultOptions
    cfg_timeout or_else].
  rewrite (lookup_spread _ _ _ Hq'), (lookup_spread _ _ _ Hq).
  rewrite (lookup_spread _ _ _ Ho'), (lookup_spread _ _ _ Ho). simpl.
  split; [now destruct (Obj.lookup k (or_else (cfg_defaultQuery config) []))|].
  split; [now destruct (Obj.lookup k (or_else (cfg_defaultOptions config) []))|].
  split.
  - intros ->. reflexivity.
  - intros E options Hm. unfold Client.shouldThrow. rewrite Hm.
    cbn [withConfig cfg_throwOnHttpError]. rewrite E. reflexivity.
Qed.

Lemma withConfig_overrides_witness :
  Obj.lookup "method"
    (or_else (cfg_defaultOptions (withConfig Sample.config Sample.overrides))
             [])
  = Some (IString "PUT").
Proof.
  refine (proj1 (proj2 (withConfig_overrides Sample.config Sample.overrides
                          "method" _ _ _ _))).
  - constructor.
  - repeat constructor; simpl; intuition discriminate.
  - repeat constructor; simpl; intuition discriminate.
  - repeat constructor; simpl; intuition discriminate.
Defined.

(** ** The test suite of the repository, on the operations *)

(** "throws FetchClientError on non-ok when throwOnHttpError=true
    (default)" *)
Example test_throws_on_http_error :
  fst (Client.json (Sample.client (fun _ => mkSettles 1 (Normal Sample.bad_request)))
                   "/bad" None (start 0 NoSignal))
  = Throw (mkError "FetchClientError"
                   "Request failed with status 400 (Bad Request)").
Proof. vm_compute. reflexivity. Qed.

(** "safeJson returns ok:false on HTTP error" *)
Example test_safe_on_http_error :
  fst (Client.safeJson
         (Sample.client (fun _ => mkSettles 1 (Normal Sample.bad_request)))
         "/err" None (start 0 NoSignal))
  = Normal (ResultHttpError
              (mkError "FetchClientError"
                       "Request failed with status 400 (Bad Request)")
              (Parsed (JArr [JNum 1])) Sample.bad_request).
Proof. vm_compute. reflexivity. Qed.

(** "uses a validator function" *)
Example test_validator_function :
  fst (Client.json (Sample.client (fun _ => mkSettles 1 (Normal Sample.found)))
                   "/x" (Some Sample.validating) (start 0 NoSignal))
  = Normal (Parsed (JArr [JNum 1])).
Proof. vm_compute. reflexivity. Qed.

(** A default that is an array gives its first item only, and the query
    of the request does not replace a default of the same key. *)
Example default_query_and_query :
  resolveUrl Sample.web "/todos" None
    (Some [("a"%string, Single (SearchString "z"))])
    (Some [("a"%string, Several [SearchNull; SearchString "x"; SearchString "y"]);
           ("b"%string, Single SearchUndefined)])
  = Normal "/todos?a=x&a=z"%string.
Proof. reflexivity. Qed.
